(** * TweetClassifier: metric library, KNN vote, agglomerative clustering,
      cluster extraction and evaluation (src/lib/knn.ts, src/lib/clustering.ts)

    The TypeScript functions are embedded as Rocq functions.

    - A JavaScript [number] that holds a distance is an extended real
      ([Num r], [PInf], [NInf], [NaN]): the arithmetic of the source is kept,
      including what division by zero, the square root of a negative number
      and comparisons with [NaN] give; binary64 rounding, overflow and the
      sign of zero are abstracted away.  Reading [undefined] out of an array
      is read as [NaN], which is what every arithmetic operator and every
      comparison of the source turns it into.
    - Where overflow decides the outcome (whether the loop of
      [hierarchicalClustering] runs down to one cluster), the engine is
      embedded a second time, in the module [Binary64], on Rocq's primitive
      binary64 floats.
    - Counters, sizes and indices are [nat].
    - Strings are [string]s of 8-bit code units; [\s] and [toLowerCase] are
      given on that range.
    - A JavaScript [Set] or [Map] is the list of its elements or entries in
      insertion order, without repetition. *)

From Stdlib Require Import Floats Reals Lra Lia ZArith Ascii String.
From stdpp Require Import gmap strings list fin_maps sorting.

Local Open Scope nat_scope.

(* ====================================================================== *)
(** ** JavaScript numbers *)
(* ====================================================================== *)

Inductive number : Type :=
| Num (r : R)
| PInf
| NInf
| NaN.

Definition ofNat (n : nat) : number := Num (INR n).

Definition is_finite (a : number) : Prop := ∃ r, a = Num r.

(** [Infinity * x] and [-Infinity * x] for a finite [x]. *)
Definition inf_times (positive : bool) (x : R) : number :=
  if Rlt_dec 0 x then (if positive then PInf else NInf)
  else if Rlt_dec x 0 then (if positive then NInf else PInf)
  else NaN.

(** [a + b], exact: the sum of two finite numbers is finite, where binary64
    gives [Infinity] once the sum passes its range ([Binary64] has the
    operator of the source). *)
Definition nadd (a b : number) : number :=
  match a, b with
  | NaN, _ | _, NaN => NaN
  | Num x, Num y => Num (x + y)
  | PInf, NInf | NInf, PInf => NaN
  | PInf, _ | _, PInf => PInf
  | NInf, _ | _, NInf => NInf
  end.

Definition nneg (a : number) : number :=
  match a with
  | Num x => Num (- x)
  | PInf => NInf
  | NInf => PInf
  | NaN => NaN
  end.

Definition nsub (a b : number) : number := nadd a (nneg b).

(** [a * b], exact as well: no overflow, no underflow. *)
Definition nmul (a b : number) : number :=
  match a, b with
  | NaN, _ | _, NaN => NaN
  | Num x, Num y => Num (x * y)
  | PInf, Num x | Num x, PInf => inf_times true x
  | NInf, Num x | Num x, NInf => inf_times false x
  | PInf, PInf | NInf, NInf => PInf
  | PInf, NInf | NInf, PInf => NInf
  end.

Definition ndiv (a b : number) : number :=
  match a, b with
  | NaN, _ | _, NaN => NaN
  | Num x, Num y =>
      if Req_dec_T y 0 then
        (if Rlt_dec 0 x then PInf else if Rlt_dec x 0 then NInf else NaN)
      else Num (x / y)
  | Num _, (PInf | NInf) => Num 0
  | PInf, Num y => if Rlt_dec y 0 then NInf else PInf
  | NInf, Num y => if Rlt_dec y 0 then PInf else NInf
  | (PInf | NInf), (PInf | NInf) => NaN
  end.

(** [Math.sqrt] *)
Definition nsqrt (a : number) : number :=
  match a with
  | Num x => if Rlt_dec x 0 then NaN else Num (sqrt x)
  | PInf => PInf
  | NInf | NaN => NaN
  end.

(** [Math.max] of two arguments *)
Definition nmax (a b : number) : number :=
  match a, b with
  | NaN, _ | _, NaN => NaN
  | Num x, Num y => Num (Rmax x y)
  | PInf, _ | _, PInf => PInf
  | NInf, c | c, NInf => c
  end.

(** [a < b] *)
Definition nltb (a b : number) : bool :=
  match a, b with
  | Num x, Num y => if Rlt_dec x y then true else false
  | Num _, PInf | NInf, Num _ | NInf, PInf => true
  | _, _ => false
  end.

(** [a > b] *)
Definition ngtb (a b : number) : bool := nltb b a.

(** [a === b] *)
Definition neqb (a b : number) : bool :=
  match a, b with
  | Num x, Num y => if Req_dec_T x y then true else false
  | PInf, PInf | NInf, NInf => true
  | _, _ => false
  end.

(** [v || 0] for the result [v] of a [Map.get] on numbers: [undefined], [0]
    and [NaN] are falsy. *)
Definition or_zero (v : option number) : number :=
  match v with
  | Some NaN | None => Num 0
  | Some x => x
  end.

(* ====================================================================== *)
(** ** Strings, [split(/\s+/)], [Set] *)
(* ====================================================================== *)

(** The code units below 256 that [\s] matches. *)
Definition is_space (c : ascii) : bool :=
  let n := nat_of_ascii c in
  ((9 <=? n) && (n <=? 13)) || (n =? 32) || (n =? 160).

(** [s.split(/\s+/)]: the pieces between maximal runs of white space,
    empty pieces at either end included. *)
Fixpoint split_go (cur : string) (in_sep : bool) (s : string) : list string :=
  match s with
  | EmptyString => [cur]
  | String c s' =>
      if is_space c then
        (if in_sep then split_go cur true s'
         else cur :: split_go EmptyString true s')
      else split_go (cur +:+ String c EmptyString) false s'
  end.

Definition split_ws (s : string) : list string := split_go EmptyString false s.

(** [s.split(/\s+/).filter(w => w.length > 0)] *)
Definition tokens (s : string) : list string :=
  filter (λ w, 0 < String.length w) (split_ws s).

(** [toLowerCase] on code units below 256. *)
Definition lower_char (c : ascii) : ascii :=
  let n := nat_of_ascii c in
  if ((65 <=? n) && (n <=? 90))
     || ((192 <=? n) && (n <=? 222) && negb (n =? 215))
  then ascii_of_nat (n + 32) else c.

Fixpoint toLowerCase (s : string) : string :=
  match s with
  | EmptyString => EmptyString
  | String c s' => String (lower_char c) (toLowerCase s')
  end.

Section JsSet.
Context {A : Type} `{EqDecision A}.

(** [set.add(x)] on the insertion-ordered element list *)
Definition set_add (acc : list A) (x : A) : list A :=
  if decide (x ∈ acc) then acc else acc ++ [x].

(** [new Set(l)] *)
Definition new_Set (l : list A) : list A := foldl set_add [] l.

(** [set.has(x)] *)
Definition set_has (s : list A) (x : A) : bool := bool_decide (x ∈ s).
End JsSet.

(* ====================================================================== *)
(** ** Metric library (knn.ts) and [tweetDistance] (clustering.ts) *)
(* ====================================================================== *)

(** knn.ts, [defaultDistance] *)
Definition defaultDistance (t1 t2 : string) : number :=
  let words1 := new_Set (tokens t1) in
  let words2 := new_Set (tokens t2) in
  let union := new_Set (words1 ++ words2) in
  let intersection := new_Set (filter (λ x, set_has words2 x = true) words1) in
  if length union =? 0 then Num 1
  else ndiv (nsub (ofNat (length union)) (ofNat (length intersection)))
            (ofNat (length union)).

(** knn.ts, [jaccardDistance] *)
Definition jaccardDistance (t1 t2 : string) : number :=
  let words1 := new_Set (tokens t1) in
  let words2 := new_Set (tokens t2) in
  let intersection := new_Set (filter (λ x, set_has words2 x = true) words1) in
  let union := new_Set (words1 ++ words2) in
  if length union =? 0 then Num 1
  else nsub (Num 1) (ndiv (ofNat (length intersection)) (ofNat (length union))).

(** clustering.ts, [tweetDistance] *)
Definition tweetDistance (tweet1 tweet2 : string) : number :=
  let words1 := new_Set (tokens (toLowerCase tweet1)) in
  let words2 := new_Set (tokens (toLowerCase tweet2)) in
  let commonWords := new_Set (filter (λ w, set_has words2 w = true) words1) in
  let totalWords := length words1 + length words2 in
  if totalWords =? 0 then Num 1
  else ndiv (nsub (ofNat totalWords) (ofNat (length commonWords)))
            (ofNat totalWords).


(** [arr[i] = v] on a JavaScript array: inside the array the element is
    replaced; past its end the array grows, the skipped positions are holes
    (they read as [hole]). *)
Definition array_set {A} (hole : A) (l : list A) (i : nat) (v : A) : list A :=
  if decide (i < length l) then <[i:=v]> l
  else l ++ replicate (i - length l) hole ++ [v].

(** [matrix[i][j]] on an array of rows of integers *)
Definition cell (matrix : list (list nat)) (i j : nat) : nat :=
  default 0 (matrix !! i ≫= (.!! j)).

(** [matrix[i][j] = v] *)
Definition cell_set (matrix : list (list nat)) (i j v : nat) : list (list nat) :=
  match matrix !! i with
  | Some row => <[i := array_set 0 row j v]> matrix
  | None => matrix
  end.

(** The value the inner loop of [levenshteinDistance] stores at [i], [j]. *)
Definition levenshteinCell (s1 s2 : string) (matrix : list (list nat)) (i j : nat) : nat :=
  if decide (String.get (i - 1) s1 = String.get (j - 1) s2)
  then cell matrix (i - 1) (j - 1)
  else Nat.min (Nat.min (cell matrix (i - 1) (j - 1) + 1)
                        (cell matrix i (j - 1) + 1))
               (cell matrix (i - 1) j + 1).

(** The matrix [levenshteinDistance] has filled when its loops end. *)
Definition levenshteinMatrix (s1 s2 : string) : list (list nat) :=
  let len1 := String.length s1 in
  let len2 := String.length s2 in
  let matrix := (λ i, [i]) <$> seq 0 (S len1) in
  let matrix := foldl (λ m j, cell_set m 0 j j) matrix (seq 0 (S len2)) in
  foldl (λ m i,
           foldl (λ m j, cell_set m i j (levenshteinCell s1 s2 m i j))
                 m (seq 1 len2))
        matrix (seq 1 len1).

(** knn.ts, [levenshteinDistance] *)
Definition levenshteinDistance (s1 s2 : string) : number :=
  let len1 := String.length s1 in
  let len2 := String.length s2 in
  let matrix := levenshteinMatrix s1 s2 in
  let maxLen := Nat.max len1 len2 in
  if maxLen =? 0 then Num 0
  else ndiv (ofNat (cell matrix len1 len2)) (ofNat maxLen).

(** [l.reduce((acc, v, i) => f(acc, v, i), init)], from index [i] on *)
Fixpoint reduce_from {A B} (f : B → A → nat → B) (i : nat) (acc : B) (l : list A) : B :=
  match l with
  | [] => acc
  | v :: l' => reduce_from f (S i) (f acc v i) l'
  end.

(** [words.filter(x => x === w).length] *)
Definition occurrences (words : list string) (w : string) : nat :=
  length (filter (λ x, x = w) words).

(** knn.ts, [cosineDistance] *)
Definition cosineDistance (t1 t2 : string) : number :=
  let words1 := tokens t1 in
  let words2 := tokens t2 in
  let allWords := new_Set (words1 ++ words2) in
  let vec1 := occurrences words1 <$> allWords in
  let vec2 := occurrences words2 <$> allWords in
  let dotProduct := reduce_from (λ sum v i, sum + v * (vec2 !!! i)) 0 0 vec1 in
  let mag1 := nsqrt (ofNat (reduce_from (λ sum v _, sum + v * v) 0 0 vec1)) in
  let mag2 := nsqrt (ofNat (reduce_from (λ sum v _, sum + v * v) 0 0 vec2)) in
  if neqb mag1 (Num 0) || neqb mag2 (Num 0) then Num 1
  else nsub (Num 1) (ndiv (ofNat dotProduct) (nmul mag1 mag2)).

(** knn.ts, [getDistanceFunction] *)
Definition getDistanceFunction (type : string) : string → string → number :=
  if decide (type = "jaccard") then jaccardDistance
  else if decide (type = "levenshtein") then levenshteinDistance
  else if decide (type = "cosine") then cosineDistance
  else defaultDistance.

(* ====================================================================== *)
(** ** KNN classifier (knn.ts) *)
(* ====================================================================== *)

Record Tweet := {
  id : nat;
  text : string;
  label : option string;
  predictedLabel : option string;
  cleaned : option string
}.

Inductive VoteType := majority | weighted.

Record KNNParams := {
  k : nat;
  voteType : VoteType;
  distanceType : string
}.

(** [tweet.cleaned || tweet.text]: a missing or empty [cleaned] is falsy. *)
Definition cleaned_or_text (tweet : Tweet) : string :=
  match cleaned tweet with
  | Some (String c s) => String c s
  | _ => text tweet
  end.

Record Neighbor := { nb_distance : number; nb_label : option string }.

(** The comparator [(a, b) => a.distance - b.distance] is negative. *)
Definition closer (a b : Neighbor) : bool :=
  nltb (nsub (nb_distance a) (nb_distance b)) (Num 0).

(** [Array.prototype.sort] is stable: an element goes in front of the first
    one the comparator puts it strictly before. *)
Fixpoint sort_insert (x : Neighbor) (sorted : list Neighbor) : list Neighbor :=
  match sorted with
  | [] => [x]
  | y :: rest => if closer x y then x :: y :: rest
                 else y :: sort_insert x rest
  end.

Definition sort_by_distance (l : list Neighbor) : list Neighbor :=
  foldl (λ acc x, sort_insert x acc) [] l.

Section JsMap.
Context {K V : Type} `{EqDecision K}.

(** [map.get(key)] *)
Fixpoint map_get (m : list (K * V)) (key : K) : option V :=
  match m with
  | [] => None
  | (k', v) :: m' => if decide (k' = key) then Some v else map_get m' key
  end.

(** [map.set(key, v)]: an existing key keeps its place. *)
Fixpoint map_set (m : list (K * V)) (key : K) (v : V) : list (K * V) :=
  match m with
  | [] => [(key, v)]
  | (k', v') :: m' =>
      if decide (k' = key) then (k', v) :: m' else (k', v') :: map_set m' key v
  end.
End JsMap.

(** The weight of a neighbour in the weighted vote. *)
Definition neighborWeight (distance : number) : number :=
  if neqb distance (Num 0) then Num 1
  else ndiv (Num 1) (nadd distance (Num (1 / 10000))).

(** The [forEach] that keeps the first entry with the largest value. *)
Definition pick_max (m : list (option string * number)) : option string :=
  snd (foldl (λ '(maxWeight, predictedLabel) '(lbl, weight),
                if ngtb weight maxWeight then (weight, lbl)
                else (maxWeight, predictedLabel))
             (Num (-1), Some "neutral") m).

(** knn.ts, [knnClassify] *)
Definition knnClassify (tweetText : string) (trainingData : list Tweet)
    (params : KNNParams) : option string :=
  let distanceFn := getDistanceFunction (distanceType params) in
  let distances :=
    take (k params)
      (sort_by_distance
         ((λ tweet, {| nb_distance := distanceFn tweetText (cleaned_or_text tweet);
                       nb_label := label tweet |}) <$> trainingData)) in
  match voteType params with
  | weighted =>
      let weights :=
        foldl (λ weights nb,
                 let weight := neighborWeight (nb_distance nb) in
                 map_set weights (nb_label nb)
                   (nadd (or_zero (map_get weights (nb_label nb))) weight))
              [] distances in
      pick_max weights
  | majority =>
      let votes :=
        foldl (λ votes nb,
                 map_set votes (nb_label nb)
                   (nadd (or_zero (map_get votes (nb_label nb))) (Num 1)))
              [] distances in
      pick_max votes
  end.

(* ====================================================================== *)
(** ** Clustering engine (clustering.ts) *)
(* ====================================================================== *)

(** What the engine does with a matrix: [m[i][j]] and [m[i][j] = v].
    The engine is written once against this interface; it is run on a
    matrix of values and on a matrix whose rows live in a store shared
    with the caller. *)
Class MatrixStore (M : Type) := {
  mread : M → nat → nat → number;
  mwrite : M → nat → nat → number → M
}.

(** Rows as values.  A row index is always below the number of rows. *)
Definition matrix_read (m : list (list number)) (i j : nat) : number :=
  match m !! i with
  | Some row => default NaN (row !! j)
  | None => NaN
  end.

Definition matrix_write (m : list (list number)) (i j : nat) (v : number)
    : list (list number) :=
  match m !! i with
  | Some row => <[i := array_set NaN row j v]> m
  | None => m
  end.

#[export] Instance value_store : MatrixStore (list (list number)) :=
  {| mread := matrix_read; mwrite := matrix_write |}.

(** clustering.ts, [createDistanceMatrix], on the [cleaned] texts of the
    tweets. *)
Definition createDistanceMatrix (tweets : list string) : list (list number) :=
  let n := length tweets in
  let matrix := replicate n (replicate n (Num 0)) in
  foldl (λ matrix i,
           foldl (λ matrix j,
                    let dist := tweetDistance (tweets !!! i) (tweets !!! j) in
                    matrix_write (matrix_write matrix i j dist) j i dist)
                 matrix (seq (i + 1) (n - (i + 1))))
        matrix (seq 0 n).

(** clustering.ts, [squareToCondensed] *)
Definition squareToCondensed (matrix : list (list number)) : list number :=
  let n := length matrix in
  foldl (λ condensed i,
           foldl (λ condensed j, condensed ++ [matrix_read matrix i j])
                 condensed (seq (i + 1) (n - (i + 1))))
        [] (seq 0 n).

Record ClusterNode := {
  left : option nat;
  right : option nat;
  distance : number;
  count : nat
}.

Inductive LinkageMethod := average | complete | ward.

(** The variables of [hierarchicalClustering]. *)
Record Engine (M : Type) := {
  active : list nat;
  clusterSizes : list nat;
  distances : M;
  clusters : list ClusterNode
}.
Arguments active {M} _.
Arguments clusterSizes {M} _.
Arguments distances {M} _.
Arguments clusters {M} _.

(** [minDist], and [minI], [minJ] once they are no longer [-1]. *)
Record Closest := {
  minDist : number;
  minPair : option (nat * nat)
}.

Section Engine.
Context {M : Type} `{MatrixStore M}.

(** The loop over [j] of the closest-pair search, for one [ci]. *)
Definition scanRow (d : M) (ci : nat) (best : Closest) (rest : list nat) : Closest :=
  foldl (λ best cj,
           if nltb (mread d ci cj) (minDist best)
           then {| minDist := mread d ci cj; minPair := Some (ci, cj) |}
           else best)
        best rest.

(** The loop over [i]: [rest] are the entries of [activeArray] after
    [ci]. *)
Fixpoint scanPairs (d : M) (activeArray : list nat) (best : Closest) : Closest :=
  match activeArray with
  | [] => best
  | ci :: rest => scanPairs d rest (scanRow d ci best rest)
  end.

Definition findClosest (d : M) (activeArray : list nat) : Closest :=
  scanPairs d activeArray {| minDist := PInf; minPair := None |}.

(** [newDist] for the cluster [k]. *)
Definition linkageDistance (method : LinkageMethod) (d : M)
    (sizes : list nat) (minI minJ k : nat) : number :=
  match method with
  | average =>
      ndiv (nadd (nmul (mread d minI k) (ofNat (sizes !!! minI)))
                 (nmul (mread d minJ k) (ofNat (sizes !!! minJ))))
           (ofNat (sizes !!! minI + sizes !!! minJ))
  | complete => nmax (mread d minI k) (mread d minJ k)
  | ward =>
      nsqrt
        (ndiv
           (nsub
              (nadd
                 (nmul (nmul (ofNat (sizes !!! minI + sizes !!! k)) (mread d minI k))
                       (mread d minI k))
                 (nmul (nmul (ofNat (sizes !!! minJ + sizes !!! k)) (mread d minJ k))
                       (mread d minJ k)))
              (nmul (nmul (ofNat (sizes !!! k)) (mread d minI minJ))
                    (mread d minI minJ)))
           (ofNat (sizes !!! minI + sizes !!! minJ + sizes !!! k)))
  end.

(** The loop [for (const k of active)] after [active.delete(minJ)]. *)
Definition updateDistances (method : LinkageMethod) (sizes : list nat)
    (minI minJ : nat) (d : M) (act : list nat) : M :=
  foldl (λ d k,
           if decide (k = minI) then d
           else
             let newDist := linkageDistance method d sizes minI minJ k in
             mwrite (mwrite d minI k newDist) k minI newDist)
        d act.

(** The body of the [while] loop after a pair was found. *)
Definition mergeStep (n : nat) (method : LinkageMethod) (st : Engine M)
    (dist : number) (minI minJ : nat) : Engine M :=
  let sizes := clusterSizes st in
  let newCluster :=
    {| left := Some minI; right := Some minJ; distance := dist;
       count := sizes !!! minI + sizes !!! minJ |} in
  let clusters' := clusters st ++ [newCluster] in
  let newIndex := n + length clusters' - 1 in
  let active' := filter (λ c, c ≠ minJ) (active st) in
  let distances' := updateDistances method sizes minI minJ (distances st) active' in
  {| active := active';
     clusterSizes := <[minI := sizes !!! minI + sizes !!! minJ]> sizes;
     distances := distances';
     clusters := clusters' |}.

(** One turn of the [while] loop: [None] when the loop is left, by its
    condition or by [break]. *)
Definition clusterStep (n : nat) (method : LinkageMethod) (st : Engine M)
    : option (Engine M) :=
  if decide (1 < length (active st)) then
    let best := findClosest (distances st) (active st) in
    match minPair best with
    | None => None
    | Some (minI, minJ) => Some (mergeStep n method st (minDist best) minI minJ)
    end
  else None.

(** The [while] loop; [None] when [fuel] turns were not enough. *)
Fixpoint clusterLoop (fuel : nat) (n : nat) (method : LinkageMethod)
    (st : Engine M) : option (Engine M) :=
  match clusterStep n method st with
  | None => Some st
  | Some st' =>
      match fuel with
      | 0 => None
      | S fuel' => clusterLoop fuel' n method st'
      end
  end.

(** The variables when the loop is entered; [d] is the copied matrix. *)
Definition initialEngine (n : nat) (d : M) : Engine M :=
  {| active := seq 0 n; clusterSizes := replicate n 1;
     distances := d; clusters := [] |}.

(** The engine from the copied matrix on. *)
Definition runClustering (n : nat) (method : LinkageMethod) (d : M)
    : option (Engine M) :=
  clusterLoop n n method (initialEngine n d).

(** The states the loop goes through. *)
Inductive reachable (n : nat) (method : LinkageMethod) (d : M) : Engine M → Prop :=
| reachable_initial : reachable n method d (initialEngine n d)
| reachable_step st st' :
    reachable n method d st →
    clusterStep n method st = Some st' →
    reachable n method d st'.
End Engine.

(** clustering.ts, [hierarchicalClustering], on a matrix of values:
    [distanceMatrix.map(row => [...row])] is then the matrix itself. *)
Definition hierarchicalClustering (distanceMatrix : list (list number))
    (method : LinkageMethod) : option (list ClusterNode) :=
  clusters <$> runClustering (length distanceMatrix) method distanceMatrix.

(** *** The engine on arrays shared with the caller

    A row of the caller's matrix is an array object: a location of the store
    [rows]. The matrix itself is the list of the locations of its rows. *)

Abbreviation loc := nat (only parsing).

Record Shared := {
  rows : gmap loc (list number);
  outer : list loc
}.

Definition shared_read (s : Shared) (i j : nat) : number :=
  match outer s !! i with
  | Some l =>
      match rows s !! l with
      | Some row => default NaN (row !! j)
      | None => NaN
      end
  | None => NaN
  end.

Definition shared_write (s : Shared) (i j : nat) (v : number) : Shared :=
  match outer s !! i with
  | Some l => {| rows := alter (λ row, array_set NaN row j v) l (rows s);
                 outer := outer s |}
  | None => s
  end.

#[export] Instance shared_store : MatrixStore Shared :=
  {| mread := shared_read; mwrite := shared_write |}.

(** [distanceMatrix.map(row => [...row])]: every row is copied into a new
    array, and the new matrix lists the new arrays. *)
Definition copyMatrix (store : gmap loc (list number)) (distanceMatrix : list loc)
    : Shared :=
  foldl (λ s l,
           let l' := fresh (dom (rows s)) in
           {| rows := <[l' := default [] (store !! l)]> (rows s);
              outer := outer s ++ [l'] |})
        {| rows := store; outer := [] |} distanceMatrix.

(** clustering.ts, [hierarchicalClustering], on the caller's arrays: the
    dendrogram and the store when the call returns. *)
Definition hierarchicalClusteringShared (store : gmap loc (list number))
    (distanceMatrix : list loc) (method : LinkageMethod)
    : option (list ClusterNode * gmap loc (list number)) :=
  (λ st, (clusters st, rows (distances st))) <$>
    runClustering (length distanceMatrix) method (copyMatrix store distanceMatrix).

(** The values of the rows a matrix of the store lists. *)
Definition matrixOf (store : gmap loc (list number)) (m : list loc)
    : list (list number) :=
  (λ l, default [] (store !! l)) <$> m.

(* ====================================================================== *)
(** ** Cluster extraction (clustering.ts) *)
(* ====================================================================== *)

(** [l.slice(start)] for an integer [start] *)
Definition slice_from {A} (l : list A) (start : Z) : list A :=
  let len := Z.of_nat (length l) in
  let from := if (start <? 0)%Z then Z.max (len + start) 0 else Z.min start len in
  drop (Z.to_nat from) l.

(** [mapping.get(a) || 0] *)
Definition get_or_zero (mapping : list (nat * nat)) (a : nat) : nat :=
  default 0 (map_get mapping a).

(** clustering.ts, [formClusters].  The records of a dendrogram are distinct
    objects, so [linkage.indexOf(merge)] is the position of [merge] in
    [linkage]: the [i]-th of the selected merges is at position
    [length linkage - length merges + i]. *)
Definition formClusters (linkage : list ClusterNode) (k : Z) (n : nat) : list nat :=
  let assignments := seq 0 n in
  let merges := slice_from linkage (- (k - 1)) in
  let first := length linkage - length merges in
  let assignments :=
    reduce_from
      (λ assignments merge i,
         let clusterId := n + (first + i) in
         let assignments :=
           match left merge with
           | Some l => if decide (l < n) then <[l := clusterId]> assignments
                       else assignments
           | None => assignments
           end in
         match right merge with
         | Some r => if decide (r < n) then <[r := clusterId]> assignments
                     else assignments
         | None => assignments
         end)
      0 assignments merges in
  let uniqueClusters := new_Set assignments in
  let mapping := imap (λ i c, (c, i)) uniqueClusters in
  get_or_zero mapping <$> assignments.

(* ====================================================================== *)
(** ** Evaluation (clustering.ts) *)
(* ====================================================================== *)

(** The first loop of [calculateAccuracy]: label counts per cluster. *)
Definition countLabels (predicted : list nat) (actual : list string)
    : list (nat * list (string * nat)) :=
  reduce_from
    (λ clusterLabels cluster i,
       let lbl := default EmptyString (actual !! i) in
       let clusterLabels :=
         match map_get clusterLabels cluster with
         | Some _ => clusterLabels
         | None => map_set clusterLabels cluster []
         end in
       let labelCounts := default [] (map_get clusterLabels cluster) in
       map_set clusterLabels cluster
         (map_set labelCounts lbl (default 0 (map_get labelCounts lbl) + 1)))
    0 [] predicted.

(** The inner loop of the second one: the first label with the largest
    count. *)
Definition dominantLabel (labelCounts : list (string * nat)) : string :=
  snd (foldl (λ '(maxCount, maxLabel) '(lbl, cnt),
                if decide (maxCount < cnt) then (cnt, lbl) else (maxCount, maxLabel))
             (0, EmptyString) labelCounts).

Definition clusterToLabel (clusterLabels : list (nat * list (string * nat)))
    : list (nat * string) :=
  foldl (λ m '(cluster, labelCounts), map_set m cluster (dominantLabel labelCounts))
        [] clusterLabels.

(** clustering.ts, [calculateAccuracy] *)
Definition calculateAccuracy (predicted : list nat) (actual : list string) : number :=
  if decide (length predicted ≠ length actual) then Num 0
  else
    let toLabel := clusterToLabel (countLabels predicted actual) in
    let correct :=
      reduce_from
        (λ correct p i,
           if decide (map_get toLabel p = actual !! i) then correct + 1 else correct)
        0 0 predicted in
    ndiv (ofNat correct) (ofNat (length predicted)).

(** The two counters of [calculateRandIndex] when its loops end. *)
Definition randCounts (clusters1 : list nat) (clusters2 : list string) : nat * nat :=
  let n := length clusters1 in
  foldl (λ ab i,
           foldl (λ '(a, b) j,
                    let sameC1 := bool_decide (clusters1 !! i = clusters1 !! j) in
                    let sameC2 := bool_decide (clusters2 !! i = clusters2 !! j) in
                    if sameC1 && sameC2 then (a + 1, b)
                    else if negb sameC1 && negb sameC2 then (a, b + 1)
                    else (a, b))
                 ab (seq (i + 1) (n - (i + 1))))
        (0, 0) (seq 0 n).

(** clustering.ts, [calculateRandIndex] *)
Definition calculateRandIndex (clusters1 : list nat) (clusters2 : list string) : number :=
  let n := length clusters1 in
  let '(a, b) := randCounts clusters1 clusters2 in
  let total := ndiv (ofNat (n * (n - 1))) (Num 2) in
  ndiv (ofNat (a + b)) total.

(* ====================================================================== *)
(** ** The metrics in the words of the specification *)
(* ====================================================================== *)

(** The set of tokens of a text, as received. *)
Definition tokenSet (s : string) : gset string := list_to_set (tokens s).

(** From the specification of the default metric:
    (|A∪B| − |A∩B|) / |A∪B|, and 1 when both sets are empty. *)
Definition specDistance (A B : gset string) : number :=
  if decide (size (A ∪ B) = 0) then Num 1
  else Num ((INR (size (A ∪ B)) - INR (size (A ∩ B))) / INR (size (A ∪ B))).

(** What [tweetDistance] computes on the token sets of the lower-cased
    texts: (|A| + |B| − |A∩B|) / (|A| + |B|), and 1 when both are empty. *)
Definition sumDistance (A B : gset string) : number :=
  if decide (size A + size B = 0) then Num 1
  else Num ((INR (size A + size B) - INR (size (A ∩ B))) / INR (size A + size B)).

(** The edit distance between the first [i] characters of [s1] and the
    first [j] characters of [s2], by the recurrence of the classic
    algorithm. *)
Fixpoint editTable (s1 s2 : string) (i : nat) : nat → nat :=
  match i with
  | 0 => λ j, j
  | S i' =>
      fix row (j : nat) : nat :=
        match j with
        | 0 => S i'
        | S j' =>
            if decide (String.get i' s1 = String.get j' s2)
            then editTable s1 s2 i' j'
            else Nat.min (Nat.min (editTable s1 s2 i' j' + 1) (row j' + 1))
                         (editTable s1 s2 i' (S j') + 1)
        end
  end.

(** The matrix of [levenshteinDistance] while it is filled: rows above [i]
    are complete, row [i] is filled up to column [j], rows below hold their
    first cell only. *)
Definition rows_filled (s1 s2 : string) (i j : nat) (m : list (list nat)) : Prop :=
  (∀ a, a < i → m !! a = Some (editTable s1 s2 a <$> seq 0 (S (String.length s2))))
  ∧ m !! i = Some (editTable s1 s2 i <$> seq 0 (S j))
  ∧ (∀ a, i < a → a ≤ String.length s1 → m !! a = Some [a]).

(* ====================================================================== *)
(** ** The clustering engine in the words of the specification *)
(* ====================================================================== *)

(** The closed-form update rules: [d] gives the pairwise distances and
    [size] the cluster sizes before the merge of [i] and [j]. *)
Definition nsquare (x : number) : number := nmul x x.

Definition specLinkage (method : LinkageMethod) (d : nat → nat → number)
    (size : nat → nat) (i j k : nat) : number :=
  match method with
  | average =>
      ndiv (nadd (nmul (d i k) (ofNat (size i))) (nmul (d j k) (ofNat (size j))))
           (ofNat (size i + size j))
  | complete => nmax (d i k) (d j k)
  | ward =>
      nsqrt
        (ndiv
           (nsub
              (nadd (nmul (ofNat (size i + size k)) (nsquare (d i k)))
                    (nmul (ofNat (size j + size k)) (nsquare (d j k))))
              (nmul (ofNat (size k)) (nsquare (d i j))))
           (ofNat (size i + size j + size k)))
  end.

(** A distance matrix over [n] documents: [n] rows of [n] non-negative
    finite reals, symmetric. *)
Definition distance_matrix (m : list (list number)) : Prop :=
  (∀ row, row ∈ m → length row = length m)
  ∧ ∀ i j, i < length m → j < length m →
      ∃ r, (0 <= r)%R ∧ matrix_read m i j = Num r ∧ matrix_read m j i = Num r.

(** What holds of the variables of the engine whatever the distances are:
    the active clusters are distinct indices below [n], every merge retires
    one of them, and the children of a recorded merge are two different
    indices below [n]. *)
Definition engine_wf {M} (n : nat) (st : Engine M) : Prop :=
  NoDup (active st)
  ∧ (∀ c, c ∈ active st → c < n)
  ∧ length (active st) + length (clusters st) = n
  ∧ length (clusterSizes st) = n
  ∧ ∀ node, node ∈ clusters st →
      ∃ i j, left node = Some i ∧ right node = Some j ∧ i < n ∧ j < n ∧ i ≠ j.

(** The pairs the closest-pair search compares: [a] stands before [b] in
    the list of active clusters. *)
Definition ordered_in (act : list nat) (a b : nat) : Prop :=
  ∃ l1 l2, act = l1 ++ a :: l2 ∧ b ∈ l2.

(** The closest pair so far, among the pairs [seen]. *)
Definition scan_ok (d : list (list number)) (seen : nat → nat → Prop)
    (best : Closest) : Prop :=
  match minPair best with
  | None => minDist best = PInf ∧ ∀ a b, ¬ seen a b
  | Some (i, j) =>
      ∃ r0, minDist best = Num r0 ∧ matrix_read d i j = Num r0
            ∧ ∀ a b r, seen a b → matrix_read d a b = Num r → (r0 <= r)%R
  end.

(** The distances between active clusters are non-negative reals, the same
    in both directions, and no active cluster is empty. *)
Definition distances_ok (st : Engine (list (list number))) : Prop :=
  (∀ c, c ∈ active st → 1 ≤ clusterSizes st !!! c)
  ∧ ∀ a b, a ∈ active st → b ∈ active st → a ≠ b →
      ∃ r, (0 <= r)%R ∧ matrix_read (distances st) a b = Num r
           ∧ matrix_read (distances st) b a = Num r.

(* ====================================================================== *)
(** ** Sample inputs *)
(* ====================================================================== *)

(** The scenario of the specification: three cleaned texts and their
    ground-truth labels. *)
Definition scenarioDocuments : list string :=
  ["i love this"; "i love this"; "i hate this"].

Definition scenarioLabels : list string :=
  ["positive"; "positive"; "negative"].

(** A distance matrix over three documents. *)
Definition threeByThree : list (list number) :=
  [[Num 0; Num 1; Num 2]; [Num 1; Num 0; Num 3]; [Num 2; Num 3; Num 0]].

(** The distance matrix and the dendrogram of the scenario, as the code
    computes them. *)
Definition scenarioMatrix : list (list number) :=
  [[Num 0; Num (1 / 2); Num (2 / 3)];
   [Num (1 / 2); Num 0; Num (2 / 3)];
   [Num (2 / 3); Num (2 / 3); Num 0]].

Definition scenarioDendrogram : list ClusterNode :=
  [{| left := Some 0; right := Some 1; distance := Num (1 / 2); count := 2 |};
   {| left := Some 0; right := Some 2; distance := Num (2 / 3); count := 3 |}].

(** A distance matrix over four documents: 0 and 1 are close, 2 and 3 are
    close, the two pairs are far apart. *)
Definition fourByFour : list (list number) :=
  [[Num 0; Num 1; Num 10; Num 10];
   [Num 1; Num 0; Num 10; Num 10];
   [Num 10; Num 10; Num 0; Num 2];
   [Num 10; Num 10; Num 2; Num 0]].

Definition threeDendrogram : list ClusterNode :=
  [{| left := Some 0; right := Some 1; distance := Num 1; count := 2 |};
   {| left := Some 0; right := Some 2; distance := Num (5 / 2); count := 3 |}].

Definition fourDendrogram : list ClusterNode :=
  [{| left := Some 0; right := Some 1; distance := Num 1; count := 2 |};
   {| left := Some 2; right := Some 3; distance := Num 2; count := 2 |};
   {| left := Some 0; right := Some 2; distance := Num 10; count := 4 |}].

(** The engine's matrix [s] leaves the caller's [store] alone: every array of
    [store] is in [rows s] as it was, and no row of [s] is one of them. *)
Definition apart (store : gmap loc (list number)) (s : Shared) : Prop :=
  store ⊆ rows s ∧ ∀ l, l ∈ outer s → store !! l = None.

(** Two engines on different matrices that went through the same turns. *)
Definition same_run {M1 M2} (R : M1 → M2 → Prop)
    (st1 : Engine M1) (st2 : Engine M2) : Prop :=
  active st1 = active st2
  ∧ clusterSizes st1 = clusterSizes st2
  ∧ clusters st1 = clusters st2
  ∧ R (distances st1) (distances st2).

(** The rows of [s] are different arrays, and hold the rows of [m]. *)
Definition holds_rows (s : Shared) (m : list (list number)) : Prop :=
  NoDup (outer s)
  ∧ length (outer s) = length m
  ∧ ∀ i l, outer s !! i = Some l → rows s !! l = m !! i.

(** A reference set with an exact match of the query ["a b"] and a
    near match under another label. *)
Definition exactMatch : Tweet :=
  {| id := 0; text := "a b"; label := Some "positive";
     predictedLabel := None; cleaned := Some "a b" |}.

Definition nearMatch : Tweet :=
  {| id := 1; text := "a b c"; label := Some "negative";
     predictedLabel := None; cleaned := Some "a b c" |}.

Definition weightedParams : KNNParams :=
  {| k := 2; voteType := weighted; distanceType := "default" |}.

(** A pair of cluster ids as [new Map(uniqueClusters.map((c, i) => [c, i]))]
    lists them, from index [i] on. *)
Definition numbered (i : nat) (uniqueClusters : list nat) : list (nat * nat) :=
  imap (λ j c, (c, i + j)) uniqueClusters.

(* ====================================================================== *)
(** ** The Rand index in the words of the specification *)
(* ====================================================================== *)

(** The unordered pairs of [n] documents. *)
Definition documentPairs (n : nat) : list (nat * nat) :=
  concat ((λ i, pair i <$> seq (i + 1) (n - (i + 1))) <$> seq 0 n).

(** The two partitions agree on a pair: together in both, or apart in
    both. *)
Definition agree (clusters1 : list nat) (clusters2 : list string)
    (p : nat * nat) : Prop :=
  (clusters1 !! p.1 = clusters1 !! p.2) ↔ (clusters2 !! p.1 = clusters2 !! p.2).

#[export] Instance agree_dec clusters1 clusters2 p :
  Decision (agree clusters1 clusters2 p).
Proof. unfold agree. apply _. Defined.

Definition agreeingPairs (clusters1 : list nat) (clusters2 : list string) : nat :=
  length (filter (agree clusters1 clusters2) (documentPairs (length clusters1))).

(** Three rows of non-negative reals that are not a distance matrix: the
    entries below the diagonal differ from those above it. *)
Definition lopsided : list (list number) :=
  [[Num 0; Num 5; Num 5]; [Num 0; Num 0; Num 1]; [Num 0; Num 0; Num 0]].

(* ====================================================================== *)
(** ** The clustering engine on binary64 numbers

    Above, a number is an extended real and the arithmetic is exact: a sum
    or a product of two finite numbers is finite.  In the source every
    number is a binary64 float, and a result too large for binary64 is
    [Infinity].  Where that matters (whether the loop of
    [hierarchicalClustering] runs to a single cluster), the engine is
    embedded once more, on Rocq's primitive binary64 floats, whose
    operations are those of the source: [+], [-], [*], [/], [Math.sqrt] and
    [<] of IEEE 754.  The cluster sizes and the [count] of a record are
    numbers of the source as well, hence floats here. *)
(* ====================================================================== *)

Module Binary64.

(** [Math.max(x, y)]: [NaN] when an argument is [NaN], and [+0] for
    [-0] and [+0]. *)
Definition max (x y : float) : float :=
  match PrimFloat.compare x y with
  | FLt => y
  | FGt => x
  | FEq => if PrimFloat.get_sign x then y else x
  | FNotComparable => nan
  end.

(** [m[i][j]]; [undefined], read out of a row that is too short, is the
    [NaN] every operator of the source makes of it. *)
Definition matrix_read (m : list (list float)) (i j : nat) : float :=
  match m !! i with
  | Some row => default nan (row !! j)
  | None => nan
  end.

(** [m[i][j] = v] *)
Definition matrix_write (m : list (list float)) (i j : nat) (v : float)
    : list (list float) :=
  match m !! i with
  | Some row => <[i := array_set nan row j v]> m
  | None => m
  end.

(** [clusterSizes[i]] *)
Definition size (sizes : list float) (i : nat) : float :=
  default nan (sizes !! i).

Record ClusterNode := {
  left : option nat;
  right : option nat;
  distance : float;
  count : float
}.

(** The variables of [hierarchicalClustering]. *)
Record Engine := {
  active : list nat;
  clusterSizes : list float;
  distances : list (list float);
  clusters : list ClusterNode
}.

(** [minDist], and [minI], [minJ] once they are no longer [-1]. *)
Record Closest := {
  minDist : float;
  minPair : option (nat * nat)
}.

(** The loop over [j] of the closest-pair search, for one [ci]. *)
Definition scanRow (d : list (list float)) (ci : nat) (best : Closest)
    (rest : list nat) : Closest :=
  foldl (λ best cj,
           if PrimFloat.ltb (matrix_read d ci cj) (minDist best)
           then {| minDist := matrix_read d ci cj; minPair := Some (ci, cj) |}
           else best)
        best rest.

(** The loop over [i]: [rest] are the entries of [activeArray] after
    [ci]. *)
Fixpoint scanPairs (d : list (list float)) (activeArray : list nat)
    (best : Closest) : Closest :=
  match activeArray with
  | [] => best
  | ci :: rest => scanPairs d rest (scanRow d ci best rest)
  end.

Definition findClosest (d : list (list float)) (activeArray : list nat) : Closest :=
  scanPairs d activeArray {| minDist := infinity; minPair := None |}.

(** [newDist] for the cluster [k]: the three expressions of the source,
    with their order of evaluation. *)
Definition linkageDistance (method : LinkageMethod) (d : list (list float))
    (sizes : list float) (minI minJ k : nat) : float :=
  let dik := matrix_read d minI k in
  let djk := matrix_read d minJ k in
  let dij := matrix_read d minI minJ in
  let si := size sizes minI in
  let sj := size sizes minJ in
  let sk := size sizes k in
  match method with
  | average => ((dik * si + djk * sj) / (si + sj))%float
  | complete => max dik djk
  | ward =>
      PrimFloat.sqrt
        (((si + sk) * dik * dik + (sj + sk) * djk * djk - sk * dij * dij)
         / (si + sj + sk))%float
  end.

(** The loop [for (const k of active)] after [active.delete(minJ)]. *)
Definition updateDistances (method : LinkageMethod) (sizes : list float)
    (minI minJ : nat) (d : list (list float)) (act : list nat)
    : list (list float) :=
  foldl (λ d k,
           if decide (k = minI) then d
           else
             let newDist := linkageDistance method d sizes minI minJ k in
             matrix_write (matrix_write d minI k newDist) k minI newDist)
        d act.

(** The body of the [while] loop after a pair was found. *)
Definition mergeStep (n : nat) (method : LinkageMethod) (st : Engine)
    (dist : float) (minI minJ : nat) : Engine :=
  let sizes := clusterSizes st in
  let newCluster :=
    {| left := Some minI; right := Some minJ; distance := dist;
       count := (size sizes minI + size sizes minJ)%float |} in
  let clusters' := clusters st ++ [newCluster] in
  let newIndex := n + length clusters' - 1 in
  let active' := filter (λ c, c ≠ minJ) (active st) in
  let distances' := updateDistances method sizes minI minJ (distances st) active' in
  {| active := active';
     clusterSizes := <[minI := (size sizes minI + size sizes minJ)%float]> sizes;
     distances := distances';
     clusters := clusters' |}.

(** One turn of the [while] loop: [None] when the loop is left, by its
    condition or by [break]. *)
Definition clusterStep (n : nat) (method : LinkageMethod) (st : Engine)
    : option Engine :=
  if decide (1 < length (active st)) then
    let best := findClosest (distances st) (active st) in
    match minPair best with
    | None => None
    | Some (minI, minJ) => Some (mergeStep n method st (minDist best) minI minJ)
    end
  else None.

(** The [while] loop; [None] when [fuel] turns were not enough. *)
Fixpoint clusterLoop (fuel : nat) (n : nat) (method : LinkageMethod)
    (st : Engine) : option Engine :=
  match clusterStep n method st with
  | None => Some st
  | Some st' =>
      match fuel with
      | 0 => None
      | S fuel' => clusterLoop fuel' n method st'
      end
  end.

(** The variables when the loop is entered; [d] is the copied matrix. *)
Definition initialEngine (n : nat) (d : list (list float)) : Engine :=
  {| active := seq 0 n; clusterSizes := replicate n 1%float;
     distances := d; clusters := [] |}.

Definition runClustering (n : nat) (method : LinkageMethod) (d : list (list float))
    : option Engine :=
  clusterLoop n n method (initialEngine n d).

(** The states the loop goes through. *)
Inductive reachable (n : nat) (method : LinkageMethod) (d : list (list float))
    : Engine → Prop :=
| reachable_initial : reachable n method d (initialEngine n d)
| reachable_step st st' :
    reachable n method d st →
    clusterStep n method st = Some st' →
    reachable n method d st'.

(** clustering.ts, [hierarchicalClustering], on binary64 numbers. *)
Definition hierarchicalClustering (distanceMatrix : list (list float))
    (method : LinkageMethod) : option (list ClusterNode) :=
  clusters <$> runClustering (length distanceMatrix) method distanceMatrix.


(** What holds of the variables at every turn of the loop. *)
Definition engine_wf (n : nat) (st : Engine) : Prop :=
  NoDup (active st)
  ∧ (∀ c, c ∈ active st → c < n)
  ∧ length (active st) + length (clusters st) = n
  ∧ ∀ node, node ∈ clusters st →
      ∃ i j, left node = Some i ∧ right node = Some j ∧ i < n ∧ j < n ∧ i ≠ j.




(** The matrix of the scenario, for three documents. *)
Definition nearBy : list (list float) :=
  [[0; 0.5; 2]; [0.5; 0; 3]; [2; 3; 0]]%float.
End Binary64.


(* ====================================================================== *)
(** * Further code and properties

    The rest of the definitions serves the properties proved after the
    claims of the specification: invariants of the clustering engine, the
    neighbours of the KNN classifier, the confusion matrix
    ([createConfusionMatrix]), the dictionary classifier
    (dictionaryClassify.ts, for any content of its two word lists), tweet
    cleaning ([cleanTweet], its regular expressions written as scans over
    the code units), the handlers [handleClustering] and [handleAutoLabel]
    of the pages (the value they store, without the messages they show), and
    the tree of the dendrogram view (without positions and drawing). *)
(* ====================================================================== *)

(* ====================================================================== *)
(** ** Invariants of the engine used for further properties *)
(* ====================================================================== *)

(** The sizes of the active clusters add up to the number of documents, and
    every record counts the documents of the cluster it made. *)
Definition sizes_ok {M} (n : nat) (st : Engine M) : Prop :=
  (∀ c, c ∈ active st → 1 ≤ clusterSizes st !!! c)
  ∧ sum_list_with (λ c, clusterSizes st !!! c) (active st) = n
  ∧ (∀ node, node ∈ clusters st → 2 ≤ count node ≤ n)
  ∧ (∀ node, last (clusters st) = Some node →
       ∃ i, left node = Some i ∧ i ∈ active st
            ∧ count node = clusterSizes st !!! i).

(** All rows of [m] have as many cells as [m] has rows. *)
Definition square {A} (n : nat) (m : list (list A)) : Prop :=
  length m = n ∧ ∀ row, row ∈ m → length row = n.

(** The table of the pairwise distances of [tweets], with 0 on the
    diagonal. *)
Definition distanceTable (tweets : list string) : list (list number) :=
  imap (λ a ta, imap (λ b tb, if decide (a = b) then Num 0 else tweetDistance ta tb)
                     tweets) tweets.

(** The merge distances of a dendrogram never go down. *)
Definition nondecreasing (cs : list ClusterNode) : Prop :=
  ∀ p q a b, p ≤ q → cs !! p = Some a → cs !! q = Some b →
    ∃ x y, distance a = Num x ∧ distance b = Num y ∧ (x <= y)%R.

(** No two active clusters are closer than a merge already recorded. *)
Definition merges_below (st : Engine (list (list number))) : Prop :=
  ∀ node, node ∈ clusters st →
    ∃ x, distance node = Num x
         ∧ ∀ a b r, a ∈ active st → b ∈ active st → a ≠ b →
             matrix_read (distances st) a b = Num r → (x <= r)%R.

(** The dendrogram of [threeByThree] under complete linkage. *)
Definition threeCompleteDendrogram : list ClusterNode :=
  [{| left := Some 0; right := Some 1; distance := Num 1; count := 2 |};
   {| left := Some 0; right := Some 2; distance := Num 3; count := 3 |}].

(* ====================================================================== *)
(** ** The KNN classifier: the neighbours of a query *)
(* ====================================================================== *)

(** The neighbours of [tweetText] before they are sorted. *)
Definition neighbors (tweetText : string) (trainingData : list Tweet)
    (distanceType : string) : list Neighbor :=
  (λ tweet, {| nb_distance := getDistanceFunction distanceType tweetText
                                (cleaned_or_text tweet);
               nb_label := label tweet |}) <$> trainingData.

(** [x] is the first of the neighbours at the smallest distance: those
    before it are strictly farther, those after it are not closer. *)
Definition first_nearest (l1 : list Neighbor) (x : Neighbor) (l2 : list Neighbor)
    : Prop :=
  ∃ r, nb_distance x = Num r
       ∧ (∀ y, y ∈ l1 → ∃ s, nb_distance y = Num s ∧ (r < s)%R)
       ∧ (∀ y, y ∈ l2 → ∃ s, nb_distance y = Num s ∧ (r <= s)%R).

(** The assignment [formClusters] extracts in the scenario. *)
Definition scenarioAssignment : list nat := [0; 1; 0].

(** Documents of one cluster carry one ground-truth label. *)
Definition pure_clusters (predicted : list nat) (actual : list string) : Prop :=
  ∀ i j c, predicted !! i = Some c → predicted !! j = Some c →
           actual !! i = actual !! j.

(** The label counts of [calculateAccuracy] after [j] documents, when the
    clusters are pure: one entry per cluster met, holding the one label of
    the cluster. *)
Definition pure_counts (predicted : list nat) (actual : list string) (j : nat)
    (m : list (nat * list (string * nat))) : Prop :=
  NoDup m.*1
  ∧ ∀ c, match map_get m c with
         | None => ∀ p, p < j → predicted !! p ≠ Some c
         | Some lc => ∃ p L cnt, p < j ∧ predicted !! p = Some c
                                 ∧ actual !! p = Some L
                                 ∧ lc = [(L, cnt)] ∧ 1 ≤ cnt
         end.

(** An assignment with pure clusters for the labels of the scenario. *)
Definition pureAssignment : list nat := [0; 0; 1].

(* ====================================================================== *)
(** ** Dictionary classification (dictionaryClassify.ts) *)
(* ====================================================================== *)

(** The code units that [[,\s]] matches. *)
Definition is_list_sep (c : ascii) : bool :=
  (nat_of_ascii c =? 44) || is_space c.

(** [s.split(/[,\s]+/)]: the pieces between maximal runs of commas and
    white space, empty pieces at either end included. *)
Fixpoint split_list_go (cur : string) (in_sep : bool) (s : string) : list string :=
  match s with
  | EmptyString => [cur]
  | String c s' =>
      if is_list_sep c then
        (if in_sep then split_list_go cur true s'
         else cur :: split_list_go EmptyString true s')
      else split_list_go (cur +:+ String c EmptyString) false s'
  end.

Definition split_list (s : string) : list string :=
  split_list_go EmptyString false s.

(** The two word lists are assets of the repository, read when the module is
    loaded: the classifier is stated for any content of the two files. *)
Section Dictionary.
Variables positiveWordsFile negativeWordsFile : string.

Definition positiveWords : list string :=
  new_Set (filter (λ w, 0 < String.length w)
                  (split_list (toLowerCase positiveWordsFile))).

Definition negativeWords : list string :=
  new_Set (filter (λ w, 0 < String.length w)
                  (split_list (toLowerCase negativeWordsFile))).

(** dictionaryClassify.ts, [dictionaryClassify] *)
Definition dictionaryClassify (text : string) : string :=
  let words := split_ws (toLowerCase text) in
  let positiveCount := length (filter (λ w, set_has positiveWords w = true) words) in
  let negativeCount := length (filter (λ w, set_has negativeWords w = true) words) in
  if decide (negativeCount < positiveCount) then "positive"
  else if decide (positiveCount < negativeCount) then "negative"
  else "neutral".
End Dictionary.

(** Word lists and a text for the dictionary classifier. *)
Definition samplePositiveFile : string := "good, great happy".
Definition sampleNegativeFile : string := "bad,awful".
Definition plainText : string := "  just a day ".

(* ====================================================================== *)
(** ** The confusion matrix (clustering.ts) *)
(* ====================================================================== *)

(** [labels.indexOf(x)]; [None] stands for -1. *)
Fixpoint indexOf {A} `{EqDecision A} (l : list A) (x : A) : option nat :=
  match l with
  | [] => None
  | y :: l' => if decide (y = x) then Some 0 else S <$> indexOf l' x
  end.

(** The order of [sort()] without a comparison function, on strings: by
    code units. *)
Definition string_le (s1 s2 : string) : Prop := String.leb s1 s2 = true.

#[export] Instance string_le_dec : RelDecision string_le :=
  λ s1 s2, decide (String.leb s1 s2 = true).

(** The counting loops of [createConfusionMatrix].  They are those of
    [calculateAccuracy], but nothing stops [actual[i]] from being read past
    the end of [actual] here, so a label is of a type [L] that can hold
    [undefined]. *)
Section LabelCounts.
Context {L : Type} `{EqDecision L}.

(** One turn of the first loop, for document [i] of cluster [cluster]. *)
Definition countLabel (labelAt : nat → L) (clusterLabels : list (nat * list (L * nat)))
    (cluster i : nat) : list (nat * list (L * nat)) :=
  let lbl := labelAt i in
  let clusterLabels :=
    match map_get clusterLabels cluster with
    | Some _ => clusterLabels
    | None => map_set clusterLabels cluster []
    end in
  let labelCounts := default [] (map_get clusterLabels cluster) in
  map_set clusterLabels cluster
    (map_set labelCounts lbl (default 0 (map_get labelCounts lbl) + 1)).

Definition countLabelsOf (labelAt : nat → L) (predicted : list nat)
    : list (nat * list (L * nat)) :=
  reduce_from (countLabel labelAt) 0 [] predicted.

(** The first label with the largest count, [start] when there is none. *)
Definition dominantOf (start : L) (labelCounts : list (L * nat)) : L :=
  snd (foldl (λ '(maxCount, maxLabel) '(lbl, cnt),
                if decide (maxCount < cnt) then (cnt, lbl) else (maxCount, maxLabel))
             (0, start) labelCounts).

Definition clusterToLabelOf (start : L) (clusterLabels : list (nat * list (L * nat)))
    : list (nat * L) :=
  foldl (λ m '(cluster, labelCounts), map_set m cluster (dominantOf start labelCounts))
        [] clusterLabels.
End LabelCounts.

Record ConfusionMatrix := {
  matrix : list (list nat);
  labels : list string
}.

(** clustering.ts, [createConfusionMatrix].  A label is [Some s] or [None]
    for [undefined]; [predLabel || ''] is the empty string for [undefined]
    and for the empty string. *)
Definition createConfusionMatrix (predicted : list nat) (actual : list string)
    : ConfusionMatrix :=
  let labels := merge_sort string_le (new_Set actual) in
  let n := length labels in
  let matrix := replicate n (replicate n 0) in
  let clusterToLabel :=
    clusterToLabelOf (Some EmptyString) (countLabelsOf (λ i, actual !! i) predicted) in
  let matrix :=
    reduce_from
      (λ matrix p i,
         let predLabel := map_get clusterToLabel p in
         let trueLabel := actual !! i in
         let predIdx :=
           indexOf labels (match predLabel with
                           | Some (Some s) => s
                           | _ => EmptyString
                           end) in
         let trueIdx := trueLabel ≫= indexOf labels in
         match predIdx, trueIdx with
         | Some predIdx, Some trueIdx =>
             cell_set matrix trueIdx predIdx (cell matrix trueIdx predIdx + 1)
         | _, _ => matrix
         end)
      0 matrix predicted in
  {| matrix := matrix; labels := labels |}.

(** The sum of all entries and the sum of the diagonal of a matrix. *)
Definition matrixTotal (m : list (list nat)) : nat := sum_list (sum_list <$> m).

Definition matrixTrace (m : list (list nat)) : nat :=
  sum_list ((λ i, cell m i i) <$> seq 0 (length m)).

(** What the counting loop has built after [j] documents: one entry per
    cluster met, each with at least one label, every label counted at least
    once and met among the first [j] documents. *)
Definition counts_ok {L} `{EqDecision L} (labelAt : nat → L) (predicted : list nat)
    (j : nat) (m : list (nat * list (L * nat))) : Prop :=
  NoDup m.*1
  ∧ (∀ p c, p < j → predicted !! p = Some c → is_Some (map_get m c))
  ∧ (∀ c lc, map_get m c = Some lc →
       lc ≠ [] ∧ Forall (λ e, 1 ≤ e.2 ∧ ∃ p, p < j ∧ e.1 = labelAt p) lc).

(** The counts of defined labels, seen as counts of labels that can be
    [undefined]. *)
Definition defined_counts (lc : list (string * nat)) : list (option string * nat) :=
  prod_map Some Datatypes.id <$> lc.

Definition defined_clusters (m : list (nat * list (string * nat)))
    : list (nat * list (option string * nat)) :=
  prod_map Datatypes.id defined_counts <$> m.

(** The state of the last loop of [createConfusionMatrix] after [j]
    documents, beside the counter of [calculateAccuracy]. *)
Definition filled (n j : nat) (m : list (list nat)) (correct : nat) : Prop :=
  square n m ∧ matrixTotal m = j ∧ matrixTrace m = correct.

(* ====================================================================== *)
(** ** The pages: clustering (ClusteringSection.tsx) and labelling
       (KNNConfig.tsx) *)
(* ====================================================================== *)

(** [t.label] as a condition: a missing or empty label is falsy. *)
Definition truthy (s : option string) : bool :=
  match s with
  | Some (String _ _) => true
  | _ => false
  end.

Record ClusterResults := {
  assignments : list nat;
  accuracy : number;
  confusionMatrix : ConfusionMatrix;
  randIndex : number;
  linkage : list ClusterNode
}.

(** How [handleClustering] ends: with the message that there are too few
    tweets, in its [catch] branch, or with the results it stores. *)
Inductive ClusteringOutcome :=
| notEnoughData
| clusteringFailed
| clusterResults (results : ClusterResults).

(** ClusteringSection.tsx, [handleClustering].  With two tweets or more
    every tweet is in a pair of [createDistanceMatrix], so a tweet without
    [cleaned] makes [tweetDistance] throw; the loop of
    [hierarchicalClustering] always ends, its out-of-fuel case is put with
    the failures. *)
Definition handleClustering (tweets : list Tweet) (method : LinkageMethod)
    (clusterCount : Z) : ClusteringOutcome :=
  if decide (length tweets < 2) then notEnoughData
  else
    match mapM cleaned tweets with
    | None => clusteringFailed
    | Some texts =>
        let distanceMatrix := createDistanceMatrix texts in
        match hierarchicalClustering distanceMatrix method with
        | None => clusteringFailed
        | Some linkage =>
            let assignments := formClusters linkage clusterCount (length tweets) in
            let labeledTweets := filter (λ t, truthy (label t) = true) tweets in
            let labeledAssignments := take (length labeledTweets) assignments in
            let actualLabels :=
              (λ t, default EmptyString (label t)) <$> labeledTweets in
            if decide (length labeledTweets = 0) then
              clusterResults
                {| assignments := assignments; accuracy := Num 0;
                   confusionMatrix := {| matrix := []; labels := [] |};
                   randIndex := Num 0; linkage := linkage |}
            else
              clusterResults
                {| assignments := assignments;
                   accuracy := calculateAccuracy labeledAssignments actualLabels;
                   confusionMatrix :=
                     createConfusionMatrix labeledAssignments actualLabels;
                   randIndex := calculateRandIndex labeledAssignments actualLabels;
                   linkage := linkage |}
        end
    end.

(** KNNConfig.tsx, [handleAutoLabel]: the new training tweets, [None] when
    the handler returns before it sets any. *)
Definition handleAutoLabel (positiveWordsFile negativeWordsFile : string)
    (trainingTweets : list Tweet) : option (list Tweet) :=
  let unlabeled := filter (λ t, truthy (label t) = false) trainingTweets in
  if decide (length unlabeled = 0) then None
  else
    Some ((λ tweet,
             if truthy (label tweet) then tweet
             else {| id := id tweet; text := text tweet;
                     label := Some (dictionaryClassify positiveWordsFile
                                      negativeWordsFile (cleaned_or_text tweet));
                     predictedLabel := predictedLabel tweet;
                     cleaned := cleaned tweet |})
          <$> trainingTweets).

(** The tweets of the scenario, the last one without a label. *)
Definition scenarioTweets : list Tweet :=
  [{| id := 0; text := "I love this"; label := Some "positive";
      predictedLabel := None; cleaned := Some "i love this" |};
   {| id := 1; text := "I love this"; label := Some "positive";
      predictedLabel := None; cleaned := Some "i love this" |};
   {| id := 2; text := "I hate this"; label := None;
      predictedLabel := None; cleaned := Some "i hate this" |}].

Definition scenarioTweetsLabeled : list Tweet :=
  [{| id := 0; text := "I love this"; label := Some "positive";
      predictedLabel := None; cleaned := Some "i love this" |};
   {| id := 1; text := "I love this"; label := Some "positive";
      predictedLabel := None; cleaned := Some "i love this" |};
   {| id := 2; text := "I hate this"; label := Some "neutral";
      predictedLabel := None; cleaned := Some "i hate this" |}].

(* ====================================================================== *)
(** ** Cleaning a tweet ([cleanTweet]) *)
(* ====================================================================== *)

(** The code units that [\w] matches. *)
Definition is_word (c : ascii) : bool :=
  let n := nat_of_ascii c in
  ((48 <=? n) && (n <=? 57)) || ((65 <=? n) && (n <=? 90)) || (n =? 95)
  || ((97 <=? n) && (n <=? 122)).

(** Whether the first code unit of [s] is there and satisfies [p]. *)
Definition starts_with (p : ascii → bool) (s : string) : bool :=
  match s with
  | String c _ => p c
  | EmptyString => false
  end.

(** [s.replace(/@\w+/g, "")] and [s.replace(/#\w+/g, "")], the mark [@] or
    [#] being [tag]: a match starts at a mark followed by a code unit of
    [\w] and takes all the code units of [\w] that follow; [in_match] tells
    that the scan is inside a match. *)
Fixpoint remove_tagged (tag : ascii) (in_match : bool) (s : string) : string :=
  match s with
  | EmptyString => EmptyString
  | String c s' =>
      if in_match && is_word c then remove_tagged tag true s'
      else if Ascii.eqb c tag && starts_with is_word s' then remove_tagged tag true s'
      else String c (remove_tagged tag false s')
  end.

(** [s] without its prefix [p], when it starts with [p]. *)
Fixpoint strip_prefix (p s : string) : option string :=
  match p, s with
  | EmptyString, _ => Some s
  | String a p', String b s' => if Ascii.eqb a b then strip_prefix p' s' else None
  | String _ _, EmptyString => None
  end.

(** The length of the match of [\bRT\b:?\s?] at the head of [s], if any;
    [prev_word] tells whether the code unit before [s] is one of [\w]. *)
Definition RT_match (prev_word : bool) (s : string) : option nat :=
  match strip_prefix "RT" s with
  | Some rest =>
      if prev_word || starts_with is_word rest then None
      else
        let colon := strip_prefix ":" rest in
        let rest := default rest colon in
        let space := starts_with is_space rest in
        Some (2 + (match colon with Some _ => 1 | None => 0 end)
                + (if space then 1 else 0))
  | None => None
  end.

(** [s.replace(/\bRT\b:?\s?/g, "")]; [skip] counts the code units of the
    current match that are still to be dropped. *)
Fixpoint remove_RT (skip : nat) (prev_word : bool) (s : string) : string :=
  match s with
  | EmptyString => EmptyString
  | String c s' =>
      match skip with
      | S skip' => remove_RT skip' (is_word c) s'
      | 0 =>
          match RT_match prev_word s with
          | Some len => remove_RT (len - 1) (is_word c) s'
          | None => String c (remove_RT 0 (is_word c) s')
          end
      end
  end.

(** Whether [s] starts with [://] and a code unit that is no white space. *)
Definition after_scheme (s : string) : bool :=
  match strip_prefix "://" s with
  | Some rest => starts_with (λ c, negb (is_space c)) rest
  | None => false
  end.

(** Whether [https?:\/\/\S+] matches at the head of [s]. *)
Definition url_start (s : string) : bool :=
  match strip_prefix "http" s with
  | Some rest =>
      after_scheme rest
      || match strip_prefix "s" rest with
         | Some rest' => after_scheme rest'
         | None => false
         end
  | None => false
  end.

(** [s.replace(/https?:\/\/\S+/g, "")]: a match runs to the next white
    space. *)
Fixpoint remove_urls (in_match : bool) (s : string) : string :=
  match s with
  | EmptyString => EmptyString
  | String c s' =>
      if in_match && negb (is_space c) then remove_urls true s'
      else if url_start s then remove_urls true s'
      else String c (remove_urls false s')
  end.

(** [s.replace(/\s{2,}/g, " ")]: a run of two or more white-space code
    units becomes one space, a single one stays what it is. *)
Fixpoint collapse_spaces (in_run : bool) (s : string) : string :=
  match s with
  | EmptyString => EmptyString
  | String c s' =>
      if is_space c then
        if in_run then collapse_spaces true s'
        else if starts_with is_space s' then String " " (collapse_spaces true s')
        else String c (collapse_spaces false s')
      else String c (collapse_spaces false s')
  end.

(** [s.trim()] *)
Fixpoint trim_start (s : string) : string :=
  match s with
  | EmptyString => EmptyString
  | String c s' => if is_space c then trim_start s' else s
  end.

Fixpoint trim_end (s : string) : string :=
  match s with
  | EmptyString => EmptyString
  | String c s' =>
      match trim_end s' with
      | EmptyString => if is_space c then EmptyString else String c EmptyString
      | rest => String c rest
      end
  end.

Definition trim (s : string) : string := trim_end (trim_start s).

(** [cleanTweet] *)
Definition cleanTweet (text : string) : string :=
  let clean := text in
  let clean := remove_tagged "@" false clean in
  let clean := remove_tagged "#" false clean in
  let clean := remove_RT 0 false clean in
  let clean := remove_urls false clean in
  let clean := collapse_spaces false clean in
  let clean := trim clean in
  clean.

(** Two white-space code units in a row somewhere in [s]. *)
Fixpoint double_space (s : string) : bool :=
  match s with
  | EmptyString => false
  | String c s' => (is_space c && starts_with is_space s') || double_space s'
  end.

(** Whether the last code unit of [s] is there and is white space. *)
Fixpoint ends_with_space (s : string) : bool :=
  match s with
  | EmptyString => false
  | String c EmptyString => is_space c
  | String _ s' => ends_with_space s'
  end.

(** Whether the code unit [c] occurs in [s]. *)
Fixpoint occurs (c : ascii) (s : string) : bool :=
  match s with
  | EmptyString => false
  | String d s' => Ascii.eqb d c || occurs c s'
  end.

(* ====================================================================== *)
(** ** The tree of the dendrogram view ([DendrogramVisualization]) *)
(* ====================================================================== *)

(** A node of the view, without the position it is drawn at. *)
Record TreeNode := {
  node_id : nat;
  children : option (list (option nat));
  node_distance : number
}.

(** The nodes built from the dendrogram: [n] leaves, then one node per
    record, numbered from [n] on. *)
Definition treeNodes (linkage : list ClusterNode) : list TreeNode :=
  let n := length linkage + 1 in
  let nodes :=
    (λ i, {| node_id := i; children := None; node_distance := Num 0 |})
    <$> seq 0 n in
  foldl (λ nodes '(idx, merge),
           let newId := n + idx in
           nodes ++ [{| node_id := newId;
                        children := Some [left merge; right merge];
                        node_distance := distance merge |}])
        nodes (imap (λ idx merge, (idx, merge)) linkage).

(** The links drawn: from every node numbered [n] or more to the nodes its
    children name; [nodes[childId]] is [undefined] when there is no such
    node. *)
Definition treeLinks (linkage : list ClusterNode)
    : list (TreeNode * option TreeNode) :=
  let n := length linkage + 1 in
  let nodes := treeNodes linkage in
  foldl (λ links i,
           match nodes !! i with
           | Some parent =>
               match children parent with
               | Some ids =>
                   foldl (λ links childId,
                            links ++ [(parent, childId ≫= (nodes !!.))])
                         links ids
               | None => links
               end
           | None => links
           end)
        [] (seq n (length nodes - n)).

(* ---------------------------------------------------------------------- *)
(** *** Accuracy in the words of its description *)

(** The documents of cluster [c] among the first [j], in their order. *)
Definition clusterMembers (predicted : list nat) (j c : nat) : list nat :=
  filter (λ i, predicted !! i = Some c) (seq 0 j).

(** The labels of these documents, in the order of their first
    appearance. *)
Definition clusterLabelsSeen (predicted : list nat) (actual : list string)
    (j c : nat) : list string :=
  new_Set (omap (λ i, actual !! i) (clusterMembers predicted j c)).

(** How many of these documents carry the label [l]. *)
Definition labelVotes (predicted : list nat) (actual : list string)
    (j c : nat) (l : string) : nat :=
  length (filter (λ i, actual !! i = Some l) (clusterMembers predicted j c)).

(** [d] is the dominant label of cluster [c]: the first, in the order of
    appearance, of the labels that most documents of the cluster carry. *)
Definition dominant_label (predicted : list nat) (actual : list string)
    (c : nat) (d : string) : Prop :=
  let n := length predicted in
  ∃ before after,
    clusterLabelsSeen predicted actual n c = before ++ d :: after
    ∧ (∀ l, l ∈ before →
         labelVotes predicted actual n c l < labelVotes predicted actual n c d)
    ∧ (∀ l, l ∈ after →
         labelVotes predicted actual n c l ≤ labelVotes predicted actual n c d).

(** The label counts of one cluster, as the counting loop holds them. *)
Definition countsSeen (predicted : list nat) (actual : list string)
    (j c : nat) : list (string * nat) :=
  (λ l, (l, labelVotes predicted actual j c l))
  <$> clusterLabelsSeen predicted actual j c.

(** The label counts after [j] documents: one entry per cluster met so
    far. *)
Definition counts_seen (predicted : list nat) (actual : list string) (j : nat)
    (m : list (nat * list (string * nat))) : Prop :=
  NoDup m.*1
  ∧ ∀ c, map_get m c
         = if decide (clusterMembers predicted j c = []) then None
           else Some (countsSeen predicted actual j c).


(* ====================================================================== *)
(** * Properties *)
(* ====================================================================== *)

(** ** The embedding on small inputs *)

Example split_ws_keeps_empty_ends : split_ws " a  b " = [""; "a"; "b"; ""].
Proof. reflexivity. Qed.

Example tokens_of_text : tokens " i love  this " = ["i"; "love"; "this"].
Proof. reflexivity. Qed.

Example toLowerCase_of_text : toLowerCase "I Love THIS" = "i love this".
Proof. reflexivity. Qed.

Example new_Set_first_seen : new_Set [3; 1; 3; 2; 1] = [3; 1; 2].
Proof. reflexivity. Qed.

Example levenshteinMatrix_small :
  levenshteinMatrix "ab" "b" = [[0; 1]; [1; 1]; [2; 1]].
Proof. reflexivity. Qed.

Example levenshtein_kitten_sitting :
  cell (levenshteinMatrix "kitten" "sitting") 6 7 = 3.
Proof. reflexivity. Qed.

Example array_set_grows : array_set NaN [Num 0] 2 PInf = [Num 0; NaN; PInf].
Proof. reflexivity. Qed.

Example slice_from_last_two : slice_from [1; 2; 3; 4] (-2) = [3; 4].
Proof. reflexivity. Qed.

Example slice_from_minus_zero : slice_from [1; 2; 3] (- (1 - 1)) = [1; 2; 3].
Proof. reflexivity. Qed.

Example documentPairs_three : documentPairs 3 = [(0, 1); (0, 2); (1, 2)].
Proof. reflexivity. Qed.

(** ** Numbers *)

Lemma ndiv_Num (x y : R) : y ≠ 0%R → ndiv (Num x) (Num y) = Num (x / y).
Proof. intros Hy. simpl. destruct (Req_dec_T y 0); [done|done]. Qed.

Lemma ndiv_zero_zero : ndiv (Num 0) (Num 0) = NaN.
Proof.
  simpl. destruct (Req_dec_T 0 0) as [_|Hn]; [|done].
  destruct (Rlt_dec 0 0) as [Hlt|_]; [lra|done].
Qed.

Lemma nsub_Num (x y : R) : nsub (Num x) (Num y) = Num (x - y).
Proof. reflexivity. Qed.

Lemma INR_pos_ne (n : nat) : n ≠ 0 → INR n ≠ 0%R.
Proof. intros Hn. apply not_0_INR. done. Qed.

Lemma ratio_Num (a b : nat) :
  b ≠ 0 → ndiv (nsub (ofNat b) (ofNat a)) (ofNat b) = Num ((INR b - INR a) / INR b).
Proof. intros Hb. unfold ofNat. rewrite nsub_Num, ndiv_Num; [done|by apply INR_pos_ne]. Qed.

(** ** [Set] as a list without repetition *)

Section JsSetFacts.
Context {A : Type} `{EqDecision A}.
Implicit Types (l acc : list A) (x : A).

Lemma set_add_NoDup acc x : NoDup acc → NoDup (set_add acc x).
Proof.
  intros Hnd. unfold set_add. case_decide as Hin; [done|].
  apply NoDup_app. split_and!; [done| |apply NoDup_singleton].
  intros y Hy Hy'. apply list_elem_of_singleton in Hy'. by subst.
Qed.

Lemma elem_of_set_add acc x y : y ∈ set_add acc x ↔ y ∈ acc ∨ y = x.
Proof.
  unfold set_add. case_decide as Hin.
  - split; [by left|]. intros [?| ->]; done.
  - rewrite elem_of_app, list_elem_of_singleton. done.
Qed.

Lemma foldl_set_add_NoDup l acc : NoDup acc → NoDup (foldl set_add acc l).
Proof.
  revert acc. induction l as [|x l IH]; intros acc Hnd; simpl; [done|].
  apply IH. by apply set_add_NoDup.
Qed.

Lemma elem_of_foldl_set_add l acc y :
  y ∈ foldl set_add acc l ↔ y ∈ acc ∨ y ∈ l.
Proof.
  revert acc. induction l as [|x l IH]; intros acc; simpl.
  - rewrite elem_of_nil. tauto.
  - rewrite IH, elem_of_set_add, elem_of_cons. tauto.
Qed.

Lemma new_Set_NoDup l : NoDup (new_Set l).
Proof. apply foldl_set_add_NoDup, NoDup_nil_2. Qed.

Lemma elem_of_new_Set l y : y ∈ new_Set l ↔ y ∈ l.
Proof.
  unfold new_Set. rewrite elem_of_foldl_set_add, elem_of_nil. tauto.
Qed.

(** A list without repetition is its own [Set]. *)
Lemma foldl_set_add_fresh l acc :
  NoDup (acc ++ l) → foldl set_add acc l = acc ++ l.
Proof.
  revert acc. induction l as [|x l IH]; intros acc Hnd; simpl.
  - by rewrite app_nil_r.
  - assert (x ∉ acc) as Hx.
    { apply NoDup_app in Hnd as (_ & Hd & _). intros Hin.
      apply (Hd x Hin). by left. }
    unfold set_add at 2. rewrite decide_False by done.
    rewrite IH; rewrite <- (assoc_L (++)); done.
Qed.

Lemma new_Set_id l : NoDup l → new_Set l = l.
Proof. intros Hnd. unfold new_Set. by rewrite foldl_set_add_fresh. Qed.

Lemma new_Set_length_le l : length (new_Set l) ≤ length l.
Proof.
  unfold new_Set.
  assert (∀ acc, length (foldl set_add acc l) ≤ length acc + length l) as Hg.
  { induction l as [|x l IH]; intros acc; simpl; [lia|].
    etrans; [apply IH|]. unfold set_add. case_decide; [lia|].
    rewrite length_app. simpl. lia. }
  apply (Hg []).
Qed.
End JsSetFacts.

Lemma new_Set_size `{Countable A} (l : list A) :
  length (new_Set l) = size (list_to_set (C := gset A) l).
Proof.
  rewrite <- (size_list_to_set (C := gset A) (new_Set l)) by apply new_Set_NoDup.
  f_equal. apply set_eq. intros x.
  rewrite !elem_of_list_to_set. apply elem_of_new_Set.
Qed.

Lemma union_size (l1 l2 : list string) :
  length (new_Set (new_Set l1 ++ new_Set l2))
  = size (list_to_set (C := gset string) l1 ∪ list_to_set l2).
Proof.
  rewrite new_Set_size. f_equal. apply set_eq. intros x.
  rewrite elem_of_union, !elem_of_list_to_set, elem_of_app, !elem_of_new_Set. done.
Qed.

Lemma intersection_size (l1 l2 : list string) :
  length (new_Set (filter (λ x, set_has (new_Set l2) x = true) (new_Set l1)))
  = size (list_to_set (C := gset string) l1 ∩ list_to_set l2).
Proof.
  rewrite new_Set_size. f_equal. apply set_eq. intros x.
  rewrite elem_of_intersection, !elem_of_list_to_set, list_elem_of_filter,
    !elem_of_new_Set.
  unfold set_has. rewrite bool_decide_eq_true, elem_of_new_Set. tauto.
Qed.

(** ** The metrics on token sets *)

Lemma defaultDistance_spec (t1 t2 : string) :
  defaultDistance t1 t2 = specDistance (tokenSet t1) (tokenSet t2).
Proof.
  unfold defaultDistance, specDistance, tokenSet.
  rewrite union_size, intersection_size.
  destruct (Nat.eqb_spec (size (list_to_set (C := gset string) (tokens t1)
                                ∪ list_to_set (tokens t2))) 0) as [Hz|Hz].
  - by rewrite decide_True.
  - rewrite decide_False by done. by apply ratio_Num.
Qed.

Lemma tweetDistance_sum (t1 t2 : string) :
  tweetDistance t1 t2
  = sumDistance (tokenSet (toLowerCase t1)) (tokenSet (toLowerCase t2)).
Proof.
  unfold tweetDistance, sumDistance, tokenSet.
  rewrite intersection_size, !new_Set_size.
  destruct (Nat.eqb_spec (size (list_to_set (C := gset string) (tokens (toLowerCase t1)))
                          + size (list_to_set (C := gset string) (tokens (toLowerCase t2)))) 0)
    as [Hz|Hz].
  - by rewrite decide_True.
  - rewrite decide_False by done. by apply ratio_Num.
Qed.

Lemma jaccardDistance_sets (t1 t2 : string) :
  jaccardDistance t1 t2
  = if decide (size (tokenSet t1 ∪ tokenSet t2) = 0) then Num 1
    else Num (1 - INR (size (tokenSet t1 ∩ tokenSet t2))
                  / INR (size (tokenSet t1 ∪ tokenSet t2))).
Proof.
  unfold jaccardDistance, tokenSet.
  rewrite union_size, intersection_size.
  destruct (Nat.eqb_spec (size (list_to_set (C := gset string) (tokens t1)
                                ∪ list_to_set (tokens t2))) 0) as [Hz|Hz].
  - by rewrite decide_True.
  - rewrite decide_False by done. unfold ofNat.
    rewrite ndiv_Num by (by apply INR_pos_ne). done.
Qed.

Lemma specDistance_comm (A B : gset string) : specDistance A B = specDistance B A.
Proof.
  unfold specDistance.
  by rewrite (comm_L (∪) A B), (comm_L (∩) A B).
Qed.

Lemma sumDistance_comm (A B : gset string) : sumDistance A B = sumDistance B A.
Proof.
  unfold sumDistance.
  by rewrite (comm_L (∩) A B), (Nat.add_comm (size A) (size B)).
Qed.

Lemma defaultDistance_sym (a b : string) : defaultDistance a b = defaultDistance b a.
Proof. rewrite !defaultDistance_spec. apply specDistance_comm. Qed.

Lemma tweetDistance_sym (a b : string) : tweetDistance a b = tweetDistance b a.
Proof. rewrite !tweetDistance_sum. apply sumDistance_comm. Qed.

Lemma jaccardDistance_sym (a b : string) : jaccardDistance a b = jaccardDistance b a.
Proof.
  rewrite !jaccardDistance_sets.
  by rewrite (comm_L (∪) (tokenSet a)), (comm_L (∩) (tokenSet a)).
Qed.

(** ** Cosine distance *)

Lemma nmul_comm (a b : number) : nmul a b = nmul b a.
Proof. destruct a, b; simpl; try done. by rewrite Rmult_comm. Qed.

Lemma reduce_squares (vec : list nat) (i acc : nat) :
  reduce_from (λ sum v _, sum + v * v) i acc vec
  = acc + sum_list_with (λ v, v * v) vec.
Proof.
  revert i acc. induction vec as [|v vec IH]; intros i acc; simpl; [lia|].
  rewrite IH. lia.
Qed.

Lemma reduce_dot (f g : string → nat) (pre suf : list string) (acc : nat) :
  reduce_from (λ sum v i, sum + v * ((g <$> (pre ++ suf)) !!! i))
              (length pre) acc (f <$> suf)
  = acc + sum_list_with (λ w, f w * g w) suf.
Proof.
  revert pre acc. induction suf as [|w suf IH]; intros pre acc; simpl; [lia|].
  replace (pre ++ w :: suf) with ((pre ++ [w]) ++ suf) by (by rewrite <- (assoc_L (++))).
  replace (S (length pre)) with (length (pre ++ [w])) by (rewrite length_app; simpl; lia).
  rewrite IH. rewrite <- (assoc_L (++)). simpl.
  rewrite (list_lookup_total_correct _ _ (g w)); [lia|].
  rewrite fmap_app. simpl.
  apply list_lookup_middle. by rewrite length_fmap.
Qed.

Lemma sum_squares_fmap (f : string → nat) (l : list string) :
  sum_list_with (λ v, v * v) (f <$> l) = sum_list_with (λ w, f w * f w) l.
Proof. induction l as [|w l IH]; csimpl; [done|]. by rewrite IH. Qed.

(** The three sums of [cosineDistance], over the vocabulary. *)
Lemma cosineDistance_sums (t1 t2 : string) :
  let vocabulary := new_Set (tokens t1 ++ tokens t2) in
  let mag1 := nsqrt (ofNat (sum_list_with (λ w, occurrences (tokens t1) w
                                                 * occurrences (tokens t1) w) vocabulary)) in
  let mag2 := nsqrt (ofNat (sum_list_with (λ w, occurrences (tokens t2) w
                                                 * occurrences (tokens t2) w) vocabulary)) in
  cosineDistance t1 t2
  = if neqb mag1 (Num 0) || neqb mag2 (Num 0) then Num 1
    else nsub (Num 1)
           (ndiv (ofNat (sum_list_with (λ w, occurrences (tokens t1) w
                                              * occurrences (tokens t2) w) vocabulary))
                 (nmul mag1 mag2)).
Proof.
  intros vocabulary mag1 mag2. unfold cosineDistance.
  fold vocabulary.
  rewrite !reduce_squares, !sum_squares_fmap, !Nat.add_0_l.
  fold mag1 mag2.
  pose proof (reduce_dot (occurrences (tokens t1)) (occurrences (tokens t2))
                [] vocabulary 0) as Hdot.
  simpl in Hdot. rewrite Hdot. done.
Qed.

Lemma vocabulary_perm (l1 l2 : list string) :
  new_Set (l1 ++ l2) ≡ₚ new_Set (l2 ++ l1).
Proof.
  apply NoDup_Permutation; [apply new_Set_NoDup ..|].
  intros x. rewrite !elem_of_new_Set, !elem_of_app. tauto.
Qed.

Lemma cosineDistance_sym (a b : string) : cosineDistance a b = cosineDistance b a.
Proof.
  rewrite !cosineDistance_sums. cbv zeta.
  assert (∀ f : string → nat,
            sum_list_with f (new_Set (tokens b ++ tokens a))
            = sum_list_with f (new_Set (tokens a ++ tokens b))) as Hperm.
  { intros f. by rewrite (vocabulary_perm (tokens b) (tokens a)). }
  rewrite !Hperm, orb_comm, nmul_comm.
  assert (∀ l : list string,
            sum_list_with (λ w, occurrences (tokens b) w * occurrences (tokens a) w) l
            = sum_list_with (λ w, occurrences (tokens a) w * occurrences (tokens b) w) l)
    as Hswap.
  { induction l as [|w l IH]; simpl; [done|]. rewrite IH. lia. }
  by rewrite Hswap.
Qed.

(** ** Levenshtein distance *)

Lemma editTable_S_S (s1 s2 : string) (i j : nat) :
  editTable s1 s2 (S i) (S j)
  = if decide (String.get i s1 = String.get j s2)
    then editTable s1 s2 i j
    else Nat.min (Nat.min (editTable s1 s2 i j + 1) (editTable s1 s2 (S i) j + 1))
                 (editTable s1 s2 i (S j) + 1).
Proof. reflexivity. Qed.

Lemma editTable_S_0 (s1 s2 : string) (i : nat) : editTable s1 s2 (S i) 0 = S i.
Proof. reflexivity. Qed.

Lemma editTable_sym (s1 s2 : string) (i j : nat) :
  editTable s1 s2 i j = editTable s2 s1 j i.
Proof.
  revert j. induction i as [|i IHi]; intros j.
  - destruct j; reflexivity.
  - induction j as [|j IHj]; [reflexivity|].
    rewrite !editTable_S_S, IHj, !IHi.
    destruct (decide (String.get i s1 = String.get j s2)) as [Heq|Hne].
    + rewrite decide_True by done. done.
    + rewrite decide_False by (intros Heq; by apply Hne). lia.
Qed.

(** A loop over [seq start n], with an invariant counting the turns. *)
Lemma foldl_seq_invariant {A} (P : nat → A → Prop) (f : A → nat → A)
    (start n : nat) (a : A) :
  P 0 a →
  (∀ c x, c < n → P c x → P (S c) (f x (start + c))) →
  P n (foldl f a (seq start n)).
Proof.
  intros H0 Hstep. induction n as [|n IH].
  - done.
  - rewrite seq_S, foldl_app. simpl. apply Hstep; [lia|].
    apply IH. intros c x Hc. apply Hstep. lia.
Qed.

Section LevenshteinMatrix.
Variables s1 s2 : string.
Local Abbreviation len1 := (String.length s1).
Local Abbreviation len2 := (String.length s2).
Local Abbreviation rows_filled := (rows_filled s1 s2).

Lemma cell_partial_row (m : list (list nat)) i j b :
  m !! i = Some (editTable s1 s2 i <$> seq 0 (S j)) → b ≤ j →
  cell m i b = editTable s1 s2 i b.
Proof.
  intros Hrow Hb. unfold cell. rewrite Hrow.
  change (default 0 ((editTable s1 s2 i <$> seq 0 (S j)) !! b) = editTable s1 s2 i b).
  rewrite list_lookup_fmap, lookup_seq_lt by lia. done.
Qed.

Lemma cell_full_row (m : list (list nat)) a b :
  m !! a = Some (editTable s1 s2 a <$> seq 0 (S len2)) → b ≤ len2 →
  cell m a b = editTable s1 s2 a b.
Proof. apply cell_partial_row. Qed.

Lemma rows_filled_append i j m v :
  rows_filled i j m → v = editTable s1 s2 i (S j) →
  rows_filled i (S j) (cell_set m i (S j) v).
Proof.
  intros (Habove & Hrow & Hbelow) ->. unfold cell_set. rewrite Hrow.
  split_and!.
  - intros a Ha. rewrite list_lookup_insert_ne by lia. by apply Habove.
  - rewrite list_lookup_insert_eq by (by eapply lookup_lt_Some).
    f_equal. unfold array_set.
    rewrite decide_False by (rewrite length_fmap, length_seq; lia).
    rewrite length_fmap, length_seq, Nat.sub_diag.
    rewrite (seq_S (S j) 0), fmap_app. done.
  - intros a Ha Ha'. rewrite list_lookup_insert_ne by lia. by apply Hbelow.
Qed.

Lemma rows_filled_next i m :
  rows_filled i len2 m → S i ≤ len1 → rows_filled (S i) 0 m.
Proof.
  intros (Habove & Hrow & Hbelow) Hi. split_and!.
  - intros a Ha. destruct (decide (a = i)) as [->|]; [done|].
    apply Habove. lia.
  - rewrite Hbelow by lia. done.
  - intros a Ha Ha'. apply Hbelow; lia.
Qed.

Lemma levenshteinCell_editTable i j m :
  rows_filled (S i) j m → j < len2 →
  levenshteinCell s1 s2 m (S i) (S j) = editTable s1 s2 (S i) (S j).
Proof.
  intros (Habove & Hrow & _) Hj. unfold levenshteinCell.
  rewrite editTable_S_S. simpl. rewrite !Nat.sub_0_r.
  rewrite !(cell_full_row m i) by (try apply Habove; lia).
  rewrite (cell_partial_row m (S i) j j) by done.
  done.
Qed.

Lemma levenshteinMatrix_filled : rows_filled len1 len2 (levenshteinMatrix s1 s2).
Proof.
  unfold levenshteinMatrix.
  set (m0 := (λ i, [i]) <$> seq 0 (S len1)).
  assert (rows_filled 0 0 m0) as H0.
  { unfold m0. split_and!.
    - intros a Ha. lia.
    - done.
    - intros a _ Ha. rewrite list_lookup_fmap, lookup_seq_lt by lia. done. }
  assert (rows_filled 0 len2
            (foldl (λ m j, cell_set m 0 j j) m0 (seq 0 (S len2)))) as Hfirst.
  { simpl.
    assert (cell_set m0 0 0 0 = m0) as -> by reflexivity.
    apply (foldl_seq_invariant (rows_filled 0)); [done|].
    intros c x Hc Hx. by apply rows_filled_append. }
  revert Hfirst.
  generalize (foldl (λ m j, cell_set m 0 j j) m0 (seq 0 (S len2))).
  intros m1 Hm1.
  apply (foldl_seq_invariant (λ c m, c ≤ len1 → rows_filled c len2 m));
    [done| |done].
  intros c x Hc Hx Hle. simpl.
  apply (foldl_seq_invariant (rows_filled (S c))).
  - apply rows_filled_next; [apply Hx; lia|lia].
  - intros j y Hj Hy. simpl. apply rows_filled_append; [done|].
    by apply levenshteinCell_editTable.
Qed.

Lemma levenshteinMatrix_corner :
  cell (levenshteinMatrix s1 s2) len1 len2 = editTable s1 s2 len1 len2.
Proof.
  destruct levenshteinMatrix_filled as (_ & Hrow & _).
  by apply (cell_partial_row _ len1 len2).
Qed.
End LevenshteinMatrix.

Lemma levenshteinDistance_editTable (s1 s2 : string) :
  levenshteinDistance s1 s2
  = if Nat.max (String.length s1) (String.length s2) =? 0 then Num 0
    else ndiv (ofNat (editTable s1 s2 (String.length s1) (String.length s2)))
              (ofNat (Nat.max (String.length s1) (String.length s2))).
Proof. unfold levenshteinDistance. by rewrite levenshteinMatrix_corner. Qed.

Lemma levenshteinDistance_sym (a b : string) :
  levenshteinDistance a b = levenshteinDistance b a.
Proof.
  rewrite !levenshteinDistance_editTable.
  by rewrite (editTable_sym a b), (Nat.max_comm (String.length a)).
Qed.

(** ** Arrays and the matrix of values *)

Lemma array_set_lookup_eq {A} (hole : A) (l : list A) (i : nat) (v : A) :
  array_set hole l i v !! i = Some v.
Proof.
  unfold array_set. case_decide as Hi.
  - by apply list_lookup_insert_eq.
  - rewrite lookup_app_r by lia.
    rewrite lookup_app_r by (rewrite length_replicate; lia).
    rewrite length_replicate. by rewrite Nat.sub_diag.
Qed.

Lemma array_set_lookup_ne {A} (hole : A) (l : list A) (i j : nat) (v : A) :
  i ≠ j → default hole (array_set hole l i v !! j) = default hole (l !! j).
Proof.
  intros Hne. unfold array_set. case_decide as Hi.
  - by rewrite list_lookup_insert_ne.
  - destruct (decide (j < length l)) as [Hj|Hj].
    + by rewrite lookup_app_l.
    + rewrite (lookup_ge_None_2 l j) by lia.
      rewrite lookup_app_r by lia.
      destruct (decide (j - length l < i - length l)) as [Hlt|Hge].
      * rewrite lookup_app_l by (by rewrite length_replicate).
        by rewrite lookup_replicate_2.
      * rewrite lookup_app_r by (rewrite length_replicate; lia).
        rewrite length_replicate.
        rewrite lookup_ge_None_2; [done|]. simpl. lia.
Qed.

Lemma matrix_write_length (m : list (list number)) i j v :
  length (matrix_write m i j v) = length m.
Proof. unfold matrix_write. destruct (m !! i); [by rewrite length_insert|done]. Qed.

Lemma matrix_read_write_eq (m : list (list number)) i j v :
  i < length m → matrix_read (matrix_write m i j v) i j = v.
Proof.
  intros Hi. unfold matrix_read, matrix_write.
  destruct (lookup_lt_is_Some_2 m i Hi) as [row Hrow]. rewrite Hrow.
  rewrite list_lookup_insert_eq by done.
  by rewrite array_set_lookup_eq.
Qed.

Lemma matrix_read_write_ne (m : list (list number)) i j a b v :
  (a, b) ≠ (i, j) → matrix_read (matrix_write m i j v) a b = matrix_read m a b.
Proof.
  intros Hne. unfold matrix_read, matrix_write.
  destruct (m !! i) as [row|] eqn:Hrow; [|done].
  destruct (decide (a = i)) as [->|Ha].
  - rewrite list_lookup_insert_eq by (by eapply lookup_lt_Some).
    rewrite Hrow. apply array_set_lookup_ne. congruence.
  - by rewrite list_lookup_insert_ne.
Qed.

(** ** The engine, whatever the matrix holds *)

Lemma filter_ne_notin (l : list nat) (j : nat) :
  j ∉ l → filter (λ c, c ≠ j) l = l.
Proof.
  induction l as [|x l IH]; intros Hj; [done|].
  apply not_elem_of_cons in Hj as [Hne Hj].
  rewrite filter_cons_True by done. by rewrite IH.
Qed.

Lemma filter_ne_length (l : list nat) (j : nat) :
  NoDup l → j ∈ l → S (length (filter (λ c, c ≠ j) l)) = length l.
Proof.
  induction l as [|x l IH]; intros Hnd Hin.
  - by apply elem_of_nil in Hin.
  - apply NoDup_cons in Hnd as [Hx Hnd].
    destruct (decide (x = j)) as [->|Hne].
    + rewrite filter_cons_False by (intros Hc; by apply Hc).
      simpl. f_equal. by rewrite filter_ne_notin.
    + rewrite filter_cons_True by done. simpl. f_equal. apply IH; [done|].
      apply elem_of_cons in Hin as [->|Hin]; done.
Qed.

Section EngineFacts.
Context {M : Type} `{MatrixStore M}.
Implicit Types (d : M) (st : Engine M) (best : Closest).

Lemma scanRow_minPair d ci best rest i j :
  minPair (scanRow d ci best rest) = Some (i, j) →
  minPair best = Some (i, j) ∨ (i = ci ∧ j ∈ rest).
Proof.
  unfold scanRow. revert best.
  induction rest as [|cj rest IH]; intros best Hres; simpl in *; [by left|].
  apply IH in Hres as [Hres|[-> Hin]].
  - destruct (nltb (mread d ci cj) (minDist best)); simpl in Hres.
    + right. inversion Hres; subst. split; [done|by left].
    + by left.
  - right. split; [done|by right].
Qed.

Lemma scanPairs_minPair d act best i j :
  minPair (scanPairs d act best) = Some (i, j) →
  minPair best = Some (i, j) ∨ ∃ l1 l2, act = l1 ++ i :: l2 ∧ j ∈ l2.
Proof.
  revert best. induction act as [|ci rest IH]; intros best Hres; simpl in *;
    [by left|].
  apply IH in Hres as [Hres|(l1 & l2 & -> & Hin)].
  - apply scanRow_minPair in Hres as [Hres|[-> Hin]]; [by left|].
    right. by exists [], rest.
  - right. by exists (ci :: l1), l2.
Qed.

Lemma findClosest_pair d act i j :
  NoDup act → minPair (findClosest d act) = Some (i, j) →
  i ∈ act ∧ j ∈ act ∧ i ≠ j.
Proof.
  intros Hnd Hres. apply scanPairs_minPair in Hres as [Hres|(l1 & l2 & -> & Hin)];
    [done|].
  apply NoDup_app in Hnd as (_ & _ & Hnd). apply NoDup_cons in Hnd as [Hi _].
  split_and!.
  - apply elem_of_app. right. by left.
  - apply elem_of_app. right. by right.
  - intros ->. done.
Qed.

Lemma initialEngine_wf n d : engine_wf n (initialEngine n d).
Proof.
  unfold engine_wf. simpl. split_and!.
  - apply NoDup_seq.
  - intros c Hc. apply elem_of_seq in Hc. lia.
  - rewrite length_seq. lia.
  - apply length_replicate.
  - intros node Hnode. by apply elem_of_nil in Hnode.
Qed.

Lemma mergeStep_wf n method st dist i j :
  engine_wf n st → i ∈ active st → j ∈ active st → i ≠ j →
  engine_wf n (mergeStep n method st dist i j).
Proof.
  intros (Hnd & Hlt & Hlen & Hsizes & Hnodes) Hi Hj Hne.
  unfold engine_wf, mergeStep. simpl. split_and!.
  - by apply NoDup_filter.
  - intros c Hc. apply list_elem_of_filter in Hc as [_ Hc]. by apply Hlt.
  - rewrite length_app. simpl.
    pose proof (filter_ne_length (active st) j Hnd Hj). lia.
  - by rewrite length_insert.
  - intros node Hnode. apply elem_of_app in Hnode as [Hnode|Hnode];
      [by apply Hnodes|].
    apply list_elem_of_singleton in Hnode as ->. simpl.
    exists i, j. split_and!; [done|done|by apply Hlt|by apply Hlt|done].
Qed.

Lemma clusterStep_inv n method st st' :
  clusterStep n method st = Some st' →
  1 < length (active st)
  ∧ ∃ i j, minPair (findClosest (distances st) (active st)) = Some (i, j)
           ∧ st' = mergeStep n method st
                     (minDist (findClosest (distances st) (active st))) i j.
Proof.
  unfold clusterStep. case_decide as Hlen; [|done].
  destruct (minPair (findClosest (distances st) (active st))) as [[i j]|] eqn:Hp;
    [|done].
  intros [= <-]. split; [done|]. by exists i, j.
Qed.

Lemma clusterStep_wf n method st st' :
  engine_wf n st → clusterStep n method st = Some st' → engine_wf n st'.
Proof.
  intros Hwf Hstep. apply clusterStep_inv in Hstep as (_ & i & j & Hp & ->).
  destruct (findClosest_pair _ _ i j (proj1 Hwf) Hp) as (Hi & Hj & Hne).
  by apply mergeStep_wf.
Qed.

Lemma clusterStep_active n method st st' :
  engine_wf n st → clusterStep n method st = Some st' →
  S (length (active st')) = length (active st).
Proof.
  intros Hwf Hstep. apply clusterStep_inv in Hstep as (_ & i & j & Hp & ->).
  destruct (findClosest_pair _ _ i j (proj1 Hwf) Hp) as (Hi & Hj & Hne).
  simpl. apply filter_ne_length; [apply Hwf|done].
Qed.

Lemma reachable_wf n method d st : reachable n method d st → engine_wf n st.
Proof.
  induction 1 as [|st st' _ IH Hstep]; [apply initialEngine_wf|].
  by eapply clusterStep_wf.
Qed.

(** The loop ends within as many turns as there are active clusters, in a
    state its condition or its [break] leaves. *)
Lemma clusterLoop_ends fuel n method d st :
  reachable n method d st → length (active st) ≤ S fuel →
  ∃ st', clusterLoop fuel n method st = Some st'
         ∧ reachable n method d st'
         ∧ clusterStep n method st' = None.
Proof.
  revert st. induction fuel as [|fuel IH]; intros st Hreach Hlen; simpl.
  - destruct (clusterStep n method st) as [st'|] eqn:Hstep; [|by exists st].
    apply clusterStep_inv in Hstep as (Hgt & _). lia.
  - destruct (clusterStep n method st) as [st'|] eqn:Hstep; [|by exists st].
    apply IH.
    + by eapply reachable_step.
    + pose proof (clusterStep_active n method st st' (reachable_wf _ _ _ _ Hreach) Hstep).
      lia.
Qed.

Lemma runClustering_ends n method d :
  ∃ st, runClustering n method d = Some st
        ∧ reachable n method d st
        ∧ clusterStep n method st = None.
Proof.
  apply clusterLoop_ends; [apply reachable_initial|].
  simpl. rewrite length_seq. lia.
Qed.
End EngineFacts.

(** ** The distance update on a matrix of values *)

Lemma linkageDistance_ext method (d d' : list (list number)) sizes i j k :
  mread d' i k = mread d i k → mread d' j k = mread d j k →
  mread d' i j = mread d i j →
  linkageDistance method d' sizes i j k = linkageDistance method d sizes i j k.
Proof. intros Hik Hjk Hij. unfold linkageDistance. by rewrite Hik, Hjk, Hij. Qed.

Lemma value_read_write_eq (d : list (list number)) i j v :
  i < length d → mread (mwrite d i j v) i j = v.
Proof. apply matrix_read_write_eq. Qed.

Lemma value_read_write_ne (d : list (list number)) i j a b v :
  (a, b) ≠ (i, j) → mread (mwrite d i j v) a b = mread d a b.
Proof. apply matrix_read_write_ne. Qed.

Lemma value_write_length (d : list (list number)) i j v :
  length (mwrite d i j v) = length d.
Proof. apply matrix_write_length. Qed.

(** After the loop over the active clusters, row and column [i] hold, at
    every cluster [k] of the loop but [i], the linkage distance computed from
    the matrix as it was before the loop; every other cell is as before. *)
Lemma updateDistances_read method sizes i j (d : list (list number)) act :
  NoDup act → j ∉ act → i ≠ j → i < length d → (∀ k, k ∈ act → k < length d) →
  length (updateDistances method sizes i j d act) = length d
  ∧ (∀ k, k ∈ act → k ≠ i →
       mread (updateDistances method sizes i j d act) i k
       = linkageDistance method d sizes i j k
       ∧ mread (updateDistances method sizes i j d act) k i
         = linkageDistance method d sizes i j k)
  ∧ (∀ a b, ¬ (a = i ∧ b ∈ act ∧ b ≠ i) → ¬ (b = i ∧ a ∈ act ∧ a ≠ i) →
       mread (updateDistances method sizes i j d act) a b = mread d a b).
Proof.
  intros Hnd Hj Hij Hi Hact. unfold updateDistances.
  induction act as [|k act IH] using rev_ind.
  - simpl. split_and!; [done| |done]. intros k Hk. by apply elem_of_nil in Hk.
  - apply NoDup_app in Hnd as (Hnd & Hk & _).
    assert (k ∉ act) as Hkact.
    { intros Hin. apply (Hk k Hin). by left. }
    assert (j ∉ act) as Hjact.
    { intros Hin. apply Hj, elem_of_app. by left. }
    assert (j ≠ k) as Hjk.
    { intros ->. apply Hj, elem_of_app. right. by left. }
    destruct IH as (Hlen & Hnew & Hold); [done|done| |].
    { intros c Hc. apply Hact, elem_of_app. by left. }
    rewrite foldl_app. simpl.
    set (d' := foldl _ d act) in *.
    destruct (decide (k = i)) as [->|Hki].
    + split_and!; [done| |].
      * intros c Hc Hci. apply elem_of_app in Hc as [Hc|Hc]; [by apply Hnew|].
        by apply list_elem_of_singleton in Hc.
      * intros a b Hab Hba. apply Hold.
        -- intros (-> & Hb & Hbi). apply Hab. split_and!; [done| |done].
           apply elem_of_app. by left.
        -- intros (-> & Ha & Hai). apply Hba. split_and!; [done| |done].
           apply elem_of_app. by left.
    + assert (linkageDistance method d' sizes i j k
              = linkageDistance method d sizes i j k) as Hdist.
      { apply linkageDistance_ext; apply Hold; intros (? & ? & ?); done. }
      rewrite Hdist. set (v := linkageDistance method d sizes i j k).
      assert (k < length d) as Hklt.
      { apply Hact, elem_of_app. right. by left. }
      split_and!.
      * by rewrite !value_write_length.
      * intros c Hc Hci. apply elem_of_app in Hc as [Hc|Hc].
        -- assert (c ≠ k) as Hck by (intros ->; done).
           rewrite !value_read_write_ne by congruence. by apply Hnew.
        -- apply list_elem_of_singleton in Hc as ->. split.
           ++ rewrite value_read_write_ne by congruence.
              apply value_read_write_eq. lia.
           ++ apply value_read_write_eq. rewrite value_write_length. lia.
      * intros a b Hab Hba.
        rewrite !value_read_write_ne.
        -- apply Hold.
           ++ intros (-> & Hb & Hbi). apply Hab. split_and!; [done| |done].
              apply elem_of_app. by left.
           ++ intros (-> & Ha & Hai). apply Hba. split_and!; [done| |done].
              apply elem_of_app. by left.
        -- intros [= -> ->]. apply Hab. split_and!; [done| |done].
           apply elem_of_app. right. by left.
        -- intros [= -> ->]. apply Hba. split_and!; [done| |done].
           apply elem_of_app. right. by left.
Qed.

Lemma nmul_square_assoc (a x : number) :
  nmul (nmul a x) x = nmul a (nsquare x).
Proof.
  unfold nsquare.
  destruct a as [s| | |], x as [r| | |]; simpl; try done.
  - by rewrite Rmult_assoc.
  - unfold inf_times.
    destruct (Rlt_dec 0 s), (Rlt_dec s 0); simpl; try done; lra.
  - unfold inf_times.
    destruct (Rlt_dec 0 s), (Rlt_dec s 0); simpl; try done; lra.
  - unfold inf_times.
    destruct (Rlt_dec 0 r) as [Hp|Hp], (Rlt_dec r 0) as [Hn|Hn]; simpl;
      unfold inf_times;
      destruct (Rlt_dec 0 (r * r)) as [Hp2|Hp2], (Rlt_dec (r * r) 0) as [Hn2|Hn2];
      try destruct (Rlt_dec 0 r); try destruct (Rlt_dec r 0);
      try done; try nra.
  - unfold inf_times.
    destruct (Rlt_dec 0 r) as [Hp|Hp], (Rlt_dec r 0) as [Hn|Hn]; simpl;
      unfold inf_times;
      destruct (Rlt_dec 0 (r * r)) as [Hp2|Hp2], (Rlt_dec (r * r) 0) as [Hn2|Hn2];
      try destruct (Rlt_dec 0 r); try destruct (Rlt_dec r 0);
      try done; try nra.
Qed.

Lemma linkageDistance_spec method (d : list (list number)) sizes i j k :
  linkageDistance method d sizes i j k
  = specLinkage method (mread d) (λ c, sizes !!! c) i j k.
Proof.
  destruct method; unfold linkageDistance, specLinkage; [done|done|].
  by rewrite !nmul_square_assoc.
Qed.

Section Preservation.
Context {M : Type} `{MatrixStore M}.
Variable P : M → Prop.
Hypothesis P_write : ∀ d i j v, P d → P (mwrite d i j v).

Lemma updateDistances_preserves method sizes i j d act :
  P d → P (updateDistances method sizes i j d act).
Proof.
  unfold updateDistances. revert d.
  induction act as [|k act IH]; intros d Hd; simpl; [done|].
  apply IH. case_decide; [done|]. by do 2 apply P_write.
Qed.

Lemma reachable_preserves n method d st :
  P d → reachable n method d st → P (distances st).
Proof.
  intros Hd. induction 1 as [|st st' _ IH Hstep]; [done|].
  apply clusterStep_inv in Hstep as (_ & i & j & _ & ->). simpl.
  by apply updateDistances_preserves.
Qed.
End Preservation.

Lemma reachable_rows method (d : list (list number)) st :
  reachable (length d) method d st → length (distances st) = length d.
Proof.
  apply (reachable_preserves (λ m : list (list number), length m = length d));
    [|done].
  intros m i j v Hm. by rewrite value_write_length.
Qed.

(** What one turn of the loop does to the variables, for any matrix. *)
Lemma clusterStep_update method (d0 : list (list number))
    (st st' : Engine (list (list number))) :
  reachable (length d0) method d0 st →
  clusterStep (length d0) method st = Some st' →
  ∃ i j,
    minPair (findClosest (distances st) (active st)) = Some (i, j)
    ∧ i ∈ active st ∧ j ∈ active st ∧ i ≠ j
    ∧ (∀ k, k ∈ active st → k ≠ i → k ≠ j →
         mread (distances st') i k
         = specLinkage method (mread (distances st))
             (λ c, clusterSizes st !!! c) i j k
         ∧ mread (distances st') k i
           = specLinkage method (mread (distances st))
               (λ c, clusterSizes st !!! c) i j k)
    ∧ (∀ a b, a ∈ active st' → b ∈ active st' → a ≠ i → b ≠ i →
         mread (distances st') a b = mread (distances st) a b)
    ∧ clusterSizes st' !!! i = clusterSizes st !!! i + clusterSizes st !!! j
    ∧ (∀ c, c ≠ i → clusterSizes st' !!! c = clusterSizes st !!! c)
    ∧ active st' = filter (λ c, c ≠ j) (active st)
    ∧ (j ∉ active st')
    ∧ clusters st'
      = clusters st
        ++ [{| left := Some i; right := Some j;
               distance := minDist (findClosest (distances st) (active st));
               count := clusterSizes st !!! i + clusterSizes st !!! j |}].
Proof.
  intros Hreach Hstep.
  pose proof (reachable_wf _ _ _ _ Hreach) as (Hnd & Hlt & _ & Hsizes & _).
  pose proof (reachable_rows _ _ _ Hreach) as Hrows.
  apply clusterStep_inv in Hstep as (_ & i & j & Hp & ->).
  destruct (findClosest_pair _ _ i j Hnd Hp) as (Hi & Hj & Hne).
  exists i, j. simpl.
  destruct (updateDistances_read method (clusterSizes st) i j (distances st)
              (filter (λ c, c ≠ j) (active st))) as (_ & Hnew & Hold).
  { by apply NoDup_filter. }
  { intros Hin. by apply list_elem_of_filter in Hin as [Hjj _]. }
  { done. }
  { rewrite Hrows. by apply Hlt. }
  { intros c Hc. apply list_elem_of_filter in Hc as [_ Hc]. rewrite Hrows.
    by apply Hlt. }
  split_and!; try done.
  - intros c Hc Hci Hcj. rewrite <- linkageDistance_spec. apply Hnew; [|done].
    by apply list_elem_of_filter.
  - intros a b _ _ Ha Hb. apply Hold; intros (? & _ & _); done.
  - apply list_lookup_total_insert_eq. rewrite Hsizes. by apply Hlt.
  - intros c Hc. by apply list_lookup_total_insert_ne.
  - intros Hin. by apply list_elem_of_filter in Hin as [Hjj _].
Qed.

(** ** The closest-pair search on non-negative reals *)

Lemma nltb_Num_true (x y : R) : (x < y)%R → nltb (Num x) (Num y) = true.
Proof. intros Hlt. simpl. by destruct (Rlt_dec x y). Qed.

Lemma nltb_Num_false (x y : R) : ¬ (x < y)%R → nltb (Num x) (Num y) = false.
Proof. intros Hge. simpl. by destruct (Rlt_dec x y). Qed.

Lemma scan_ok_weaken d (seen seen' : nat → nat → Prop) best :
  (∀ a b, seen' a b → seen a b) → scan_ok d seen best → scan_ok d seen' best.
Proof.
  intros Himp. unfold scan_ok. destruct (minPair best) as [[i j]|].
  - intros (r0 & Hmin & Hread & Hle). exists r0. split_and!; [done|done|].
    intros a b r Hs. apply Hle. by apply Himp.
  - intros [Hmin Hnone]. split; [done|]. intros a b Hs. by eapply Hnone, Himp.
Qed.

Lemma scanRow_ok (d : list (list number)) ci rest seen best :
  (∀ cj, cj ∈ rest → is_finite (mread d ci cj)) →
  scan_ok d seen best →
  scan_ok d (λ a b, seen a b ∨ (a = ci ∧ b ∈ rest)) (scanRow d ci best rest).
Proof.
  unfold scanRow. revert seen best.
  induction rest as [|cj rest IH]; intros seen best Hfin Hok; simpl.
  - eapply scan_ok_weaken; [|done]. intros a b [?|[_ Hin]]; [done|].
    by apply elem_of_nil in Hin.
  - eapply scan_ok_weaken; cycle 1.
    + apply (IH (λ a b, seen a b ∨ (a = ci ∧ b = cj))).
      { intros c Hc. apply Hfin. by right. }
      destruct (Hfin cj) as [r Hr]; [by left|].
      change (mread d ci cj) with (matrix_read d ci cj) in *. rewrite Hr.
      unfold scan_ok in Hok. destruct (minPair best) as [[i j]|] eqn:Hp.
      * destruct Hok as (r0 & Hmin & Hread & Hle). rewrite Hmin.
        destruct (Rlt_dec r r0) as [Hlt|Hlt];
          [rewrite nltb_Num_true by done|rewrite nltb_Num_false by done];
          unfold scan_ok; simpl.
        -- exists r. split_and!; [done|done|].
           intros a b r' [Hs|[-> ->]] Hr'.
           ++ specialize (Hle a b r' Hs Hr'). lra.
           ++ rewrite Hr in Hr'. inversion Hr'. lra.
        -- rewrite Hp. exists r0. split_and!; [done|done|].
           intros a b r' [Hs|[-> ->]] Hr'; [by eapply Hle|].
           rewrite Hr in Hr'. inversion Hr'. lra.
      * destruct Hok as [Hmin Hnone]. rewrite Hmin. simpl.
        unfold scan_ok. simpl. exists r. split_and!; [done|done|].
        intros a b r' [Hs|[-> ->]] Hr'; [by apply Hnone in Hs|].
        rewrite Hr in Hr'. inversion Hr'. lra.
    + simpl. intros a b [Hs|[-> Hin]]; [by left; left|].
      apply elem_of_cons in Hin as [->|Hin]; [left; by right|right; done].
Qed.

Lemma scanPairs_ok (d : list (list number)) act seen best :
  (∀ a b, ordered_in act a b → is_finite (mread d a b)) →
  scan_ok d seen best →
  scan_ok d (λ a b, seen a b ∨ ordered_in act a b) (scanPairs d act best).
Proof.
  revert seen best. induction act as [|ci rest IH]; intros seen best Hfin Hok; simpl.
  - eapply scan_ok_weaken; [|done]. intros a b [?|(l1 & l2 & Hnil & _)]; [done|].
    by destruct l1.
  - eapply scan_ok_weaken; cycle 1.
    + apply IH; cycle 1.
      * apply scanRow_ok; [|done]. intros cj Hcj. apply Hfin. by exists [], rest.
      * intros a b (l1 & l2 & -> & Hb). apply Hfin. by exists (ci :: l1), l2.
    + simpl. intros a b [Hs|(l1 & l2 & Heq & Hb)]; [by left; left|].
      destruct l1 as [|x l1]; simpl in Heq; inversion Heq; subst.
      * left. right. done.
      * right. by exists l1, l2.
Qed.

Lemma ordered_in_total (act : list nat) (a b : nat) :
  a ∈ act → b ∈ act → a ≠ b → ordered_in act a b ∨ ordered_in act b a.
Proof.
  intros Ha Hb Hne. apply list_elem_of_split in Ha as (l1 & l2 & ->).
  apply elem_of_app in Hb as [Hb|Hb].
  - right. apply list_elem_of_split in Hb as (k1 & k2 & ->).
    exists k1, (k2 ++ a :: l2). split; [by rewrite <- (assoc_L (++))|].
    apply elem_of_app. right. by left.
  - left. exists l1, l2. split; [done|].
    apply elem_of_cons in Hb as [->|Hb]; done.
Qed.

Lemma ordered_in_elem (act : list nat) (a b : nat) :
  ordered_in act a b → a ∈ act ∧ b ∈ act.
Proof.
  intros (l1 & l2 & -> & Hb). split; apply elem_of_app; right; [by left|by right].
Qed.

(** With at least two active clusters and real distances between them, the
    search finds a pair, and no pair of active clusters is closer. *)
Lemma findClosest_min (d : list (list number)) act :
  NoDup act → 2 ≤ length act →
  (∀ a b, a ∈ act → b ∈ act → a ≠ b →
     ∃ r, (0 <= r)%R ∧ matrix_read d a b = Num r ∧ matrix_read d b a = Num r) →
  ∃ i j r0,
    minPair (findClosest d act) = Some (i, j)
    ∧ minDist (findClosest d act) = Num r0
    ∧ matrix_read d i j = Num r0
    ∧ ∀ a b r, a ∈ act → b ∈ act → a ≠ b → matrix_read d a b = Num r → (r0 <= r)%R.
Proof.
  intros Hnd Hlen Hfin.
  assert (∀ a b, ordered_in act a b → a ≠ b) as Hdiff.
  { intros a b (l1 & l2 & -> & Hb) ->.
    apply NoDup_app in Hnd as (_ & _ & Hnd). by apply NoDup_cons in Hnd as [? _]. }
  assert (scan_ok d (λ a b, False ∨ ordered_in act a b) (findClosest d act)) as Hscan.
  { apply scanPairs_ok.
    - intros a b Hab. destruct (ordered_in_elem _ _ _ Hab) as [Ha Hb].
      destruct (Hfin a b Ha Hb (Hdiff _ _ Hab)) as (r & _ & Hr & _). by exists r.
    - unfold scan_ok. simpl. split; [done|]. intros a b []. }
  unfold scan_ok in Hscan.
  destruct (minPair (findClosest d act)) as [[i j]|].
  - destruct Hscan as (r0 & Hmin & Hread & Hle). exists i, j, r0.
    split_and!; [done|done|done|].
    intros a b r Ha Hb Hne Hr.
    destruct (ordered_in_total act a b Ha Hb Hne) as [Hab|Hba].
    + apply (Hle a b); [by right|done].
    + destruct (Hfin a b Ha Hb Hne) as (r' & _ & Hr1 & Hr2).
      rewrite Hr in Hr1. inversion Hr1; subst r'.
      apply (Hle b a); [by right|done].
  - destruct Hscan as [_ Hnone]. destruct act as [|x [|y act]]; simpl in Hlen; try lia.
    exfalso. apply (Hnone x y). right. exists [], (y :: act). split; [done|by left].
Qed.

(** ** The update rules on non-negative reals *)

Lemma INR_ge_1 (n : nat) : 1 ≤ n → (1 <= INR n)%R.
Proof. intros Hn. replace 1%R with (INR 1) by done. by apply le_INR. Qed.

Lemma specLinkage_real method (d : nat → nat → number) (size : nat → nat)
    (i j k : nat) (x y z : R) :
  d i k = Num x → d j k = Num y → d i j = Num z →
  (0 <= z)%R → (z <= x)%R → (z <= y)%R →
  1 ≤ size i → 1 ≤ size j → 1 ≤ size k →
  ∃ r, (0 <= r)%R ∧ specLinkage method d size i j k = Num r.
Proof.
  intros Hx Hy Hz Hz0 Hzx Hzy Hi Hj Hk.
  apply INR_ge_1 in Hi, Hj, Hk.
  unfold specLinkage. rewrite Hx, Hy, Hz. destruct method.
  - unfold ofNat. cbn [nmul nadd]. rewrite plus_INR.
    rewrite ndiv_Num by lra. eexists. split; [|done].
    apply Rmult_le_pos; [nra|].
    apply Rlt_le, Rinv_0_lt_compat. lra.
  - cbn [nmax]. eexists. split; [|done].
    apply Rle_trans with x; [lra|apply Rmax_l].
  - unfold ofNat, nsquare, nsub. cbn [nmul nadd nneg].
    rewrite !plus_INR. rewrite ndiv_Num by lra.
    set (q := ((_ + _ + - _) / _)%R).
    assert (0 <= q)%R as Hq.
    { unfold q. apply Rmult_le_pos; [|apply Rlt_le, Rinv_0_lt_compat; lra].
      assert (z * z <= x * x)%R by nra.
      assert (0 <= y * y)%R by nra.
      nra. }
    unfold nsqrt. destruct (Rlt_dec q 0) as [Hneg|_]; [lra|].
    eexists. split; [|done]. by apply sqrt_pos.
Qed.

(** ** Termination on a distance matrix *)

Lemma initial_distances_ok (dm : list (list number)) :
  distance_matrix dm → distances_ok (initialEngine (length dm) dm).
Proof.
  intros [_ Hreal]. split; simpl.
  - intros c Hc. apply elem_of_seq in Hc.
    rewrite lookup_total_replicate_2 by lia. done.
  - intros a b Ha Hb _. apply elem_of_seq in Ha, Hb. apply Hreal; lia.
Qed.

Lemma clusterStep_distances_ok method (d0 : list (list number)) st st' :
  reachable (length d0) method d0 st → distances_ok st →
  clusterStep (length d0) method st = Some st' → distances_ok st'.
Proof.
  intros Hreach [Hsize Hreal] Hstep.
  pose proof (reachable_wf _ _ _ _ Hreach) as (Hnd & _).
  pose proof (clusterStep_inv _ _ _ _ Hstep) as (Hlen & _).
  destruct (clusterStep_update _ _ _ _ Hreach Hstep)
    as (i & j & Hp & Hi & Hj & Hij & Hnew & Hold & Hsi & Hsc & Hact & Hjact & _).
  destruct (findClosest_min (distances st) (active st) Hnd Hlen Hreal)
    as (i' & j' & r0 & Hp' & _ & Hr0 & Hmin).
  rewrite Hp in Hp'. inversion Hp'; subst i' j'. clear Hp'.
  assert (0 <= r0)%R as Hr0pos.
  { destruct (Hreal i j Hi Hj Hij) as (r & Hr & Hread & _).
    rewrite Hr0 in Hread. inversion Hread. lra. }
  assert (∀ c, c ∈ active st' → c ∈ active st ∧ c ≠ j) as Hin.
  { intros c Hc. rewrite Hact in Hc. apply list_elem_of_filter in Hc. tauto. }
  assert (∀ c, c ∈ active st → c ≠ i → c ≠ j →
            ∃ r, (0 <= r)%R
                 ∧ specLinkage method (mread (distances st))
                     (λ c, clusterSizes st !!! c) i j c = Num r) as Hlink.
  { intros c Hc Hci Hcj.
    destruct (Hreal i c Hi Hc) as (x & _ & Hx & _); [done|].
    destruct (Hreal j c Hj Hc) as (y & _ & Hy & _); [done|].
    apply (specLinkage_real method _ _ i j c x y r0); try done.
    - by apply (Hmin i c).
    - by apply (Hmin j c).
    - by apply Hsize.
    - by apply Hsize.
    - by apply Hsize. }
  split.
  - intros c Hc. destruct (Hin c Hc) as [Hc' Hcj].
    destruct (decide (c = i)) as [->|Hci].
    + rewrite Hsi. specialize (Hsize i Hi). lia.
    + rewrite Hsc by done. by apply Hsize.
  - intros a b Ha Hb Hab.
    destruct (Hin a Ha) as [Ha' Haj], (Hin b Hb) as [Hb' Hbj].
    destruct (decide (a = i)) as [->|Hai]; [|destruct (decide (b = i)) as [->|Hbi]].
    + destruct (Hlink b) as (r & Hr & Hspec); try done.
      destruct (Hnew b) as [H1 H2]; try done.
      exists r. change matrix_read with (@mread (list (list number)) _).
      by rewrite H1, H2.
    + destruct (Hlink a) as (r & Hr & Hspec); try done.
      destruct (Hnew a) as [H1 H2]; try done.
      exists r. change matrix_read with (@mread (list (list number)) _).
      by rewrite H1, H2.
    + change matrix_read with (@mread (list (list number)) _).
      rewrite !Hold by done. by apply Hreal.
Qed.

Lemma reachable_distances_ok method (dm : list (list number)) st :
  distance_matrix dm → reachable (length dm) method dm st → distances_ok st.
Proof.
  intros Hdm. induction 1 as [|st st' Hreach IH Hstep].
  - by apply initial_distances_ok.
  - by eapply clusterStep_distances_ok.
Qed.

Lemma reachable_active_pos {M} `{MatrixStore M} n method (d : M) st :
  reachable n method d st → 1 ≤ n → 1 ≤ length (active st).
Proof.
  intros Hreach Hn. induction Hreach as [|st st' Hreach IH Hstep].
  - simpl. by rewrite length_seq.
  - pose proof (clusterStep_active _ _ _ _ (reachable_wf _ _ _ _ Hreach) Hstep).
    apply clusterStep_inv in Hstep as [Hgt _]. lia.
Qed.

Lemma clusterLoop_left {M} `{MatrixStore M} fuel n method (st : Engine M) :
  clusterStep n method st = None → clusterLoop fuel n method st = Some st.
Proof. intros Hstep. destruct fuel; simpl; by rewrite Hstep. Qed.

Lemma runClustering_few {M} `{MatrixStore M} n method (d : M) :
  n < 2 → runClustering n method d = Some (initialEngine n d).
Proof.
  intros Hn. apply clusterLoop_left.
  unfold clusterStep. simpl. rewrite length_seq. by rewrite decide_False by lia.
Qed.

Lemma threeByThree_distance_matrix : distance_matrix threeByThree.
Proof.
  split.
  - intros row Hrow. unfold threeByThree in Hrow.
    repeat (apply elem_of_cons in Hrow as [->|Hrow]; [done|]).
    by apply elem_of_nil in Hrow.
  - intros i j Hi Hj. simpl in Hi, Hj.
    destruct i as [|[|[|i]]]; try lia;
      destruct j as [|[|[|j]]]; try lia;
      eexists; (split_and!; [|reflexivity|reflexivity]); lra.
Qed.

(** ** The loop on binary64 numbers *)





















(** On the matrix of the scenario the loop runs to one cluster, as in exact
    arithmetic. *)
Lemma hierarchicalClustering_binary64_scenario :
  ∃ first second,
    Binary64.hierarchicalClustering Binary64.nearBy average = Some [first; second]
    ∧ Binary64.distance first = 0.5%float
    ∧ Binary64.distance second = 2.5%float.
Proof. eexists _, _. split; [vm_compute; reflexivity|]. by split. Qed.

(** ** Running the code on sample inputs *)

(** Decide the comparisons of reals and of indices the evaluation stops at. *)
Ltac real_case :=
  match goal with
  | |- context [Rlt_dec ?x ?y] =>
      destruct (Rlt_dec x y);
      [try (exfalso; cbn [INR] in *; lra)|try (exfalso; cbn [INR] in *; lra)]
  | |- context [Req_dec_T ?x ?y] =>
      destruct (Req_dec_T x y);
      [try (exfalso; cbn [INR] in *; lra)|try (exfalso; cbn [INR] in *; lra)]
  end.

(** Evaluate everything but the arithmetic of the reals. *)
Ltac js_compute :=
  cbv -[Rlt_dec Req_dec_T Rplus Rmult Rminus Rdiv Rinv Ropp IZR INR sqrt Rmax].

Ltac js_eval := js_compute; repeat (real_case; js_compute).

(** Two results that differ in how their reals are written. *)
Ltac same_records :=
  repeat match goal with
    | |- Num _ = Num _ => f_equal; cbn [INR]; lra
    | |- Some _ = Some _ => f_equal
    | |- _ :: _ = _ :: _ => f_equal
    | |- Build_ClusterNode _ _ _ _ = Build_ClusterNode _ _ _ _ => f_equal
    end;
  try reflexivity.

Lemma tweetDistance_counts (t1 t2 : string) (total common : nat) :
  length (new_Set (tokens (toLowerCase t1)))
  + length (new_Set (tokens (toLowerCase t2))) = total →
  length (new_Set (filter (λ w, set_has (new_Set (tokens (toLowerCase t2))) w = true)
                          (new_Set (tokens (toLowerCase t1))))) = common →
  total ≠ 0 →
  tweetDistance t1 t2 = Num ((INR total - INR common) / INR total).
Proof.
  intros Ht Hc Hz. unfold tweetDistance. rewrite Ht, Hc.
  destruct (Nat.eqb_spec total 0); [done|]. by apply ratio_Num.
Qed.

Lemma tweetDistance_love_love :
  tweetDistance "i love this" "i love this" = Num (1 / 2).
Proof.
  rewrite (tweetDistance_counts _ _ 6 3); [|reflexivity|reflexivity|lia].
  f_equal. simpl. lra.
Qed.

Lemma tweetDistance_love_hate :
  tweetDistance "i love this" "i hate this" = Num (2 / 3).
Proof.
  rewrite (tweetDistance_counts _ _ 6 2); [|reflexivity|reflexivity|lia].
  f_equal. simpl. lra.
Qed.

Lemma createDistanceMatrix_scenario :
  createDistanceMatrix scenarioDocuments = scenarioMatrix.
Proof.
  unfold createDistanceMatrix, scenarioDocuments.
  cbn -[tweetDistance].
  rewrite tweetDistance_love_love, tweetDistance_love_hate.
  reflexivity.
Qed.

Lemma hierarchicalClustering_scenario :
  hierarchicalClustering scenarioMatrix average = Some scenarioDendrogram.
Proof.
  js_eval. same_records.
Qed.

Lemma hierarchicalClustering_three :
  hierarchicalClustering threeByThree average = Some threeDendrogram.
Proof. js_eval. same_records. Qed.

Lemma hierarchicalClustering_four :
  hierarchicalClustering fourByFour average = Some fourDendrogram.
Proof. js_eval. same_records. Qed.

Lemma formClusters_scenario : formClusters scenarioDendrogram 2 3 = [0; 1; 0].
Proof. reflexivity. Qed.

Lemma formClusters_four : formClusters fourDendrogram 2 4 = [0; 1; 0; 2].
Proof. reflexivity. Qed.

Lemma calculateAccuracy_scenario :
  calculateAccuracy [0; 1; 0] scenarioLabels = Num (2 / 3).
Proof. js_eval. same_records. Qed.



(** Symmetry matters to the ward rule: on [lopsided] the pair found first is
    (1, 2), at distance 1, while both are at distance 0 from cluster 0 in the
    other direction; the radicand is negative, the new distance is NaN, no
    pair compares below [Infinity] any more and the loop is left after one
    merge. *)
Lemma ward_lopsided_one_merge :
  hierarchicalClustering lopsided ward
  = Some [{| left := Some 1; right := Some 2; distance := Num 1; count := 2 |}].
Proof. js_eval. reflexivity. Qed.

(** ** The caller's arrays *)

Lemma shared_write_apart store (s : Shared) i j v :
  apart store s → apart store (mwrite s i j v).
Proof.
  intros [Hsub Hout]. simpl. unfold shared_write.
  destruct (outer s !! i) as [l|] eqn:Hl; [|done].
  split; simpl; [|done].
  apply map_subseteq_spec. intros l' row Hrow.
  assert (l ≠ l') as Hne.
  { intros <-. rewrite Hout in Hrow; [done|]. by eapply list_elem_of_lookup_2. }
  rewrite lookup_alter_ne by done.
  by eapply lookup_weaken.
Qed.

Lemma copyMatrix_apart store (distanceMatrix : list loc) :
  apart store (copyMatrix store distanceMatrix).
Proof.
  unfold copyMatrix.
  assert (apart store {| rows := store; outer := [] |}) as Hinit.
  { split; simpl; [done|]. intros l Hl. by apply elem_of_nil in Hl. }
  revert Hinit. generalize ({| rows := store; outer := [] |}).
  induction distanceMatrix as [|l dm IH]; intros s Hs; simpl; [done|].
  apply IH. destruct Hs as [Hsub Hout].
  pose proof (is_fresh (dom (rows s))) as Hfresh.
  apply not_elem_of_dom in Hfresh.
  assert (store !! fresh (dom (rows s)) = None) as Hnone.
  { destruct (store !! fresh (dom (rows s))) as [row|] eqn:Hrow; [|done].
    apply (lookup_weaken _ _ _ _ Hrow) in Hsub. congruence. }
  split; simpl.
  - by apply insert_subseteq_r.
  - intros l' Hl'. apply elem_of_app in Hl' as [Hl'|Hl']; [by apply Hout|].
    by apply list_elem_of_singleton in Hl' as ->.
Qed.

Lemma copyMatrix_length store (distanceMatrix : list loc) :
  length (outer (copyMatrix store distanceMatrix)) = length distanceMatrix.
Proof.
  unfold copyMatrix.
  assert (∀ s, length (outer (foldl
            (λ s l, let l' := fresh (dom (rows s)) in
                    {| rows := <[l' := default [] (store !! l)]> (rows s);
                       outer := outer s ++ [l'] |}) s distanceMatrix))
               = length (outer s) + length distanceMatrix) as Hgen.
  { induction distanceMatrix as [|l dm IH]; intros s; simpl; [lia|].
    rewrite IH. simpl. rewrite length_app. simpl. lia. }
  by rewrite Hgen.
Qed.

(** *** The engine does the same on copies and on values *)

Section Simulation.
Context {M1 M2 : Type} `{MatrixStore M1} `{MatrixStore M2}.
Variable R : M1 → M2 → Prop.
Hypothesis R_read : ∀ d1 d2 i j, R d1 d2 → mread d1 i j = mread d2 i j.
Hypothesis R_write :
  ∀ d1 d2 i j v, R d1 d2 → R (mwrite d1 i j v) (mwrite d2 i j v).

Lemma scanRow_same d1 d2 ci best rest :
  R d1 d2 → scanRow d1 ci best rest = scanRow d2 ci best rest.
Proof.
  intros HR. unfold scanRow. revert best.
  induction rest as [|cj rest IH]; intros best; simpl; [done|].
  by rewrite (R_read d1 d2), IH.
Qed.

Lemma scanPairs_same d1 d2 act best :
  R d1 d2 → scanPairs d1 act best = scanPairs d2 act best.
Proof.
  intros HR. revert best. induction act as [|ci rest IH]; intros best; simpl;
    [done|].
  by rewrite (scanRow_same d1 d2), IH.
Qed.

Lemma linkageDistance_same method d1 d2 sizes i j k :
  R d1 d2 →
  linkageDistance method d1 sizes i j k = linkageDistance method d2 sizes i j k.
Proof. intros HR. unfold linkageDistance. by rewrite !(R_read d1 d2). Qed.

Lemma updateDistances_same method sizes i j d1 d2 act :
  R d1 d2 →
  R (updateDistances method sizes i j d1 act)
    (updateDistances method sizes i j d2 act).
Proof.
  unfold updateDistances. revert d1 d2.
  induction act as [|k act IH]; intros d1 d2 HR; simpl; [done|].
  apply IH. case_decide; [done|].
  rewrite (linkageDistance_same method d1 d2) by done.
  by do 2 apply R_write.
Qed.

Lemma clusterStep_same n method st1 st2 :
  same_run R st1 st2 →
  match clusterStep n method st1, clusterStep n method st2 with
  | Some st1', Some st2' => same_run R st1' st2'
  | None, None => True
  | _, _ => False
  end.
Proof.
  intros (Hact & Hsizes & Hclusters & HR). unfold clusterStep, findClosest.
  rewrite <- Hact, (scanPairs_same (distances st1) (distances st2)) by done.
  case_decide; [|done].
  destruct (minPair _) as [[i j]|]; [|done].
  unfold same_run, mergeStep. simpl.
  rewrite <- Hsizes, <- Hclusters, <- Hact.
  split_and!; [done|done|done|]. by apply updateDistances_same.
Qed.

Lemma clusterLoop_same fuel n method st1 st2 :
  same_run R st1 st2 →
  match clusterLoop fuel n method st1, clusterLoop fuel n method st2 with
  | Some st1', Some st2' => same_run R st1' st2'
  | None, None => True
  | _, _ => False
  end.
Proof.
  revert st1 st2. induction fuel as [|fuel IH]; intros st1 st2 Hsame; simpl;
    pose proof (clusterStep_same n method st1 st2 Hsame) as Hstep;
    destruct (clusterStep n method st1), (clusterStep n method st2);
    try done.
  by apply IH.
Qed.
End Simulation.

Lemma holds_rows_read (s : Shared) (m : list (list number)) i j :
  holds_rows s m → mread s i j = mread m i j.
Proof.
  intros (_ & Hlen & Hrows). simpl. unfold shared_read, matrix_read.
  destruct (outer s !! i) as [l|] eqn:Hl.
  - rewrite (Hrows i l Hl). by destruct (m !! i).
  - apply lookup_ge_None_1 in Hl. rewrite lookup_ge_None_2 by lia. done.
Qed.

Lemma holds_rows_write (s : Shared) (m : list (list number)) i j v :
  holds_rows s m → holds_rows (mwrite s i j v) (mwrite m i j v).
Proof.
  intros (Hnd & Hlen & Hrows). simpl. unfold shared_write, matrix_write.
  destruct (outer s !! i) as [l|] eqn:Hl.
  - pose proof (Hrows i l Hl) as Hrow.
    destruct (m !! i) as [row|] eqn:Hm.
    + split_and!; simpl; [done|by rewrite length_insert|].
      intros i' l' Hl'. destruct (decide (i' = i)) as [->|Hne].
      * assert (l' = l) as -> by congruence.
        rewrite lookup_alter_eq, Hrow. simpl.
        rewrite list_lookup_insert_eq by (by eapply lookup_lt_Some). done.
      * rewrite list_lookup_insert_ne by done.
        rewrite lookup_alter_ne; [by apply Hrows|].
        intros <-. apply Hne. by eapply NoDup_lookup.
    + apply lookup_lt_Some in Hl. apply lookup_ge_None_1 in Hm. lia.
  - apply lookup_ge_None_1 in Hl. rewrite lookup_ge_None_2 by lia. done.
Qed.

Lemma copyMatrix_holds_rows store (distanceMatrix : list loc) :
  holds_rows (copyMatrix store distanceMatrix) (matrixOf store distanceMatrix).
Proof.
  unfold copyMatrix, matrixOf.
  assert (∀ s m, holds_rows s m → (∀ l, l ∈ outer s → is_Some (rows s !! l)) →
            holds_rows
              (foldl (λ s l, let l' := fresh (dom (rows s)) in
                             {| rows := <[l' := default [] (store !! l)]> (rows s);
                                outer := outer s ++ [l'] |}) s distanceMatrix)
              (m ++ ((λ l, default [] (store !! l)) <$> distanceMatrix))) as Hgen.
  { induction distanceMatrix as [|l dm IH]; intros s m Hs Hdom.
    - simpl. by rewrite app_nil_r.
    - rewrite fmap_cons, cons_middle, (assoc_L (++)). cbn [foldl]. apply IH.
      + destruct Hs as (Hnd & Hlen & Hrows).
        pose proof (is_fresh (dom (rows s))) as Hfresh.
        apply not_elem_of_dom in Hfresh.
        assert (fresh (dom (rows s)) ∉ outer s) as Hnew.
        { intros Hin. apply Hdom in Hin as [row Hrow]. congruence. }
        split_and!; simpl.
        * apply NoDup_app. split_and!; [done| |apply NoDup_singleton].
          intros x Hx Hx'. apply list_elem_of_singleton in Hx' as ->. done.
        * rewrite !length_app. simpl. lia.
        * intros i l' Hl'. apply lookup_app_Some in Hl' as [Hl'|[Hi Hl']].
          -- rewrite lookup_insert_ne.
             ++ rewrite lookup_app_l by (rewrite <- Hlen; by eapply lookup_lt_Some).
                by apply Hrows.
             ++ intros <-. apply Hnew. by eapply list_elem_of_lookup_2.
          -- apply list_lookup_singleton_Some in Hl' as [Hi' <-].
             rewrite lookup_insert_eq.
             rewrite lookup_app_r by lia.
             replace (i - length m) with 0 by lia. done.
      + simpl. intros l' Hl'. apply elem_of_app in Hl' as [Hl'|Hl'].
        * destruct (Hdom l' Hl') as [row Hrow].
          rewrite lookup_insert_ne; [by exists row|].
          intros <-. pose proof (is_fresh (dom (rows s))) as Hfresh.
          apply not_elem_of_dom in Hfresh. congruence.
        * apply list_elem_of_singleton in Hl' as ->.
          rewrite lookup_insert_eq. by eexists. }
  apply (Hgen {| rows := store; outer := [] |} []).
  - split_and!; simpl; [apply NoDup_nil_2|done|]. intros i l Hl. done.
  - simpl. intros l Hl. by apply elem_of_nil in Hl.
Qed.

Lemma matrixOf_length store (distanceMatrix : list loc) :
  length (matrixOf store distanceMatrix) = length distanceMatrix.
Proof. unfold matrixOf. by rewrite length_fmap. Qed.

(** On the caller's arrays the engine returns the dendrogram it returns on
    their values. *)
Lemma hierarchicalClusteringShared_values store (distanceMatrix : list loc) method :
  fst <$> hierarchicalClusteringShared store distanceMatrix method
  = hierarchicalClustering (matrixOf store distanceMatrix) method.
Proof.
  unfold hierarchicalClusteringShared, hierarchicalClustering, runClustering.
  rewrite matrixOf_length.
  pose proof (clusterLoop_same holds_rows holds_rows_read holds_rows_write
                (length distanceMatrix) (length distanceMatrix) method
                (initialEngine (length distanceMatrix) (copyMatrix store distanceMatrix))
                (initialEngine (length distanceMatrix) (matrixOf store distanceMatrix)))
    as Hsame.
  destruct (clusterLoop _ _ _ (initialEngine _ (copyMatrix _ _))) as [st1|],
    (clusterLoop _ _ _ (initialEngine _ (matrixOf _ _))) as [st2|]; simpl.
  - destruct Hsame as (_ & _ & Hc & _); [|by rewrite Hc].
    split_and!; [done|done|done|]. apply copyMatrix_holds_rows.
  - exfalso. apply Hsame. split_and!; [done|done|done|]. apply copyMatrix_holds_rows.
  - exfalso. apply Hsame. split_and!; [done|done|done|]. apply copyMatrix_holds_rows.
  - done.
Qed.

(** C9.  [hierarchicalClustering] returns, and every array that was in the
    store when it was called, so every row of the caller's matrix, holds
    after the call what it held before: the engine writes into the copies
    it made. *)
Theorem hierarchicalClustering_keeps_caller_matrix
    (store : gmap loc (list number)) (distanceMatrix : list loc)
    (method : LinkageMethod) :
  ∃ dendrogram store',
    hierarchicalClusteringShared store distanceMatrix method
    = Some (dendrogram, store')
    ∧ store ⊆ store'
    ∧ matrixOf store' (filter (λ l, is_Some (store !! l)) distanceMatrix)
      = matrixOf store (filter (λ l, is_Some (store !! l)) distanceMatrix).
Proof.
  unfold hierarchicalClusteringShared.
  destruct (runClustering_ends (length distanceMatrix) method
              (copyMatrix store distanceMatrix)) as (st & Hrun & Hreach & _).
  rewrite Hrun. simpl. eexists _, _. split; [done|].
  assert (store ⊆ rows (distances st)) as Hsub.
  { eapply (reachable_preserves (apart store)); [|apply copyMatrix_apart|done].
    intros d i j v. apply shared_write_apart. }
  split; [done|].
  unfold matrixOf. apply list_fmap_ext. intros i l Hl.
  apply list_elem_of_lookup_2, list_elem_of_filter in Hl as [[row Hrow] _].
  rewrite Hrow. by rewrite (lookup_weaken _ _ _ _ Hrow Hsub).
Qed.

Lemma clusterStep_three_ward :
  clusterStep 3 ward (initialEngine 3 threeByThree)
  = Some (mergeStep 3 ward (initialEngine 3 threeByThree) (Num 1) 0 1).
Proof. js_eval. reflexivity. Qed.

Lemma knnClassify_exact_match_loses :
  knnClassify "a b" [exactMatch; nearMatch] weightedParams = Some "negative".
Proof.
  js_eval; [reflexivity|].
  exfalso. cbn [INR] in *.
  match goal with
  | Hge : ¬ (0 + 1 < 0 + 1 / ?x)%R |- _ =>
      apply Hge; replace (1 / x)%R with (30000 / 10003)%R by field; lra
  end.
Qed.

Lemma defaultDistance_exact : defaultDistance "a b" "a b" = Num 0.
Proof. js_eval. same_records. Qed.

Lemma defaultDistance_near : defaultDistance "a b" "a b c" = Num (1 / 3).
Proof. js_eval. same_records. Qed.

Lemma Num_inj (x y : R) : Num x = Num y → x = y.
Proof. by intros [= ->]. Qed.

(** ** Cluster extraction: what does hold *)

Lemma reduce_from_invariant {A B} (P : B → Prop) (f : B → A → nat → B)
    (i : nat) (acc : B) (l : list A) :
  P acc → (∀ acc x j, P acc → P (f acc x j)) → P (reduce_from f i acc l).
Proof.
  intros Hacc Hstep. revert i acc Hacc.
  induction l as [|x l IH]; intros i acc Hacc; simpl; [done|].
  apply IH. by apply Hstep.
Qed.

Lemma formClusters_length (linkage : list ClusterNode) (k : Z) (n : nat) :
  length (formClusters linkage k n) = n.
Proof.
  unfold formClusters. rewrite length_fmap.
  apply (reduce_from_invariant (λ a : list nat, length a = n)).
  - apply length_seq.
  - intros acc merge j Hacc.
    destruct (left merge) as [l|], (right merge) as [r|];
      repeat case_decide; by rewrite ?length_insert.
Qed.

Lemma map_get_numbered (u : list nat) (i j a : nat) :
  NoDup u → u !! j = Some a → map_get (numbered i u) a = Some (i + j).
Proof.
  unfold numbered. revert i j.
  induction u as [|c u IH]; intros i j Hnd Hj; [done|].
  apply NoDup_cons in Hnd as [Hc Hnd]. simpl.
  destruct j as [|j]; simpl in Hj.
  - inversion Hj; subst c. by rewrite decide_True.
  - rewrite decide_False.
    + specialize (IH (S i) j Hnd Hj).
      replace (i + S j) with (S i + j) by lia. rewrite <- IH.
      f_equal. apply imap_ext. intros; simpl. f_equal. lia.
    + intros ->. apply Hc. by eapply list_elem_of_lookup_2.
Qed.

Lemma new_Set_snoc {A} `{EqDecision A} (l : list A) (x : A) :
  new_Set (l ++ [x]) = set_add (new_Set l) x.
Proof. unfold new_Set. by rewrite foldl_app. Qed.

(** Renumbering by rank of first appearance gives 0, 1, 2, ... in that
    order. *)
Lemma renumber_dense (l : list nat) (f : nat → nat) :
  (∀ i a, new_Set l !! i = Some a → f a = i) →
  new_Set (f <$> l) = seq 0 (length (new_Set l)).
Proof.
  induction l as [|x l IH] using rev_ind; intros Hf; [done|].
  rewrite fmap_app, !new_Set_snoc in *.
  change (f <$> [x]) with [f x]. rewrite new_Set_snoc.
  destruct (decide (x ∈ new_Set l)) as [Hin|Hnew].
  - assert (set_add (new_Set l) x = new_Set l) as Hadd.
    { unfold set_add. by rewrite decide_True. }
    rewrite Hadd in *. rewrite IH by done.
    apply list_elem_of_lookup in Hin as [i Hi].
    rewrite (Hf i x Hi). unfold set_add.
    rewrite decide_True; [done|].
    apply elem_of_seq. apply lookup_lt_Some in Hi. lia.
  - assert (set_add (new_Set l) x = new_Set l ++ [x]) as Hadd.
    { unfold set_add. by rewrite decide_False. }
    rewrite Hadd in *. rewrite IH.
    + rewrite (Hf (length (new_Set l)) x) by (by rewrite list_lookup_middle).
      unfold set_add. rewrite decide_False by (rewrite elem_of_seq; lia).
      rewrite length_app. simpl. by rewrite Nat.add_1_r, seq_S.
    + intros i a Hi. apply Hf. by apply lookup_app_l_Some.
Qed.

(** The ids of an assignment, in the order in which the documents show
    them first, are 0, 1, ..., k' − 1. *)
Lemma formClusters_dense (linkage : list ClusterNode) (k : Z) (n : nat) :
  new_Set (formClusters linkage k n)
  = seq 0 (length (new_Set (formClusters linkage k n))).
Proof.
  unfold formClusters.
  set (assignments := reduce_from _ 0 (seq 0 n) _).
  assert (new_Set (get_or_zero (imap (λ i c, (c, i)) (new_Set assignments))
                   <$> assignments)
          = seq 0 (length (new_Set assignments))) as Hdense.
  { apply renumber_dense. intros i a Hi. unfold get_or_zero.
    pose proof (map_get_numbered (new_Set assignments) 0 i a
                  (new_Set_NoDup _) Hi) as Hget.
    unfold numbered in Hget. simpl in Hget. by rewrite Hget. }
  rewrite Hdense. by rewrite length_seq.
Qed.

(** ** The Rand index on two or more documents *)

Lemma randCounts_row (clusters1 : list nat) (clusters2 : list string)
    (i : nat) (js : list nat) (a b : nat) :
  let ab := foldl (λ '(a, b) j,
                     let sameC1 := bool_decide (clusters1 !! i = clusters1 !! j) in
                     let sameC2 := bool_decide (clusters2 !! i = clusters2 !! j) in
                     if sameC1 && sameC2 then (a + 1, b)
                     else if negb sameC1 && negb sameC2 then (a, b + 1)
                     else (a, b)) (a, b) js in
  ab.1 + ab.2
  = a + b + length (filter (agree clusters1 clusters2) (pair i <$> js)).
Proof.
  revert a b. induction js as [|j js IH]; intros a b; [simpl; lia|].
  rewrite fmap_cons, filter_cons. cbn [foldl]. unfold agree at 1. cbn [fst snd].
  do 2 case_bool_decide; cbn [andb negb]; rewrite IH.
  - case_decide as Hd; [simpl; lia|tauto].
  - case_decide as Hd; [tauto|lia].
  - case_decide as Hd; [tauto|lia].
  - case_decide as Hd; [simpl; lia|tauto].
Qed.

Lemma randCounts_rows (clusters1 : list nat) (clusters2 : list string)
    (g : nat → list nat) (rows : list nat) (ab : nat * nat) :
  let ab' := foldl (λ ab i,
                      foldl (λ '(a, b) j,
                               let sameC1 := bool_decide (clusters1 !! i = clusters1 !! j) in
                               let sameC2 := bool_decide (clusters2 !! i = clusters2 !! j) in
                               if sameC1 && sameC2 then (a + 1, b)
                               else if negb sameC1 && negb sameC2 then (a, b + 1)
                               else (a, b)) ab (g i)) ab rows in
  ab'.1 + ab'.2
  = ab.1 + ab.2
    + length (filter (agree clusters1 clusters2)
                (concat ((λ i, pair i <$> g i) <$> rows))).
Proof.
  revert ab. induction rows as [|i rows IH]; intros ab; [simpl; lia|].
  cbn [foldl]. cbv zeta in IH. rewrite IH. destruct ab as [a b].
  pose proof (randCounts_row clusters1 clusters2 i (g i) a b) as Hrow.
  cbv zeta in Hrow. rewrite Hrow.
  rewrite fmap_cons. cbn [concat fst snd]. rewrite filter_app, length_app. lia.
Qed.

Lemma randCounts_agreeing (clusters1 : list nat) (clusters2 : list string) :
  (randCounts clusters1 clusters2).1 + (randCounts clusters1 clusters2).2
  = agreeingPairs clusters1 clusters2.
Proof.
  unfold randCounts, agreeingPairs, documentPairs.
  by rewrite (randCounts_rows clusters1 clusters2
                (λ i, seq (i + 1) (length clusters1 - (i + 1)))).
Qed.

Lemma documentPairs_rows (n m : nat) :
  m ≤ n →
  2 * length (concat ((λ i, pair i <$> seq (i + 1) (n - (i + 1))) <$> seq 0 m))
  = m * (2 * n - m - 1).
Proof.
  induction m as [|m IH]; intros Hm; [done|].
  rewrite seq_S, fmap_app, concat_app, length_app. simpl.
  rewrite app_nil_r, length_fmap, length_seq.
  specialize (IH ltac:(lia)). nia.
Qed.

(** There are C(n,2) = n (n − 1) / 2 pairs of documents. *)
Lemma documentPairs_length (n : nat) :
  2 * length (documentPairs n) = n * (n - 1).
Proof.
  unfold documentPairs. rewrite documentPairs_rows by done.
  destruct n; [done|]. f_equal. lia.
Qed.

(** On two documents or more the function returns the number of pairs on
    which the two partitions agree over the number of pairs, a value between
    0 and 1. *)
Lemma calculateRandIndex_pairs (clusters1 : list nat) (clusters2 : list string) :
  2 ≤ length clusters1 →
  calculateRandIndex clusters1 clusters2
  = Num (INR (agreeingPairs clusters1 clusters2)
         / INR (length (documentPairs (length clusters1))))
  ∧ (0 <= INR (agreeingPairs clusters1 clusters2)
          / INR (length (documentPairs (length clusters1))) <= 1)%R.
Proof.
  intros Hn.
  pose proof (documentPairs_length (length clusters1)) as Hpairs.
  pose proof (randCounts_agreeing clusters1 clusters2) as Hagree.
  assert (1 ≤ length (documentPairs (length clusters1))) as Hpos by nia.
  assert (agreeingPairs clusters1 clusters2
          ≤ length (documentPairs (length clusters1))) as Hle.
  { unfold agreeingPairs. apply length_filter. }
  apply INR_ge_1 in Hpos as HposR. apply le_INR in Hle as HleR.
  pose proof (pos_INR (agreeingPairs clusters1 clusters2)) as Hnn.
  split.
  - unfold calculateRandIndex.
    destruct (randCounts clusters1 clusters2) as [a b]. simpl in Hagree.
    rewrite Hagree, <- Hpairs. unfold ofNat.
    rewrite mult_INR. simpl (INR 2).
    rewrite ndiv_Num by lra.
    rewrite ndiv_Num by lra.
    f_equal. field. lra.
  - split.
    + apply Rmult_le_pos; [done|]. apply Rlt_le, Rinv_0_lt_compat. lra.
    + apply Rmult_le_reg_r with (INR (length (documentPairs (length clusters1))));
        [lra|].
      unfold Rdiv. rewrite Rmult_assoc, Rinv_l by lra. lra.
Qed.

(* ====================================================================== *)
(** * The claims *)
(* ====================================================================== *)

(** Every child a dendrogram records is the index of an active cluster,
    so an index below the number of documents. *)
Lemma hierarchicalClustering_children (dm : list (list number)) method cs node :
  hierarchicalClustering dm method = Some cs → node ∈ cs →
  ∃ i j, left node = Some i ∧ right node = Some j
         ∧ i < length dm ∧ j < length dm ∧ i ≠ j.
Proof.
  unfold hierarchicalClustering. intros Hrun Hnode.
  destruct (runClustering_ends (length dm) method dm) as (st & Hst & Hreach & _).
  rewrite Hst in Hrun. simpl in Hrun. inversion Hrun; subst cs.
  destruct (reachable_wf _ _ _ _ Hreach) as (_ & _ & _ & _ & Hnodes).
  by apply Hnodes.
Qed.

(** C1, on three documents with pairwise distances 1, 2 and 3 and average
    linkage: the first merge joins documents 0 and 1; the second merge joins
    the cluster the first merge made with document 2, and records that
    cluster as 0, the index it has kept among the active clusters, not as
    3 = n + 0. *)
Theorem second_merge_records_surviving_index :
  ∃ first second,
    hierarchicalClustering threeByThree average = Some [first; second]
    ∧ left first = Some 0 ∧ right first = Some 1
    ∧ left second = Some 0 ∧ right second = Some 2 ∧ count second = 3.
Proof.
  eexists _, _. split; [apply hierarchicalClustering_three|]. by simpl.
Qed.

(** C2, as the code has it: [defaultDistance] is the distance of the
    specification on the token sets of the texts as received;
    [tweetDistance] lower-cases the texts and divides by the sum of the
    sizes of the two sets, (|A| + |B| − |A∩B|) / (|A| + |B|), and is 1 when
    both sets are empty. *)
Theorem default_metric_formulas (t1 t2 : string) :
  defaultDistance t1 t2 = specDistance (tokenSet t1) (tokenSet t2)
  ∧ tweetDistance t1 t2
    = sumDistance (tokenSet (toLowerCase t1)) (tokenSet (toLowerCase t2)).
Proof. split; [apply defaultDistance_spec|apply tweetDistance_sum]. Qed.

(** C2 fails for [tweetDistance]: two equal one-word texts are at distance
    1/2, where the formula gives 0; and texts that differ in case only are at
    distance 1/2, where tokens taken as received have nothing in common. *)
Lemma tweetDistance_is_not_the_default_metric :
  tweetDistance "a" "a" = Num (1 / 2)
  ∧ specDistance (tokenSet "a") (tokenSet "a") = Num 0
  ∧ tweetDistance "a" "a" ≠ specDistance (tokenSet "a") (tokenSet "a")
  ∧ tweetDistance "A" "a" = Num (1 / 2)
  ∧ specDistance (tokenSet "A") (tokenSet "a") = Num 1
  ∧ tweetDistance "A" "a" ≠ specDistance (tokenSet "A") (tokenSet "a").
Proof.
  assert (tweetDistance "a" "a" = Num (1 / 2)) as H1.
  { js_eval. same_records. }
  assert (specDistance (tokenSet "a") (tokenSet "a") = Num 0) as H2.
  { rewrite <- defaultDistance_spec. js_eval. same_records. }
  assert (tweetDistance "A" "a" = Num (1 / 2)) as H3.
  { js_eval. same_records. }
  assert (specDistance (tokenSet "A") (tokenSet "a") = Num 1) as H4.
  { rewrite <- defaultDistance_spec. js_eval. same_records. }
  rewrite H1, H2, H3, H4.
  split_and!; try done; intros Heq; apply Num_inj in Heq; lra.
Qed.

(** C3, as the code has it: on the three documents of the scenario, with
    average linkage, the two equal documents 0 and 1 are merged first, at
    distance 1/2, which is [tweetDistance] on two equal texts of three
    words; ["i hate this"], document 2, is merged by the second record
    only. *)
Theorem scenario_equal_documents_merge_first :
  ∃ first second,
    hierarchicalClustering (createDistanceMatrix scenarioDocuments) average
    = Some [first; second]
    ∧ left first = Some 0 ∧ right first = Some 1
    ∧ distance first = Num (1 / 2)
    ∧ tweetDistance "i love this" "i love this" = Num (1 / 2)
    ∧ left second = Some 0 ∧ right second = Some 2.
Proof.
  rewrite createDistanceMatrix_scenario.
  eexists _, _. split; [apply hierarchicalClustering_scenario|].
  simpl. split_and!; try done. apply tweetDistance_love_love.
Qed.

(** C3 fails twice on the scenario: the first merge is at distance 1/2, not
    0, and the accuracy of the two clusters extracted is 2/3, not 1. *)
Lemma scenario_distance_and_accuracy :
  ∃ first rest,
    hierarchicalClustering (createDistanceMatrix scenarioDocuments) average
    = Some (first :: rest)
    ∧ distance first = Num (1 / 2)
    ∧ distance first ≠ Num 0
    ∧ formClusters (first :: rest) 2 3 = [0; 1; 0]
    ∧ calculateAccuracy (formClusters (first :: rest) 2 3) scenarioLabels
      = Num (2 / 3)
    ∧ calculateAccuracy (formClusters (first :: rest) 2 3) scenarioLabels ≠ Num 1.
Proof.
  rewrite createDistanceMatrix_scenario.
  eexists _, _. split; [apply hierarchicalClustering_scenario|].
  fold scenarioDendrogram.
  rewrite formClusters_scenario, calculateAccuracy_scenario. simpl.
  split_and!; try done; intros Heq; apply Num_inj in Heq; lra.
Qed.

(** C4, on four documents clustered with average linkage and cut at k = 2:
    the assignment has length 4 and ids 0, 1, 0, 2, three distinct ids where
    at most two were asked for. *)
Theorem formClusters_more_than_k_ids :
  hierarchicalClustering fourByFour average = Some fourDendrogram
  ∧ formClusters fourDendrogram 2 4 = [0; 1; 0; 2]
  ∧ length (new_Set (formClusters fourDendrogram 2 4)) = 3.
Proof.
  split; [apply hierarchicalClustering_four|]. by rewrite formClusters_four.
Qed.

(** C6.  In every turn of the loop that merges, the clusters [i] and [j]
    merged are two different active clusters; for every other active cluster
    [k] the distances between [i] and [k], in both directions, become the
    value of the closed-form rule of the method, computed from the distances
    and the sizes before the merge; then the size of [i] is the sum of the
    two sizes and [j] is no longer active. *)
Theorem linkage_update_closed_form (method : LinkageMethod)
    (d0 : list (list number)) (st st' : Engine (list (list number))) :
  reachable (length d0) method d0 st →
  clusterStep (length d0) method st = Some st' →
  ∃ i j,
    minPair (findClosest (distances st) (active st)) = Some (i, j)
    ∧ i ∈ active st ∧ j ∈ active st ∧ i ≠ j
    ∧ (∀ k, k ∈ active st → k ≠ i → k ≠ j →
         mread (distances st') i k
         = specLinkage method (mread (distances st))
             (λ c, clusterSizes st !!! c) i j k
         ∧ mread (distances st') k i
           = specLinkage method (mread (distances st))
               (λ c, clusterSizes st !!! c) i j k)
    ∧ clusterSizes st' !!! i = clusterSizes st !!! i + clusterSizes st !!! j
    ∧ active st' = filter (λ c, c ≠ j) (active st)
    ∧ (j ∉ active st').
Proof.
  intros Hreach Hstep.
  destruct (clusterStep_update _ _ _ _ Hreach Hstep)
    as (i & j & Hp & Hi & Hj & Hij & Hnew & _ & Hsi & _ & Hact & Hjact & _).
  by exists i, j.
Qed.

Lemma linkage_update_closed_form_witness :
  reachable (length threeByThree) ward threeByThree (initialEngine 3 threeByThree)
  ∧ clusterStep (length threeByThree) ward (initialEngine 3 threeByThree)
    = Some (mergeStep 3 ward (initialEngine 3 threeByThree) (Num 1) 0 1)
  ∧ ∃ i j,
      minPair (findClosest threeByThree [0; 1; 2]) = Some (i, j)
      ∧ i ∈ [0; 1; 2] ∧ j ∈ [0; 1; 2] ∧ i ≠ j
      ∧ (∀ k, k ∈ [0; 1; 2] → k ≠ i → k ≠ j →
           mread (distances (mergeStep 3 ward (initialEngine 3 threeByThree)
                               (Num 1) 0 1)) i k
           = specLinkage ward (mread threeByThree) (λ c, [1; 1; 1] !!! c) i j k
           ∧ mread (distances (mergeStep 3 ward (initialEngine 3 threeByThree)
                                 (Num 1) 0 1)) k i
             = specLinkage ward (mread threeByThree) (λ c, [1; 1; 1] !!! c) i j k)
      ∧ clusterSizes (mergeStep 3 ward (initialEngine 3 threeByThree) (Num 1) 0 1)
          !!! i
        = [1; 1; 1] !!! i + [1; 1; 1] !!! j
      ∧ active (mergeStep 3 ward (initialEngine 3 threeByThree) (Num 1) 0 1)
        = filter (λ c, c ≠ j) [0; 1; 2]
      ∧ (j ∉ active (mergeStep 3 ward (initialEngine 3 threeByThree) (Num 1) 0 1)).
Proof.
  split; [apply reachable_initial|]. split; [apply clusterStep_three_ward|].
  exact (linkage_update_closed_form ward threeByThree
           (initialEngine 3 threeByThree)
           (mergeStep 3 ward (initialEngine 3 threeByThree) (Num 1) 0 1)
           (reachable_initial 3 ward threeByThree) clusterStep_three_ward).
Defined.

(** C7 fails on fewer than two documents: there is no pair, the function
    divides 0 by 0 and returns NaN, not 0. *)
Lemma calculateRandIndex_one_document :
  length [0] = length ["positive"] ∧ length [0] < 2
  ∧ calculateRandIndex [0] ["positive"] = NaN
  ∧ calculateRandIndex [0] ["positive"] ≠ Num 0.
Proof.
  assert (calculateRandIndex [0] ["positive"] = NaN) as Hnan.
  { unfold calculateRandIndex. simpl randCounts. simpl length.
    change (ofNat (1 * (1 - 1))) with (Num 0). change (ofNat (0 + 0)) with (Num 0).
    rewrite (ndiv_Num 0 2) by lra.
    replace (0 / 2)%R with 0%R by lra. apply ndiv_zero_zero. }
  split; [done|]. split; [simpl; lia|]. split; [done|]. by rewrite Hnan.
Qed.

Lemma calculateRandIndex_no_pair (clusters1 : list nat) (clusters2 : list string) :
  length clusters1 < 2 → calculateRandIndex clusters1 clusters2 = NaN.
Proof.
  intros Hn. unfold calculateRandIndex.
  assert (randCounts clusters1 clusters2 = (0, 0)) as ->.
  { destruct clusters1 as [|c1 [|c1' rest]]; [done|done|simpl in Hn; lia]. }
  assert (length clusters1 * (length clusters1 - 1) = 0) as ->.
  { destruct clusters1 as [|c1 [|c1' rest]]; [done|done|simpl in Hn; lia]. }
  change (ofNat (0 + 0)) with (Num 0). change (ofNat 0) with (Num 0).
  rewrite (ndiv_Num 0 2) by lra.
  replace (0 / 2)%R with 0%R by lra. apply ndiv_zero_zero.
Qed.

(** C7, as the code has it.  On two documents or more [calculateRandIndex]
    returns the number of pairs of documents on which the two partitions
    agree over the number C(n,2) of pairs, a value between 0 and 1.  On
    fewer than two it divides 0 by 0: the 0 of the specification is the
    callers', and [handleClustering], the caller, stops on fewer than two
    tweets and stores 0 itself when no tweet is labelled. *)
Theorem calculateRandIndex_share_of_pairs :
  (∀ clusters1 clusters2,
     length clusters1 = length clusters2 → 2 ≤ length clusters1 →
     ∃ r, calculateRandIndex clusters1 clusters2 = Num r
          ∧ r = (INR (agreeingPairs clusters1 clusters2)
                 / INR (length clusters1 * (length clusters1 - 1) / 2))%R
          ∧ (0 <= r <= 1)%R)
  ∧ (∀ clusters1 clusters2,
       length clusters1 < 2 → calculateRandIndex clusters1 clusters2 = NaN)
  ∧ (∀ tweets method clusterCount,
       length tweets < 2 →
       handleClustering tweets method clusterCount = notEnoughData)
  ∧ (∀ tweets method clusterCount results,
       handleClustering tweets method clusterCount = clusterResults results →
       filter (λ t, truthy (label t) = true) tweets = [] →
       randIndex results = Num 0).
Proof.
  split_and!.
  - intros clusters1 clusters2 _ Hn.
    destruct (calculateRandIndex_pairs clusters1 clusters2 Hn) as [Hr Hrange].
    eexists. split; [exact Hr|].
    pose proof (documentPairs_length (length clusters1)) as Hpairs.
    assert (length clusters1 * (length clusters1 - 1) / 2
            = length (documentPairs (length clusters1))) as ->.
    { rewrite <- Hpairs, Nat.mul_comm. by rewrite Nat.div_mul. }
    done.
  - apply calculateRandIndex_no_pair.
  - intros tweets method clusterCount Hn. unfold handleClustering.
    by rewrite decide_True.
  - intros tweets method clusterCount results. unfold handleClustering.
    case_decide; [done|].
    destruct (mapM cleaned tweets) as [texts|]; [|done].
    destruct (hierarchicalClustering _ _) as [cs|]; [|done].
    cbv zeta. intros Hres Hnone. rewrite Hnone in Hres. simpl in Hres.
    by inversion Hres.
Qed.

Lemma calculateRandIndex_share_of_pairs_witness :
  length scenarioAssignment = length scenarioLabels
  ∧ 2 ≤ length scenarioAssignment
  ∧ ∃ r, calculateRandIndex scenarioAssignment scenarioLabels = Num r
         ∧ r = (INR (agreeingPairs scenarioAssignment scenarioLabels)
                / INR (length scenarioAssignment
                       * (length scenarioAssignment - 1) / 2))%R
         ∧ (0 <= r <= 1)%R.
Proof.
  assert (length scenarioAssignment = length scenarioLabels) as Hlen by reflexivity.
  assert (2 ≤ length scenarioAssignment) as Hn by (simpl; lia).
  split; [exact Hlen|]. split; [exact Hn|].
  exact (proj1 calculateRandIndex_share_of_pairs
           scenarioAssignment scenarioLabels Hlen Hn).
Defined.

(** C8.  The four metrics of the KNN library, whichever name selects them,
    and [tweetDistance] are symmetric. *)
Theorem distances_symmetric (a b : string) :
  defaultDistance a b = defaultDistance b a
  ∧ jaccardDistance a b = jaccardDistance b a
  ∧ cosineDistance a b = cosineDistance b a
  ∧ levenshteinDistance a b = levenshteinDistance b a
  ∧ tweetDistance a b = tweetDistance b a
  ∧ ∀ type, getDistanceFunction type a b = getDistanceFunction type b a.
Proof.
  split_and!.
  - apply defaultDistance_sym.
  - apply jaccardDistance_sym.
  - apply cosineDistance_sym.
  - apply levenshteinDistance_sym.
  - apply tweetDistance_sym.
  - intros type. unfold getDistanceFunction.
    repeat case_decide;
      auto using defaultDistance_sym, jaccardDistance_sym, cosineDistance_sym,
        levenshteinDistance_sym.
Qed.

(** C10.  A neighbour at distance 0 weighs 1; a neighbour at a distance [d]
    with 0 < d < 0.9999 weighs 1 / (d + 0.0001), which is more than 1; and
    for the query ["a b"], with the two nearest neighbours a reference text
    equal to the query, labelled positive, and one at distance 1/3,
    labelled negative, the weighted vote returns negative. *)
Theorem weighted_vote_exact_match_loses (d : R) :
  (0 < d < 9999 / 10000)%R →
  neighborWeight (Num 0) = Num 1
  ∧ neighborWeight (Num d) = Num (1 / (d + 1 / 10000))
  ∧ (1 < 1 / (d + 1 / 10000))%R
  ∧ ∃ query reference params exact near,
      reference = [exact; near] ∧ voteType params = weighted
      ∧ getDistanceFunction (distanceType params) query (cleaned_or_text exact)
        = Num 0
      ∧ getDistanceFunction (distanceType params) query (cleaned_or_text near)
        = Num (1 / 3)
      ∧ label exact = Some "positive" ∧ label near = Some "negative"
      ∧ knnClassify query reference params = Some "negative".
Proof.
  intros [Hpos Hlt]. split_and!.
  - unfold neighborWeight. simpl. by destruct (Req_dec_T 0 0).
  - unfold neighborWeight. simpl.
    destruct (Req_dec_T d 0) as [->|_]; [lra|].
    destruct (Req_dec_T (d + 1 / 10000) 0) as [Hz|_]; [lra|]. done.
  - apply Rmult_lt_reg_r with (d + 1 / 10000)%R; [lra|].
    unfold Rdiv at 2. rewrite Rmult_assoc, Rinv_l by lra. lra.
  - exists "a b", [exactMatch; nearMatch], weightedParams, exactMatch, nearMatch.
    split_and!; try done.
    + apply defaultDistance_exact.
    + apply defaultDistance_near.
    + apply knnClassify_exact_match_loses.
Qed.

Lemma weighted_vote_exact_match_loses_witness :
  (0 < 1 / 2 < 9999 / 10000)%R
  ∧ neighborWeight (Num 0) = Num 1
  ∧ neighborWeight (Num (1 / 2)) = Num (1 / (1 / 2 + 1 / 10000))
  ∧ (1 < 1 / (1 / 2 + 1 / 10000))%R
  ∧ ∃ query reference params exact near,
      reference = [exact; near] ∧ voteType params = weighted
      ∧ getDistanceFunction (distanceType params) query (cleaned_or_text exact)
        = Num 0
      ∧ getDistanceFunction (distanceType params) query (cleaned_or_text near)
        = Num (1 / 3)
      ∧ label exact = Some "positive" ∧ label near = Some "negative"
      ∧ knnClassify query reference params = Some "negative".
Proof.
  assert (0 < 1 / 2 < 9999 / 10000)%R as Hd by lra.
  split; [exact Hd|].
  exact (weighted_vote_exact_match_loses (1 / 2) Hd).
Defined.

(* ====================================================================== *)
(** * Further properties of the code *)
(* ====================================================================== *)

(** ** The dendrogram of any matrix *)

Lemma StronglySorted_seq (j n : nat) : StronglySorted lt (seq j n).
Proof.
  revert j. induction n as [|n IH]; intros j; simpl; [constructor|].
  constructor; [apply IH|].
  apply Forall_forall. intros x Hx. apply elem_of_seq in Hx. lia.
Qed.

Lemma StronglySorted_filter_lt (P : nat → Prop) `{∀ x, Decision (P x)}
    (l : list nat) :
  StronglySorted lt l → StronglySorted lt (filter P l).
Proof.
  induction 1 as [|x l Hl IH Hx]; [constructor|].
  rewrite filter_cons. case_decide; [|done].
  constructor; [done|].
  apply Forall_forall. intros y Hy. apply list_elem_of_filter in Hy as [_ Hy].
  rewrite Forall_forall in Hx. by apply Hx.
Qed.

Lemma reachable_active_sorted {M} `{MatrixStore M} n method (d : M) st :
  reachable n method d st → StronglySorted lt (active st).
Proof.
  induction 1 as [|st st' Hreach IH Hstep]; [apply StronglySorted_seq|].
  apply clusterStep_inv in Hstep as (_ & i & j & _ & ->). simpl.
  by apply StronglySorted_filter_lt.
Qed.

Lemma findClosest_ordered {M} `{MatrixStore M} (d : M) act i j :
  StronglySorted lt act → minPair (findClosest d act) = Some (i, j) → i < j.
Proof.
  intros Hsorted Hp.
  apply scanPairs_minPair in Hp as [Hp|(l1 & l2 & -> & Hj)]; [done|].
  apply (StronglySorted_app_1_r _ l1 (i :: l2)) in Hsorted. inversion Hsorted as [|? ? _ Hall]; subst.
  rewrite Forall_forall in Hall. by apply Hall.
Qed.

(** The records are those of the turns of the loop: each names the pair the
    search found, left before right. *)
Lemma reachable_left_right {M} `{MatrixStore M} n method (d : M) st :
  reachable n method d st →
  ∀ node, node ∈ clusters st →
    ∃ i j, left node = Some i ∧ right node = Some j ∧ i < j ∧ j < n.
Proof.
  induction 1 as [|st st' Hreach IH Hstep].
  - intros node Hnode. by apply elem_of_nil in Hnode.
  - pose proof (reachable_wf _ _ _ _ Hreach) as (Hnd & Hlt & _).
    pose proof (reachable_active_sorted _ _ _ _ Hreach) as Hsorted.
    apply clusterStep_inv in Hstep as (_ & i & j & Hp & ->). simpl.
    intros node Hnode. apply elem_of_app in Hnode as [Hnode|Hnode];
      [by apply IH|].
    apply list_elem_of_singleton in Hnode as ->. simpl.
    destruct (findClosest_pair _ _ i j Hnd Hp) as (_ & Hj & _).
    exists i, j. split_and!; [done|done| |by apply Hlt].
    by eapply findClosest_ordered.
Qed.

(** X1.  Whatever the matrix holds (ragged rows, [NaN], [Infinity]
    included), [hierarchicalClustering] returns; the dendrogram has at most
    n − 1 records, and in every record the left child is an index smaller
    than the right child, which is below n. *)
Theorem hierarchicalClustering_any_matrix (dm : list (list number))
    (method : LinkageMethod) :
  ∃ cs, hierarchicalClustering dm method = Some cs
        ∧ length cs ≤ length dm - 1
        ∧ Forall (λ node, ∃ i j, left node = Some i ∧ right node = Some j
                                 ∧ i < j ∧ j < length dm) cs.
Proof.
  unfold hierarchicalClustering.
  destruct (runClustering_ends (length dm) method dm) as (st & Hst & Hreach & _).
  rewrite Hst. exists (clusters st). split; [done|].
  destruct (reachable_wf _ _ _ _ Hreach) as (_ & _ & Hlen & _).
  split.
  - destruct (decide (length dm = 0)) as [Hz|Hz]; [lia|].
    pose proof (reachable_active_pos _ _ _ _ Hreach). lia.
  - apply Forall_forall. by eapply reachable_left_right.
Qed.

(** ** The counts of the records *)

Lemma sum_filter_ne (f : nat → nat) (l : list nat) (j : nat) :
  NoDup l → j ∈ l →
  sum_list_with f l = f j + sum_list_with f (filter (λ c, c ≠ j) l).
Proof.
  induction l as [|x l IH]; intros Hnd Hin; [by apply elem_of_nil in Hin|].
  apply NoDup_cons in Hnd as [Hx Hnd].
  destruct (decide (x = j)) as [->|Hne].
  - rewrite filter_cons_False by (intros Hc; by apply Hc).
    rewrite filter_ne_notin by done. done.
  - rewrite filter_cons_True by done. simpl.
    apply elem_of_cons in Hin as [->|Hin]; [done|].
    rewrite IH by done. lia.
Qed.

Lemma sum_update (f g : nat → nat) (l : list nat) (i extra : nat) :
  NoDup l → i ∈ l → g i = f i + extra → (∀ c, c ≠ i → g c = f c) →
  sum_list_with g l = sum_list_with f l + extra.
Proof.
  intros Hnd Hin Hi Hother.
  rewrite (sum_filter_ne g l i), (sum_filter_ne f l i) by done.
  assert (sum_list_with g (filter (λ c, c ≠ i) l)
          = sum_list_with f (filter (λ c, c ≠ i) l)) as ->; [|lia].
  assert (∀ cs : list nat, (∀ c, c ∈ cs → c ≠ i) →
            sum_list_with g cs = sum_list_with f cs) as Hsame.
  { intros cs. induction cs as [|c cs IH]; intros Hk; simpl; [done|].
    rewrite Hother by (apply Hk; by left).
    rewrite IH; [done|]. intros c' Hc'. apply Hk. by right. }
  apply Hsame. intros c Hc. by apply list_elem_of_filter in Hc as [? _].
Qed.

Lemma sum_two_le (f : nat → nat) (l : list nat) (i j : nat) :
  NoDup l → i ∈ l → j ∈ l → i ≠ j → f i + f j ≤ sum_list_with f l.
Proof.
  intros Hnd Hi Hj Hne. rewrite (sum_filter_ne f l j) by done.
  assert (i ∈ filter (λ c, c ≠ j) l) as Hi' by (by apply list_elem_of_filter).
  pose proof (sum_list_with_in i f _ Hi'). lia.
Qed.

Lemma initialEngine_sizes_ok {M} n (d : M) : sizes_ok n (initialEngine n d).
Proof.
  split_and!; simpl.
  - intros c Hc. apply elem_of_seq in Hc.
    by rewrite lookup_total_replicate_2 by lia.
  - assert (∀ l : list nat, (∀ c, c ∈ l → c < n) →
              sum_list_with (λ c, replicate n 1 !!! c) l = length l) as Hones.
    { induction l as [|c l IH]; intros Hl; simpl; [done|].
      rewrite lookup_total_replicate_2 by (apply Hl; by left).
      rewrite IH; [done|]. intros c' Hc'. apply Hl. by right. }
    rewrite Hones, length_seq; [done|].
    intros c Hc. apply elem_of_seq in Hc. lia.
  - intros node Hnode. by apply elem_of_nil in Hnode.
  - intros node Hnode. done.
Qed.

Lemma clusterStep_sizes_ok {M} `{MatrixStore M} n method (st st' : Engine M) :
  engine_wf n st → sizes_ok n st → clusterStep n method st = Some st' →
  sizes_ok n st'.
Proof.
  intros (Hnd & Hlt & _ & Hlen & _) (Hpos & Hsum & Hcounts & _) Hstep.
  apply clusterStep_inv in Hstep as (_ & i & j & Hp & ->).
  destruct (findClosest_pair _ _ i j Hnd Hp) as (Hi & Hj & Hij).
  assert (i < length (clusterSizes st)) as Hilt by (rewrite Hlen; by apply Hlt).
  assert (i ∈ filter (λ c, c ≠ j) (active st)) as Hi'.
  { by apply list_elem_of_filter. }
  pose proof (sum_two_le (λ c, clusterSizes st !!! c) _ i j Hnd Hi Hj Hij) as Htwo.
  simpl in Htwo. rewrite Hsum in Htwo.
  pose proof (Hpos i Hi). pose proof (Hpos j Hj).
  split_and!; simpl.
  - intros c Hc. apply list_elem_of_filter in Hc as [_ Hc].
    destruct (decide (c = i)) as [->|Hci].
    + rewrite list_lookup_total_insert_eq by done. lia.
    + rewrite list_lookup_total_insert_ne by done. by apply Hpos.
  - rewrite (sum_update (λ c, clusterSizes st !!! c) _ _ i
               (clusterSizes st !!! j)).
    + pose proof (sum_filter_ne (λ c, clusterSizes st !!! c) _ j Hnd Hj) as Hj'.
      simpl in Hj'. lia.
    + by apply NoDup_filter.
    + done.
    + by rewrite list_lookup_total_insert_eq.
    + intros c Hc. by rewrite list_lookup_total_insert_ne.
  - intros node Hnode. apply elem_of_app in Hnode as [Hnode|Hnode];
      [by apply Hcounts|].
    apply list_elem_of_singleton in Hnode as ->. simpl. lia.
  - intros node Hlast. rewrite last_snoc in Hlast. inversion Hlast; subst node.
    simpl. exists i. split_and!; [done|done|].
    by rewrite list_lookup_total_insert_eq.
Qed.

Lemma reachable_sizes_ok {M} `{MatrixStore M} n method (d : M) st :
  reachable n method d st → sizes_ok n st.
Proof.
  induction 1 as [|st st' Hreach IH Hstep]; [apply initialEngine_sizes_ok|].
  eapply clusterStep_sizes_ok; [|done|done]. by eapply reachable_wf.
Qed.

(** X2.  Every record of a dendrogram counts between 2 and n documents, and
    the last record of a dendrogram of n − 1 records counts all n. *)
Theorem dendrogram_counts (dm : list (list number)) (method : LinkageMethod)
    (cs : list ClusterNode) :
  hierarchicalClustering dm method = Some cs →
  Forall (λ node, 2 ≤ count node ≤ length dm) cs
  ∧ (length cs = length dm - 1 →
     ∀ node, last cs = Some node → count node = length dm).
Proof.
  unfold hierarchicalClustering. intros Hrun.
  destruct (runClustering_ends (length dm) method dm) as (st & Hst & Hreach & _).
  rewrite Hst in Hrun. simpl in Hrun. inversion Hrun; subst cs.
  destruct (reachable_sizes_ok _ _ _ _ Hreach) as (_ & Hsum & Hcounts & Hlast).
  destruct (reachable_wf _ _ _ _ Hreach) as (Hnd & _ & Hlen & _).
  split; [by apply Forall_forall|].
  intros Hfull node Hnode.
  destruct (Hlast node Hnode) as (i & _ & Hi & ->).
  assert (length (clusters st) ≠ 0) as Hne.
  { destruct (clusters st); [done|simpl; lia]. }
  destruct (active st) as [|c [|c' act]] eqn:Hact; simpl in Hlen; try lia.
  apply list_elem_of_singleton in Hi as ->. simpl in Hsum. lia.
Qed.

Lemma dendrogram_counts_witness :
  hierarchicalClustering threeByThree average = Some threeDendrogram
  ∧ Forall (λ node, 2 ≤ count node ≤ length threeByThree) threeDendrogram
  ∧ (length threeDendrogram = length threeByThree - 1 →
     ∀ node, last threeDendrogram = Some node → count node = length threeByThree).
Proof.
  split; [exact hierarchicalClustering_three|].
  exact (dendrogram_counts threeByThree average threeDendrogram
           hierarchicalClustering_three).
Defined.

(** ** The range of the set metrics *)

Lemma Rdiv_between (x y lo hi : R) :
  (0 < y)%R → (lo * y <= x)%R → (x <= hi * y)%R → (lo <= x / y <= hi)%R.
Proof.
  intros Hy Hlo Hhi. split.
  - apply Rmult_le_reg_r with y; [done|].
    unfold Rdiv. rewrite Rmult_assoc, Rinv_l by lra. lra.
  - apply Rmult_le_reg_r with y; [done|].
    unfold Rdiv. rewrite Rmult_assoc, Rinv_l by lra. lra.
Qed.

Lemma Rdiv_eq_iff (x y c : R) : (0 < y)%R → (x / y = c)%R ↔ (x = c * y)%R.
Proof.
  intros Hy. split.
  - intros <-. unfold Rdiv. rewrite Rmult_assoc, Rinv_l by lra. lra.
  - intros ->. unfold Rdiv. rewrite Rmult_assoc, Rinv_r by lra. lra.
Qed.

Lemma size_intersection_le (A B : gset string) :
  size (A ∩ B) ≤ size A ∧ size (A ∩ B) ≤ size B ∧ size (A ∩ B) ≤ size (A ∪ B).
Proof. split_and!; apply subseteq_size; set_solver. Qed.

Lemma tweetDistance_real (t1 t2 : string) :
  ∃ r, tweetDistance t1 t2 = Num r ∧ (1 / 2 <= r <= 1)%R.
Proof.
  rewrite tweetDistance_sum. unfold sumDistance.
  set (A := tokenSet (toLowerCase t1)). set (B := tokenSet (toLowerCase t2)).
  destruct (size_intersection_le A B) as (HA & HB & _).
  case_decide as Hz; [exists 1%R; split; [done|lra]|].
  eexists. split; [done|].
  apply le_INR in HA, HB. rewrite plus_INR in *.
  assert (1 <= INR (size A) + INR (size B))%R.
  { rewrite <- plus_INR. apply INR_ge_1. lia. }
  pose proof (pos_INR (size (A ∩ B))).
  apply Rdiv_between; lra.
Qed.

(** X3.  [tweetDistance] is a real between 1/2 and 1: two texts are never
    closer than 1/2, and a text is at distance 1/2 from itself when it has a
    token, at distance 1 when it has none. *)
Theorem tweetDistance_range (t1 t2 : string) :
  (∃ r, tweetDistance t1 t2 = Num r ∧ (1 / 2 <= r <= 1)%R)
  ∧ tweetDistance t1 t1
    = if decide (tokens (toLowerCase t1) = []) then Num 1 else Num (1 / 2).
Proof.
  split.
  - apply tweetDistance_real.
  - rewrite tweetDistance_sum. unfold sumDistance.
    set (A := tokenSet (toLowerCase t1)).
    assert (A ∩ A = A) as -> by set_solver.
    assert (size A = 0 ↔ tokens (toLowerCase t1) = []) as Hempty.
    { unfold A, tokenSet. rewrite size_empty_iff. split.
      - intros Hs. destruct (tokens (toLowerCase t1)) as [|w ws]; [done|].
        exfalso. set_solver.
      - intros ->. done. }
    case_decide as Hz; case_decide as Hnil; try done.
    + exfalso. apply Hnil, Hempty. lia.
    + exfalso. apply Hz. apply Hempty in Hnil. lia.
    + f_equal. apply Rdiv_eq_iff.
      * apply Rlt_le_trans with 1%R; [lra|]. apply INR_ge_1. lia.
      * rewrite plus_INR. lra.
Qed.

(** X4.  [defaultDistance] is a real between 0 and 1; it is 0 exactly when
    the two texts have the same tokens and at least one, and 1 exactly when
    they have no token in common. *)
Theorem defaultDistance_range (t1 t2 : string) :
  ∃ r, defaultDistance t1 t2 = Num r ∧ (0 <= r <= 1)%R
       ∧ (r = 0%R ↔ tokenSet t1 = tokenSet t2 ∧ tokenSet t1 ≠ ∅)
       ∧ (r = 1%R ↔ tokenSet t1 ∩ tokenSet t2 = ∅).
Proof.
  rewrite defaultDistance_spec. unfold specDistance.
  set (A := tokenSet t1). set (B := tokenSet t2).
  destruct (size_intersection_le A B) as (_ & _ & Hle).
  case_decide as Hz.
  - apply size_empty_iff in Hz.
    assert (A = ∅ ∧ B = ∅) as [HA HB] by set_solver.
    exists 1%R. split_and!; [done|lra|lra| |].
    + split; [lra|]. intros [_ Hne]. done.
    + split; [|done]. intros _. set_solver.
  - eexists. split; [done|].
    assert (1 <= INR (size (A ∪ B)))%R as Hu by (apply INR_ge_1; lia).
    pose proof (pos_INR (size (A ∩ B))) as Hi. apply le_INR in Hle as HleR.
    assert (0 <= (INR (size (A ∪ B)) - INR (size (A ∩ B))) / INR (size (A ∪ B))
            <= 1)%R as Hrange by (apply Rdiv_between; lra).
    split_and!; [lra|lra| |].
    + rewrite Rdiv_eq_iff by lra. split.
      * intros Heq. assert (INR (size (A ∪ B)) = INR (size (A ∩ B))) as Heq' by lra.
        apply INR_eq in Heq'.
        assert (A ∩ B ≡ A ∪ B) as Hsets.
        { apply set_subseteq_size_equiv; [set_solver|lia]. }
        split; [set_solver|]. intros HA. apply Hz.
        apply size_empty_iff. set_solver.
      * intros [Heq _]. rewrite Heq.
        assert (B ∪ B = B) as -> by set_solver.
        assert (B ∩ B = B) as -> by set_solver. lra.
    + rewrite Rdiv_eq_iff by lra. split.
      * intros Heq. assert (INR (size (A ∩ B)) = 0%R) as Heq' by lra.
        apply (INR_eq _ 0) in Heq'. apply size_empty_iff in Heq'. set_solver.
      * intros Heq. rewrite Heq, size_empty. simpl. lra.
Qed.

(** X5.  [jaccardDistance] is a real between 0 and 1, and 1 when the two
    texts have no token in common. *)
Theorem jaccardDistance_range (t1 t2 : string) :
  ∃ r, jaccardDistance t1 t2 = Num r ∧ (0 <= r <= 1)%R
       ∧ (tokenSet t1 ∩ tokenSet t2 = ∅ → r = 1%R).
Proof.
  rewrite jaccardDistance_sets.
  set (A := tokenSet t1). set (B := tokenSet t2).
  destruct (size_intersection_le A B) as (_ & _ & Hle).
  case_decide as Hz; [exists 1%R; split_and!; [done|lra|lra|done]|].
  eexists. split; [done|].
  assert (1 <= INR (size (A ∪ B)))%R as Hu by (apply INR_ge_1; lia).
  pose proof (pos_INR (size (A ∩ B))) as Hi. apply le_INR in Hle as HleR.
  assert (0 <= INR (size (A ∩ B)) / INR (size (A ∪ B)) <= 1)%R as Hq.
  { apply Rdiv_between; lra. }
  split_and!; [lra|lra|].
  intros Heq. rewrite Heq, size_empty. simpl. lra.
Qed.

(** ** The distance matrix of a list of tweets *)

Lemma foldl_pairs {A} (g : A → nat → nat → A) (h : nat → list nat)
    (l : list nat) (acc : A) :
  foldl (λ acc i, foldl (λ acc j, g acc i j) acc (h i)) acc l
  = foldl (λ acc p, g acc p.1 p.2) acc (concat ((λ i, pair i <$> h i) <$> l)).
Proof.
  revert acc. induction l as [|i l IH]; intros acc; [done|].
  rewrite fmap_cons. cbn [foldl concat]. rewrite foldl_app, IH. f_equal.
  generalize (h i). intros js. revert acc.
  induction js as [|j js IHj]; intros acc; [done|].
  rewrite fmap_cons. cbn [foldl]. by rewrite IHj.
Qed.

Lemma elem_of_concat {A} (x : A) (ls : list (list A)) :
  x ∈ concat ls ↔ ∃ l, x ∈ l ∧ l ∈ ls.
Proof.
  induction ls as [|l ls IH]; simpl.
  - split; [intros Hx; by apply elem_of_nil in Hx|].
    intros (l & _ & Hl). by apply elem_of_nil in Hl.
  - rewrite elem_of_app, IH. split.
    + intros [Hx|(l' & Hx & Hl')]; [exists l; split; [done|by left]|].
      exists l'. split; [done|by right].
    + intros (l' & Hx & Hl'). apply elem_of_cons in Hl' as [->|Hl'];
        [by left|right; by exists l'].
Qed.

Lemma elem_of_documentPairs (n a b : nat) :
  (a, b) ∈ documentPairs n ↔ a < b ∧ b < n.
Proof.
  unfold documentPairs. rewrite elem_of_concat. split.
  - intros (l & Hab & Hl). apply list_elem_of_fmap in Hl as (i & -> & Hi).
    apply list_elem_of_fmap in Hab as (j & [= -> ->] & Hj).
    apply elem_of_seq in Hi, Hj. lia.
  - intros [Hab Hb]. exists (pair a <$> seq (a + 1) (n - (a + 1))). split.
    + apply list_elem_of_fmap. exists b. split; [done|]. apply elem_of_seq. lia.
    + apply list_elem_of_fmap. exists a. split; [done|]. apply elem_of_seq. lia.
Qed.

Lemma matrix_write_square n (m : list (list number)) i j v :
  square n m → j < n → square n (matrix_write m i j v).
Proof.
  intros [Hlen Hrows] Hj. unfold matrix_write.
  destruct (m !! i) as [row|] eqn:Hrow; [|done].
  split; [by rewrite length_insert|].
  intros row' Hrow'. apply list_elem_of_lookup in Hrow' as [i' Hi'].
  destruct (decide (i = i')) as [<-|Hne].
  - rewrite list_lookup_insert_eq in Hi' by (by eapply lookup_lt_Some).
    inversion Hi'; subst row'.
    assert (length row = n) as Hr by (eapply Hrows, list_elem_of_lookup_2, Hrow).
    unfold array_set. rewrite decide_True by lia. by rewrite length_insert.
  - rewrite list_lookup_insert_ne in Hi' by done.
    by eapply Hrows, list_elem_of_lookup_2.
Qed.

Lemma matrix_read_square n (m : list (list number)) a b :
  square n m → a < n → b < n →
  ∃ row, m !! a = Some row ∧ row !! b = Some (matrix_read m a b).
Proof.
  intros [Hlen Hrows] Ha Hb.
  destruct (lookup_lt_is_Some_2 m a) as [row Hrow]; [lia|].
  assert (length row = n) as Hr by (eapply Hrows, list_elem_of_lookup_2, Hrow).
  destruct (lookup_lt_is_Some_2 row b) as [v Hv]; [lia|].
  exists row. split; [done|]. unfold matrix_read. by rewrite Hrow, Hv.
Qed.

(** Two square matrices with the same cells are the same. *)
Lemma square_ext n (m1 m2 : list (list number)) :
  square n m1 → square n m2 →
  (∀ a b, a < n → b < n → matrix_read m1 a b = matrix_read m2 a b) →
  m1 = m2.
Proof.
  intros Hs1 Hs2 Hread.
  apply (list_eq_same_length _ _ n); [apply Hs2|apply Hs1|].
  intros a row1 row2 Ha Hrow1 Hrow2.
  apply (list_eq_same_length _ _ n).
  - eapply Hs2, list_elem_of_lookup_2, Hrow2.
  - eapply Hs1, list_elem_of_lookup_2, Hrow1.
  - intros b v1 v2 Hb Hv1 Hv2.
    specialize (Hread a b Ha Hb). unfold matrix_read in Hread.
    rewrite Hrow1, Hrow2, Hv1, Hv2 in Hread. done.
Qed.

Lemma distanceTable_square (tweets : list string) :
  square (length tweets) (distanceTable tweets).
Proof.
  unfold distanceTable. split; [by rewrite length_imap|].
  intros row Hrow. apply list_elem_of_lookup in Hrow as [a Ha].
  rewrite list_lookup_imap in Ha.
  destruct (tweets !! a); simpl in Ha; [|done].
  inversion Ha. by rewrite length_imap.
Qed.

Lemma distanceTable_read (tweets : list string) (a b : nat) :
  a < length tweets → b < length tweets →
  matrix_read (distanceTable tweets) a b
  = if decide (a = b) then Num 0
    else tweetDistance (tweets !!! a) (tweets !!! b).
Proof.
  intros Ha Hb. unfold matrix_read, distanceTable.
  destruct (lookup_lt_is_Some_2 tweets a Ha) as [ta Hta].
  destruct (lookup_lt_is_Some_2 tweets b Hb) as [tb Htb].
  rewrite list_lookup_imap, Hta. simpl.
  rewrite list_lookup_imap, Htb. simpl.
  by rewrite (list_lookup_total_correct _ _ _ Hta),
    (list_lookup_total_correct _ _ _ Htb).
Qed.

Lemma createDistanceMatrix_distanceTable (tweets : list string) :
  createDistanceMatrix tweets = distanceTable tweets.
Proof.
  set (n := length tweets).
  set (F := λ a b, tweetDistance (tweets !!! a) (tweets !!! b)).
  assert (∀ ps (m : list (list number)) done_,
            (∀ p, p ∈ ps → p.1 < n ∧ p.2 < n) →
            square n m →
            (∀ a b, a < n → b < n →
               matrix_read m a b
               = if decide ((a, b) ∈ done_ ∨ (b, a) ∈ done_) then F a b else Num 0) →
            let m' := foldl (λ m p, matrix_write (matrix_write m p.1 p.2 (F p.1 p.2))
                                      p.2 p.1 (F p.1 p.2)) m ps in
            square n m'
            ∧ ∀ a b, a < n → b < n →
                matrix_read m' a b
                = if decide ((a, b) ∈ done_ ++ ps ∨ (b, a) ∈ done_ ++ ps)
                  then F a b else Num 0) as Hfold.
  { induction ps as [|[i j] ps IH]; intros m done_ Hps Hsq Hread.
    - simpl. by rewrite app_nil_r.
    - cbn [foldl fst snd].
      destruct (Hps (i, j)) as [Hi Hj]; [by left|]. simpl in Hi, Hj.
      rewrite cons_middle, (assoc_L (++)). apply IH.
      + intros p Hp. apply Hps. by right.
      + apply matrix_write_square; [by apply matrix_write_square|done].
      + intros a b Ha Hb.
        assert (F j i = F i j) as Hsym by apply tweetDistance_sym.
        destruct (decide ((a, b) = (j, i))) as [[= -> ->]|Hne1].
        * rewrite matrix_read_write_eq
            by (rewrite matrix_write_length; destruct Hsq as [-> _]; done).
          rewrite decide_True; [done|].
          right. apply elem_of_app. right. by left.
        * rewrite matrix_read_write_ne by done.
          destruct (decide ((a, b) = (i, j))) as [[= -> ->]|Hne2].
          -- rewrite matrix_read_write_eq by (destruct Hsq as [-> _]; done).
             rewrite decide_True; [done|].
             left. apply elem_of_app. right. by left.
          -- rewrite matrix_read_write_ne by done. rewrite Hread by done.
             destruct (decide ((a, b) ∈ done_ ∨ (b, a) ∈ done_)) as [Hin|Hout].
             ++ rewrite decide_True; [done|].
                destruct Hin; [left|right]; apply elem_of_app; by left.
             ++ rewrite decide_False; [done|].
                intros [Hin|Hin]; apply elem_of_app in Hin as [Hin|Hin];
                  try (apply Hout; tauto);
                  apply list_elem_of_singleton in Hin; congruence. }
  unfold createDistanceMatrix. fold n.
  rewrite (foldl_pairs
             (λ matrix i j,
                matrix_write
                  (matrix_write matrix i j (tweetDistance (tweets !!! i) (tweets !!! j)))
                  j i (tweetDistance (tweets !!! i) (tweets !!! j)))
             (λ i, seq (i + 1) (n - (i + 1)))).
  fold (documentPairs n).
  destruct (Hfold (documentPairs n) (replicate n (replicate n (Num 0))) [])
    as [Hsq Hread].
  - intros [a b] Hab. apply elem_of_documentPairs in Hab. simpl. lia.
  - split; [by rewrite length_replicate|].
    intros row Hrow. apply elem_of_replicate in Hrow as [-> _].
    by rewrite length_replicate.
  - intros a b Ha Hb. rewrite decide_False.
    + unfold matrix_read. rewrite lookup_replicate_2 by done.
      by rewrite lookup_replicate_2.
    + intros [Hin|Hin]; by apply elem_of_nil in Hin.
  - apply (square_ext n); [done|apply distanceTable_square|].
    intros a b Ha Hb. rewrite Hread, distanceTable_read by done.
    simpl. destruct (decide (a = b)) as [->|Hne].
    + rewrite decide_False; [done|].
      intros [Hin|Hin]; apply elem_of_documentPairs in Hin; lia.
    + rewrite decide_True; [done|].
      rewrite !elem_of_documentPairs. lia.
Qed.

(** X6.  [createDistanceMatrix] builds the table of the pairwise
    [tweetDistance]s of the tweets: n rows of n cells, 0 on the diagonal,
    and the distance of tweets [a] and [b] in row [a], column [b] as in row
    [b], column [a]. *)
Theorem createDistanceMatrix_table (tweets : list string) :
  createDistanceMatrix tweets = distanceTable tweets
  ∧ square (length tweets) (createDistanceMatrix tweets)
  ∧ Forall (λ a, Forall (λ b,
        matrix_read (createDistanceMatrix tweets) a b
        = matrix_read (createDistanceMatrix tweets) b a
        ∧ matrix_read (createDistanceMatrix tweets) a a = Num 0)
      (seq 0 (length tweets))) (seq 0 (length tweets)).
Proof.
  rewrite createDistanceMatrix_distanceTable.
  split_and!; [done|apply distanceTable_square|].
  apply Forall_forall. intros a Ha. apply Forall_forall. intros b Hb.
  apply elem_of_seq in Ha, Hb.
  rewrite !distanceTable_read by lia.
  rewrite (decide_True (P := a = a)) by done. split; [|done].
  destruct (decide (a = b)) as [->|Hne].
  - by rewrite decide_True.
  - rewrite decide_False by done. apply tweetDistance_sym.
Qed.

Lemma createDistanceMatrix_distance_matrix (tweets : list string) :
  distance_matrix (createDistanceMatrix tweets).
Proof.
  rewrite createDistanceMatrix_distanceTable.
  destruct (distanceTable_square tweets) as [Hlen Hrows].
  split.
  - intros row Hrow. rewrite Hlen. by apply Hrows.
  - rewrite Hlen. intros i j Hi Hj. rewrite !distanceTable_read by done.
    destruct (decide (i = j)) as [->|Hne].
    + rewrite decide_True by done. exists 0%R. split_and!; [lra|done|done].
    + rewrite decide_False by done.
      destruct (tweetDistance_real (tweets !!! i) (tweets !!! j))
        as (r & Hr & Hrange).
      exists r. split_and!; [lra|done|]. by rewrite tweetDistance_sym.
Qed.

(** The loop on a distance matrix runs until one cluster is left. *)
Lemma distance_matrix_full_run (dm : list (list number)) method :
  distance_matrix dm →
  ∃ st, runClustering (length dm) method dm = Some st
        ∧ reachable (length dm) method dm st
        ∧ length (clusters st) = length dm - 1.
Proof.
  intros Hdm.
  destruct (runClustering_ends (length dm) method dm) as (st & Hrun & Hreach & Hend).
  exists st. split_and!; [done|done|].
  pose proof (reachable_wf _ _ _ _ Hreach) as (Hnd & _ & Hlen & _).
  destruct (decide (length dm = 0)) as [Hz|Hz]; [lia|].
  pose proof (reachable_active_pos _ _ _ _ Hreach) as Hpos.
  destruct (reachable_distances_ok _ _ _ Hdm Hreach) as [_ Hreal].
  assert (¬ 1 < length (active st)) as Hone; [|lia].
  intros Hgt. unfold clusterStep in Hend. rewrite decide_True in Hend by done.
  destruct (findClosest_min (distances st) (active st) Hnd Hgt Hreal)
    as (i & j & r0 & Hp & _).
  by rewrite Hp in Hend.
Qed.

(** X7.  From any list of n tweets, whatever the linkage method, the matrix
    [createDistanceMatrix] builds makes [hierarchicalClustering] return a
    dendrogram of exactly n − 1 records (none for n < 2). *)
Theorem tweets_dendrogram_size (tweets : list string) (method : LinkageMethod) :
  ∃ cs, hierarchicalClustering (createDistanceMatrix tweets) method = Some cs
        ∧ length cs = length tweets - 1.
Proof.
  destruct (distance_matrix_full_run (createDistanceMatrix tweets) method
              (createDistanceMatrix_distance_matrix tweets))
    as (st & Hrun & _ & Hlen).
  exists (clusters st). unfold hierarchicalClustering. rewrite Hrun. split; [done|].
  rewrite Hlen, createDistanceMatrix_distanceTable.
  by destruct (distanceTable_square tweets) as [-> _].
Qed.

(** ** Merge distances *)

Lemma clusterStep_merges_below (d0 : list (list number)) st st' :
  reachable (length d0) complete d0 st → distances_ok st →
  merges_below st ∧ nondecreasing (clusters st) →
  clusterStep (length d0) complete st = Some st' →
  merges_below st' ∧ nondecreasing (clusters st').
Proof.
  intros Hreach [Hsize Hreal] [Hbelow Hsorted] Hstep.
  pose proof (reachable_wf _ _ _ _ Hreach) as (Hnd & _).
  pose proof (clusterStep_inv _ _ _ _ Hstep) as (Hlen & _).
  destruct (clusterStep_update _ _ _ _ Hreach Hstep)
    as (i & j & Hp & Hi & Hj & Hij & Hnew & Hold & _ & _ & Hact & _ & Hcs).
  destruct (findClosest_min (distances st) (active st) Hnd Hlen Hreal)
    as (i' & j' & r0 & Hp' & Hmd & Hr0 & Hmin).
  rewrite Hp in Hp'. inversion Hp'; subst i' j'. clear Hp'.
  rewrite Hmd in Hcs.
  assert (∀ c, c ∈ active st' → c ∈ active st ∧ c ≠ j) as Hin.
  { intros c Hc. rewrite Hact in Hc. apply list_elem_of_filter in Hc. tauto. }
  (* what the distances between the clusters still active are bounded by *)
  assert (∀ x, (∀ a b r, a ∈ active st → b ∈ active st → a ≠ b →
                   matrix_read (distances st) a b = Num r → (x <= r)%R) →
               ∀ a b r, a ∈ active st' → b ∈ active st' → a ≠ b →
                 matrix_read (distances st') a b = Num r → (x <= r)%R) as Hkeep.
  { intros x Hx a b r Ha Hb Hab Hr.
    destruct (Hin a Ha) as [Ha' Haj], (Hin b Hb) as [Hb' Hbj].
    assert (∀ c, c ∈ active st → c ≠ i → c ≠ j →
              ∀ r', specLinkage complete (mread (distances st))
                      (λ c, clusterSizes st !!! c) i j c = Num r' →
                    (x <= r')%R) as Hmax.
    { intros c Hc Hci Hcj r' Hr'. simpl in Hr'.
      destruct (Hreal i c Hi Hc) as (x1 & _ & Hx1 & _); [done|].
      destruct (Hreal j c Hj Hc) as (y1 & _ & Hy1 & _); [done|].
      rewrite Hx1, Hy1 in Hr'. simpl in Hr'. inversion Hr'; subst r'.
      apply Rle_trans with x1; [|apply Rmax_l].
      by apply (Hx i c). }
    change matrix_read with (@mread (list (list number)) _) in Hr.
    destruct (decide (a = i)) as [->|Hai]; [|destruct (decide (b = i)) as [->|Hbi]].
    - destruct (Hnew b) as [H1 _]; try done. rewrite H1 in Hr.
      by apply (Hmax b).
    - destruct (Hnew a) as [_ H2]; try done. rewrite H2 in Hr.
      by apply (Hmax a).
    - rewrite Hold in Hr by done. by apply (Hx a b). }
  split.
  - intros node Hnode. rewrite Hcs in Hnode.
    apply elem_of_app in Hnode as [Hnode|Hnode].
    + destruct (Hbelow node Hnode) as (x & Hx & Hle). exists x. split; [done|].
      by apply Hkeep.
    + apply list_elem_of_singleton in Hnode as ->. simpl.
      exists r0. split; [done|]. by apply Hkeep.
  - rewrite Hcs. intros p q a b Hpq Ha Hb.
    apply lookup_app_Some in Hb as [Hb|[Hq Hb]].
    + assert (p < length (clusters st)) by (apply lookup_lt_Some in Hb; lia).
      rewrite lookup_app_l in Ha by done. by apply (Hsorted p q).
    + apply list_lookup_singleton_Some in Hb as [_ <-]. simpl.
      apply lookup_app_Some in Ha as [Ha|[_ Ha]].
      * destruct (Hbelow a) as (x & Hx & Hle); [by eapply list_elem_of_lookup_2|].
        exists x, r0. split_and!; [done|done|]. by apply (Hle i j).
      * apply list_lookup_singleton_Some in Ha as [_ <-]. simpl.
        exists r0, r0. split_and!; [done|done|lra].
Qed.

Lemma reachable_merges_below (dm : list (list number)) st :
  distance_matrix dm → reachable (length dm) complete dm st →
  merges_below st ∧ nondecreasing (clusters st).
Proof.
  intros Hdm. induction 1 as [|st st' Hreach IH Hstep].
  - split.
    + intros node Hnode. by apply elem_of_nil in Hnode.
    + intros p q a b _ Ha. done.
  - eapply clusterStep_merges_below; [done| |done|done].
    by eapply reachable_distances_ok.
Qed.

(** X8.  With complete linkage on a distance matrix the merge distances of
    the dendrogram are real and never decrease from one record to the
    next. *)
Theorem complete_linkage_nondecreasing (dm : list (list number))
    (cs : list ClusterNode) :
  distance_matrix dm → hierarchicalClustering dm complete = Some cs →
  nondecreasing cs.
Proof.
  intros Hdm Hrun. unfold hierarchicalClustering in Hrun.
  destruct (runClustering_ends (length dm) complete dm) as (st & Hst & Hreach & _).
  rewrite Hst in Hrun. simpl in Hrun. inversion Hrun; subst cs.
  by apply (reachable_merges_below dm st Hdm Hreach).
Qed.

Lemma hierarchicalClustering_three_complete :
  hierarchicalClustering threeByThree complete = Some threeCompleteDendrogram.
Proof.
  js_eval. unfold Rmax. destruct (Rle_dec 2 3); [|lra]. reflexivity.
Qed.

Lemma complete_linkage_nondecreasing_witness :
  distance_matrix threeByThree
  ∧ hierarchicalClustering threeByThree complete = Some threeCompleteDendrogram
  ∧ nondecreasing threeCompleteDendrogram.
Proof.
  split; [exact threeByThree_distance_matrix|].
  split; [exact hierarchicalClustering_three_complete|].
  exact (complete_linkage_nondecreasing threeByThree threeCompleteDendrogram
           threeByThree_distance_matrix hierarchicalClustering_three_complete).
Defined.

Lemma clusterLoop_keeps_records {M} `{MatrixStore M} fuel n method
    (st st' : Engine M) :
  clusterLoop fuel n method st = Some st' →
  clusters st `prefix_of` clusters st'.
Proof.
  revert st. induction fuel as [|fuel IH]; intros st; simpl;
    destruct (clusterStep n method st) as [st1|] eqn:Hstep; try done.
  - by intros [= ->].
  - intros Hloop. apply IH in Hloop.
    apply clusterStep_inv in Hstep as (_ & i & j & _ & ->). simpl in Hloop.
    etrans; [|done]. by apply prefix_app_r.
  - by intros [= ->].
Qed.

(** X9.  On a distance matrix over two documents or more, the first record
    of the dendrogram joins two single documents, and no two different
    documents are closer to each other in the matrix than these two. *)
Theorem first_merge_is_closest_pair (dm : list (list number))
    (method : LinkageMethod) :
  distance_matrix dm → 2 ≤ length dm →
  ∃ first rest i j r0,
    hierarchicalClustering dm method = Some (first :: rest)
    ∧ left first = Some i ∧ right first = Some j ∧ i < j ∧ j < length dm
    ∧ count first = 2
    ∧ distance first = Num r0 ∧ matrix_read dm i j = Num r0
    ∧ ∀ a b r, a < length dm → b < length dm → a ≠ b →
        matrix_read dm a b = Num r → (r0 <= r)%R.
Proof.
  intros Hdm Hn.
  pose proof (initial_distances_ok dm Hdm) as [_ Hreal].
  destruct (findClosest_min dm (seq 0 (length dm))) as (i & j & r0 & Hp & Hmd & Hr0 & Hmin).
  { apply NoDup_seq. }
  { by rewrite length_seq. }
  { exact Hreal. }
  pose proof (findClosest_ordered dm _ i j (StronglySorted_seq 0 _) Hp) as Hij.
  destruct (findClosest_pair dm _ i j (NoDup_seq 0 _) Hp) as (Hi & Hj & _).
  apply elem_of_seq in Hi, Hj.
  assert (clusterStep (length dm) method (initialEngine (length dm) dm)
          = Some (mergeStep (length dm) method (initialEngine (length dm) dm)
                    (Num r0) i j)) as Hstep.
  { unfold clusterStep. simpl active. simpl distances.
    rewrite length_seq, decide_True by lia. by rewrite Hp, Hmd. }
  destruct (runClustering_ends (length dm) method dm) as (st & Hrun & _ & _).
  assert (clusters (mergeStep (length dm) method (initialEngine (length dm) dm)
                      (Num r0) i j) `prefix_of` clusters st) as [rest Hrest].
  { unfold runClustering in Hrun. destruct (length dm) as [|n] eqn:Hlen; [lia|].
    simpl in Hrun. rewrite <- Hlen in *. rewrite Hstep in Hrun.
    by eapply clusterLoop_keeps_records. }
  simpl in Hrest. rewrite !lookup_total_replicate_2 in Hrest by lia.
  eexists _, rest, i, j, r0. split.
  { unfold hierarchicalClustering. rewrite Hrun. simpl. by rewrite Hrest. }
  simpl. split_and!; try done; try lia.
  intros a b r Ha Hb Hab. apply Hmin; [apply elem_of_seq; lia..|done].
Qed.

Lemma first_merge_is_closest_pair_witness :
  distance_matrix threeByThree ∧ 2 ≤ length threeByThree
  ∧ ∃ first rest i j r0,
      hierarchicalClustering threeByThree ward = Some (first :: rest)
      ∧ left first = Some i ∧ right first = Some j ∧ i < j
      ∧ j < length threeByThree
      ∧ count first = 2
      ∧ distance first = Num r0 ∧ matrix_read threeByThree i j = Num r0
      ∧ ∀ a b r, a < length threeByThree → b < length threeByThree → a ≠ b →
          matrix_read threeByThree a b = Num r → (r0 <= r)%R.
Proof.
  assert (2 ≤ length threeByThree) as Hn by (simpl; lia).
  split; [exact threeByThree_distance_matrix|]. split; [exact Hn|].
  exact (first_merge_is_closest_pair threeByThree ward
           threeByThree_distance_matrix Hn).
Defined.

(** ** The condensed form of a matrix *)

Lemma foldl_snoc_fmap {A B} (f : A → B) (l : list A) (acc : list B) :
  foldl (λ acc x, acc ++ [f x]) acc l = acc ++ (f <$> l).
Proof.
  revert acc. induction l as [|x l IH]; intros acc; simpl.
  - by rewrite app_nil_r.
  - rewrite IH, <- (assoc_L (++)). done.
Qed.

(** X10.  [squareToCondensed] lists the cells above the diagonal, row by
    row: the cell of every pair i < j once, n (n − 1) / 2 cells in all. *)
Theorem squareToCondensed_pairs (matrix : list (list number)) :
  squareToCondensed matrix
  = (λ p, matrix_read matrix p.1 p.2) <$> documentPairs (length matrix)
  ∧ 2 * length (squareToCondensed matrix) = length matrix * (length matrix - 1).
Proof.
  assert (squareToCondensed matrix
          = (λ p, matrix_read matrix p.1 p.2) <$> documentPairs (length matrix))
    as Heq.
  { unfold squareToCondensed.
    rewrite (foldl_pairs (λ condensed i j, condensed ++ [matrix_read matrix i j])
               (λ i, seq (i + 1) (length matrix - (i + 1)))).
    fold (documentPairs (length matrix)).
    by rewrite (foldl_snoc_fmap (λ p, matrix_read matrix p.1 p.2)). }
  split; [done|].
  rewrite Heq, length_fmap. apply documentPairs_length.
Qed.

(** ** The KNN classifier *)

(** The fields of the parameters of [knnClassify]. *)
Ltac knn_params := cbn [k voteType distanceType].

Lemma elem_of_sort_insert (x y : Neighbor) (sorted : list Neighbor) :
  y ∈ sort_insert x sorted ↔ y = x ∨ y ∈ sorted.
Proof.
  induction sorted as [|z sorted IH]; simpl.
  - rewrite list_elem_of_singleton, elem_of_nil. tauto.
  - destruct (closer x z); rewrite !elem_of_cons; [tauto|]. rewrite IH. tauto.
Qed.

Lemma length_sort_insert (x : Neighbor) (sorted : list Neighbor) :
  length (sort_insert x sorted) = S (length sorted).
Proof.
  induction sorted as [|z sorted IH]; simpl; [done|].
  destruct (closer x z); simpl; [done|]. by rewrite IH.
Qed.

Lemma elem_of_sort_by_distance (l : list Neighbor) (y : Neighbor) :
  y ∈ sort_by_distance l ↔ y ∈ l.
Proof.
  unfold sort_by_distance.
  assert (∀ acc, y ∈ foldl (λ acc x, sort_insert x acc) acc l ↔ y ∈ acc ∨ y ∈ l)
    as Hgen.
  { induction l as [|x l IH]; intros acc; simpl.
    - rewrite elem_of_nil. tauto.
    - rewrite IH, elem_of_sort_insert, elem_of_cons. tauto. }
  rewrite Hgen, elem_of_nil. tauto.
Qed.

Lemma length_sort_by_distance (l : list Neighbor) :
  length (sort_by_distance l) = length l.
Proof.
  unfold sort_by_distance.
  assert (∀ acc, length (foldl (λ acc x, sort_insert x acc) acc l)
                 = length acc + length l) as Hgen.
  { induction l as [|x l IH]; intros acc; simpl; [lia|].
    rewrite IH, length_sort_insert. lia. }
  by rewrite Hgen.
Qed.

Lemma closer_Num (a b : Neighbor) (r s : R) :
  nb_distance a = Num r → nb_distance b = Num s →
  closer a b = true ↔ (r < s)%R.
Proof.
  intros Ha Hb. unfold closer. rewrite Ha, Hb. simpl.
  destruct (Rlt_dec (r + - s) 0); split; try done; intros; lra.
Qed.

(** The head of the sorted neighbours is the first nearest one. *)
Lemma head_sort_by_distance (l1 l2 : list Neighbor) (x : Neighbor) :
  first_nearest l1 x l2 → head (sort_by_distance (l1 ++ x :: l2)) = Some x.
Proof.
  intros (r & Hx & Hbefore & Hafter). unfold sort_by_distance.
  rewrite foldl_app. cbn [foldl].
  set (acc1 := foldl (λ acc y, sort_insert y acc) [] l1).
  assert (∀ y, y ∈ acc1 → ∃ s, nb_distance y = Num s ∧ (r < s)%R) as Hacc1.
  { intros y Hy. apply Hbefore. by apply elem_of_sort_by_distance. }
  assert (head (sort_insert x acc1) = Some x) as Hhead.
  { destruct acc1 as [|z acc1]; [done|]. simpl.
    destruct (Hacc1 z) as (s & Hs & Hlt); [by left|].
    by rewrite (proj2 (closer_Num x z r s Hx Hs) Hlt). }
  revert Hhead. generalize (sort_insert x acc1). clear acc1 Hacc1.
  induction l2 as [|y l2 IH]; intros acc Hhead; [done|].
  cbn [foldl]. apply IH.
  - intros z Hz. apply Hafter. by right.
  - destruct acc as [|z acc]; [done|]. simpl in Hhead. inversion Hhead; subst z.
    simpl. destruct (Hafter y) as (s & Hs & Hle); [by left|].
    destruct (closer y x) eqn:Hc; [|done].
    apply (closer_Num y x s r Hs Hx) in Hc. lra.
Qed.

Lemma neighborWeight_positive (r : R) :
  (0 <= r)%R → ∃ w, neighborWeight (Num r) = Num w ∧ (0 < w)%R.
Proof.
  intros Hr. unfold neighborWeight. simpl.
  destruct (Req_dec_T r 0) as [->|Hne]; [exists 1%R; split; [done|lra]|].
  destruct (Req_dec_T (r + 1 / 10000) 0) as [Hz|_]; [lra|].
  eexists. split; [done|].
  apply Rdiv_lt_0_compat; lra.
Qed.

(** X11.  With k = 1 the classifier returns the label of the nearest
    training tweet, the earliest one among several at the same distance,
    under both vote types (for the weighted vote the distance must not be
    negative). *)
Theorem knnClassify_nearest (tweetText : string) (before after : list Tweet)
    (nearest : Tweet) (vote : VoteType) (distanceType : string) :
  first_nearest (neighbors tweetText before distanceType)
    {| nb_distance := getDistanceFunction distanceType tweetText
                        (cleaned_or_text nearest);
       nb_label := label nearest |}
    (neighbors tweetText after distanceType) →
  (vote = weighted →
   ∃ r, getDistanceFunction distanceType tweetText (cleaned_or_text nearest) = Num r
        ∧ (0 <= r)%R) →
  knnClassify tweetText (before ++ nearest :: after)
    {| k := 1; voteType := vote; distanceType := distanceType |}
  = label nearest.
Proof.
  intros Hnearest Hweight. unfold knnClassify. knn_params.
  rewrite fmap_app, fmap_cons.
  pose proof (head_sort_by_distance _ _ _ Hnearest) as Hhead.
  unfold neighbors in Hhead.
  destruct (sort_by_distance _) as [|x sorted]; [done|].
  simpl in Hhead. inversion Hhead; subst x.
  change (take 1 ?l) with (take 1 l). rewrite firstn_cons, take_0. cbn [foldl].
  destruct vote.
  - cbn [map_get or_zero map_set nb_label]. unfold pick_max. cbn [foldl nadd snd].
    unfold ngtb. rewrite nltb_Num_true by lra. done.
  - destruct Hweight as (r & Hr & Hpos); [done|].
    cbn [map_get or_zero map_set nb_label nb_distance]. rewrite Hr.
    destruct (neighborWeight_positive r Hpos) as (w & -> & Hw).
    unfold pick_max. cbn [foldl nadd snd].
    unfold ngtb. rewrite nltb_Num_true by lra. done.
Qed.

Lemma first_nearest_exactMatch :
  first_nearest (neighbors "a b" [nearMatch] "default")
    {| nb_distance := getDistanceFunction "default" "a b" (cleaned_or_text exactMatch);
       nb_label := label exactMatch |}
    (neighbors "a b" [] "default").
Proof.
  exists 0%R. split_and!.
  - apply defaultDistance_exact.
  - intros y Hy. apply list_elem_of_singleton in Hy as ->.
    exists (1 / 3)%R. split; [apply defaultDistance_near|lra].
  - intros y Hy. by apply elem_of_nil in Hy.
Qed.

Lemma knnClassify_nearest_witness :
  first_nearest (neighbors "a b" [nearMatch] "default")
    {| nb_distance := getDistanceFunction "default" "a b" (cleaned_or_text exactMatch);
       nb_label := label exactMatch |}
    (neighbors "a b" [] "default")
  ∧ (weighted = weighted →
     ∃ r, getDistanceFunction "default" "a b" (cleaned_or_text exactMatch) = Num r
          ∧ (0 <= r)%R)
  ∧ knnClassify "a b" ([nearMatch] ++ exactMatch :: [])
      {| k := 1; voteType := weighted; distanceType := "default" |}
    = label exactMatch.
Proof.
  assert (weighted = weighted →
          ∃ r, getDistanceFunction "default" "a b" (cleaned_or_text exactMatch) = Num r
               ∧ (0 <= r)%R) as Hpos.
  { intros _. exists 0%R. split; [apply defaultDistance_exact|lra]. }
  split; [exact first_nearest_exactMatch|]. split; [exact Hpos|].
  exact (knnClassify_nearest "a b" [nearMatch] [] exactMatch weighted "default"
           first_nearest_exactMatch Hpos).
Defined.

(** X12.  Without training data, or with k = 0, the classifier returns
    ["neutral"], under both vote types; and asking for more neighbours than
    there are training tweets gives what asking for all of them gives. *)
Theorem knnClassify_edges (tweetText : string) (trainingData : list Tweet)
    (vote : VoteType) (distanceType : string) (k extra : nat) :
  knnClassify tweetText []
    {| k := k; voteType := vote; distanceType := distanceType |} = Some "neutral"
  ∧ knnClassify tweetText trainingData
      {| k := 0; voteType := vote; distanceType := distanceType |} = Some "neutral"
  ∧ knnClassify tweetText trainingData
      {| k := length trainingData + extra; voteType := vote;
         distanceType := distanceType |}
    = knnClassify tweetText trainingData
        {| k := length trainingData; voteType := vote;
           distanceType := distanceType |}.
Proof.
  split_and!.
  - unfold knnClassify. knn_params. rewrite fmap_nil.
    change (sort_by_distance []) with (@nil Neighbor). rewrite take_nil.
    by destruct vote.
  - unfold knnClassify. knn_params. rewrite take_0.
    by destruct vote.
  - unfold knnClassify. knn_params.
    rewrite !take_ge; [done|..];
      rewrite length_sort_by_distance, length_fmap; lia.
Qed.

Lemma map_set_keys {V} (m : list (option string * V)) (key : option string) (v : V)
    (x : option string) :
  x ∈ (map_set m key v).*1 ↔ x = key ∨ x ∈ m.*1.
Proof.
  induction m as [|[k' v'] m IH]; simpl.
  - rewrite list_elem_of_singleton, elem_of_nil. tauto.
  - case_decide as Hk; simpl; rewrite !elem_of_cons.
    + subst k'. tauto.
    + rewrite IH. tauto.
Qed.

Lemma map_get_Some_in {V} (m : list (option string * V)) (key : option string)
    (v : V) :
  map_get m key = Some v → (key, v) ∈ m.
Proof.
  induction m as [|[k' v'] m IH]; simpl; [done|].
  case_decide as Hk; [intros [= <-]; subst; by left|].
  intros Hget. right. by apply IH.
Qed.

Lemma map_set_values {V} (P : V → Prop) (m : list (option string * V))
    (key : option string) (v : V) :
  Forall (λ e, P e.2) m → P v → Forall (λ e, P e.2) (map_set m key v).
Proof.
  intros Hm Hv. induction m as [|[k' v'] m IH]; simpl.
  - by constructor.
  - apply Forall_cons in Hm as [Hv' Hm]. case_decide; constructor; auto.
Qed.

(** The vote counts are whole numbers from 1 on, on labels of
    neighbours. *)
Lemma majority_votes (l : list Neighbor) (votes : list (option string * number)) :
  Forall (λ e, ∃ c, e.2 = Num c ∧ (1 <= c)%R) votes →
  let votes' := foldl (λ votes nb,
                         map_set votes (nb_label nb)
                           (nadd (or_zero (map_get votes (nb_label nb))) (Num 1)))
                      votes l in
  Forall (λ e, ∃ c, e.2 = Num c ∧ (1 <= c)%R) votes'
  ∧ ∀ x, x ∈ votes'.*1 ↔ x ∈ votes.*1 ∨ x ∈ nb_label <$> l.
Proof.
  revert votes. induction l as [|nb l IH]; intros votes Hvotes; simpl.
  - split; [done|]. intros x. rewrite elem_of_nil. tauto.
  - destruct (IH (map_set votes (nb_label nb)
                    (nadd (or_zero (map_get votes (nb_label nb))) (Num 1))))
      as [Hvals Hkeys].
    + apply (map_set_values (λ v, ∃ c, v = Num c ∧ (1 <= c)%R)); [done|].
      destruct (map_get votes (nb_label nb)) as [v|] eqn:Hget.
      * apply map_get_Some_in in Hget. rewrite Forall_forall in Hvotes.
        destruct (Hvotes _ Hget) as (c & Hc & Hle). simpl in Hc. subst v.
        simpl. eexists. split; [done|]. lra.
      * simpl. eexists. split; [done|]. lra.
    + split; [done|]. intros x. rewrite Hkeys, map_set_keys, elem_of_cons. tauto.
Qed.

Lemma pick_fold_in (m : list (option string * number))
    (acc : number * option string) :
  let res := foldl (λ '(maxWeight, predictedLabel) '(lbl, weight),
                      if ngtb weight maxWeight then (weight, lbl)
                      else (maxWeight, predictedLabel)) acc m in
  res.2 = acc.2 ∨ res.2 ∈ m.*1.
Proof.
  revert acc. induction m as [|[k' v'] m IH]; intros [mw pl]; [by left|].
  cbn [foldl]. cbv zeta in IH. destruct (ngtb v' mw).
  - destruct (IH (v', k')) as [->|Hin]; right; [by left|by right].
  - destruct (IH (mw, pl)) as [->|Hin]; [by left|right; by right].
Qed.

(** The entry picked is one of the entries when the first value exceeds
    -1. *)
Lemma pick_max_key (m : list (option string * number)) :
  m ≠ [] → Forall (λ e, ∃ c, e.2 = Num c ∧ (0 < c)%R) m →
  pick_max m ∈ m.*1.
Proof.
  intros Hne Hvals. unfold pick_max.
  destruct m as [|[key v] m]; [done|]. cbn [foldl].
  apply Forall_cons in Hvals as [(c & Hc & Hpos) Hvals]. simpl in Hc. subst v.
  assert (ngtb (Num c) (Num (-1)) = true) as Hgt.
  { unfold ngtb. apply nltb_Num_true. lra. }
  cbv beta iota. rewrite Hgt.
  destruct (pick_fold_in m (Num c, key)) as [Heq|Hin].
  - cbv zeta in Heq. rewrite Heq. by left.
  - by right.
Qed.

(** X13.  With training data and k ≥ 1, the majority vote returns the
    label of one of the training tweets: the default ["neutral"] is
    returned for a tweet so labelled only. *)
Theorem knnClassify_majority_label (tweetText : string) (first : Tweet)
    (others : list Tweet) (distanceType : string) (k : nat) :
  ∃ tweet, tweet ∈ first :: others
           ∧ knnClassify tweetText (first :: others)
               {| k := S k; voteType := majority; distanceType := distanceType |}
             = label tweet.
Proof.
  unfold knnClassify. knn_params.
  set (sorted := sort_by_distance _).
  assert (length sorted = S (length others)) as Hlen.
  { unfold sorted. by rewrite length_sort_by_distance, length_fmap. }
  set (nearest := take (S k) sorted).
  destruct (majority_votes nearest []) as [Hvals Hkeys]; [constructor|].
  cbv zeta in Hvals, Hkeys.
  set (votes := foldl _ [] nearest) in *.
  assert (votes ≠ []) as Hne.
  { destruct sorted as [|nb sorted'] eqn:Hs; [done|].
    assert (nb_label nb ∈ votes.*1) as Hin.
    { apply Hkeys. right. unfold nearest. simpl. by left. }
    intros Hnil. rewrite Hnil in Hin. by apply elem_of_nil in Hin. }
  assert (pick_max votes ∈ votes.*1) as Hpick.
  { apply pick_max_key; [done|].
    eapply Forall_impl; [exact Hvals|].
    intros e (c & Hc & Hle). exists c. split; [done|lra]. }
  apply Hkeys in Hpick as [Hpick|Hpick]; [by apply elem_of_nil in Hpick|].
  apply list_elem_of_fmap in Hpick as (nb & Hlabel & Hnb).
  assert (nb ∈ sorted) as Hnb'.
  { unfold nearest in Hnb. by eapply subseteq_take. }
  apply elem_of_sort_by_distance, list_elem_of_fmap in Hnb' as (tweet & -> & Htweet).
  exists tweet. split; [done|]. by rewrite Hlabel.
Qed.

(** ** Levenshtein and cosine distance *)

Lemma editTable_0_l (s1 s2 : string) (j : nat) : editTable s1 s2 0 j = j.
Proof. reflexivity. Qed.

Lemma editTable_le_max (s1 s2 : string) (i j : nat) :
  editTable s1 s2 i j ≤ Nat.max i j.
Proof.
  revert j. induction i as [|i IHi]; intros j; [rewrite editTable_0_l; lia|].
  induction j as [|j IHj]; [rewrite editTable_S_0; lia|].
  rewrite editTable_S_S. pose proof (IHi j). pose proof (IHi (S j)).
  case_decide; lia.
Qed.

(** Edit distance 0 between two prefixes: they have the same length and the
    same characters. *)
Lemma editTable_zero (s1 s2 : string) (i j : nat) :
  editTable s1 s2 i j = 0 →
  i = j ∧ ∀ p, p < i → String.get p s1 = String.get p s2.
Proof.
  revert j. induction i as [|i IHi]; intros j.
  - rewrite editTable_0_l. intros ->. split; [done|]. intros p Hp. lia.
  - destruct j as [|j]; [by rewrite editTable_S_0|].
    rewrite editTable_S_S. case_decide as Heq; [|lia].
    intros Hz. destruct (IHi j Hz) as [-> Hsame]. split; [done|].
    intros p Hp. destruct (decide (p = j)) as [->|Hne]; [done|].
    apply Hsame. lia.
Qed.

Lemma editTable_diag (s : string) (i : nat) : editTable s s i i = 0.
Proof.
  induction i as [|i IH]; [done|]. rewrite editTable_S_S.
  by rewrite decide_True.
Qed.

Lemma get_beyond (s : string) (p : nat) :
  String.length s ≤ p → String.get p s = None.
Proof.
  revert p. induction s as [|c s IH]; intros p Hp; [by destruct p|].
  destruct p as [|p]; simpl in *; [lia|]. apply IH. lia.
Qed.

(** X14.  [levenshteinDistance] is a real between 0 and 1, and it is 0
    exactly for two equal strings. *)
Theorem levenshteinDistance_range (s1 s2 : string) :
  ∃ r, levenshteinDistance s1 s2 = Num r ∧ (0 <= r <= 1)%R
       ∧ (r = 0%R ↔ s1 = s2).
Proof.
  rewrite levenshteinDistance_editTable.
  set (len1 := String.length s1). set (len2 := String.length s2).
  destruct (Nat.eqb_spec (Nat.max len1 len2) 0) as [Hz|Hz].
  - exists 0%R. split_and!; [done|lra|lra|]. split; [|done]. intros _.
    apply String.get_correct. intros p.
    rewrite !get_beyond; [done|fold len2; lia|fold len1; lia].
  - unfold ofNat. rewrite ndiv_Num by (by apply INR_pos_ne).
    eexists. split; [done|].
    pose proof (editTable_le_max s1 s2 len1 len2) as Hle. apply le_INR in Hle.
    pose proof (pos_INR (editTable s1 s2 len1 len2)) as Hpos.
    assert (1 <= INR (Nat.max len1 len2))%R as Hmax by (apply INR_ge_1; lia).
    assert (0 <= INR (editTable s1 s2 len1 len2) / INR (Nat.max len1 len2) <= 1)%R
      as Hrange by (apply Rdiv_between; lra).
    split_and!; [lra|lra|].
    rewrite Rdiv_eq_iff by lra. split.
    + intros Heq. assert (INR (editTable s1 s2 len1 len2) = INR 0) as Heq'
        by (simpl; lra).
      apply INR_eq, editTable_zero in Heq' as [Hlen Hsame].
      apply String.get_correct. intros p.
      destruct (decide (p < len1)) as [Hp|Hp]; [by apply Hsame|].
      rewrite !get_beyond; [done|fold len2; lia|fold len1; lia].
    + intros <-. unfold len1, len2. rewrite editTable_diag. simpl. lra.
Qed.

Lemma occurrences_not_in (words : list string) (w : string) :
  w ∉ words → occurrences words w = 0.
Proof.
  intros Hw. unfold occurrences.
  induction words as [|x words IH]; [done|].
  apply not_elem_of_cons in Hw as [Hne Hw].
  rewrite filter_cons_False by (intros ->; done). by apply IH.
Qed.

(** X15.  Two texts without a common token, one of them without any token
    for instance, are at [cosineDistance] 1. *)
Theorem cosineDistance_disjoint (t1 t2 : string) :
  (∀ w, w ∈ tokens t1 → w ∉ tokens t2) → cosineDistance t1 t2 = Num 1.
Proof.
  intros Hdisjoint. rewrite cosineDistance_sums. cbv zeta.
  set (vocabulary := new_Set (tokens t1 ++ tokens t2)).
  assert (sum_list_with (λ w, occurrences (tokens t1) w * occurrences (tokens t2) w)
            vocabulary = 0) as ->.
  { induction vocabulary as [|w l IH]; simpl; [done|]. rewrite IH.
    destruct (decide (w ∈ tokens t1)) as [Hin|Hout].
    - rewrite (occurrences_not_in (tokens t2)) by (by apply Hdisjoint). lia.
    - rewrite (occurrences_not_in (tokens t1)) by done. lia. }
  set (m1 := sum_list_with _ vocabulary). set (m2 := sum_list_with _ vocabulary).
  unfold ofNat, nsqrt.
  destruct (Rlt_dec (INR m1) 0) as [Hneg|_]; [pose proof (pos_INR m1); lra|].
  destruct (Rlt_dec (INR m2) 0) as [Hneg|_]; [pose proof (pos_INR m2); lra|].
  destruct (neqb (Num (sqrt (INR m1))) (Num 0)) eqn:H1; [done|].
  destruct (neqb (Num (sqrt (INR m2))) (Num 0)) eqn:H2; [done|].
  simpl in H1, H2. simpl.
  destruct (Req_dec_T (sqrt (INR m1)) 0) as [|Hm1]; [done|].
  destruct (Req_dec_T (sqrt (INR m2)) 0) as [|Hm2]; [done|].
  destruct (Req_dec_T (sqrt (INR m1) * sqrt (INR m2)) 0) as [Hz|_].
  - apply Rmult_integral in Hz as [Hz|Hz]; done.
  - f_equal. unfold Rdiv. lra.
Qed.

Lemma cosineDistance_disjoint_witness :
  (∀ w, w ∈ tokens "" → w ∉ tokens "good day")
  ∧ cosineDistance "" "good day" = Num 1.
Proof.
  assert (∀ w, w ∈ tokens "" → w ∉ tokens "good day") as Hnone.
  { intros w Hw. by apply elem_of_nil in Hw. }
  split; [exact Hnone|].
  exact (cosineDistance_disjoint "" "good day" Hnone).
Defined.

(** ** Evaluation *)

Lemma filter_length_all {A} (P : A → Prop) `{∀ x, Decision (P x)} (l : list A) :
  length (filter P l) = length l ↔ Forall P l.
Proof.
  induction l as [|x l IH]; [by split; [constructor|]|].
  rewrite filter_cons, Forall_cons. pose proof (length_filter P l).
  case_decide; simpl.
  - rewrite <- IH. split; [intros [= ?]; by split|intros [_ ->]; done].
  - split; [lia|tauto].
Qed.

(** X16.  On two documents or more [calculateRandIndex] returns the number
    of pairs of documents on which the two partitions agree over the number
    of pairs, a real between 0 and 1; it is 1 exactly when they agree on
    every pair. *)
Theorem calculateRandIndex_agreement (clusters1 : list nat)
    (clusters2 : list string) :
  2 ≤ length clusters1 →
  ∃ r, calculateRandIndex clusters1 clusters2 = Num r
       ∧ r = (INR (agreeingPairs clusters1 clusters2)
              / INR (length (documentPairs (length clusters1))))%R
       ∧ (0 <= r <= 1)%R
       ∧ (r = 1%R ↔ Forall (agree clusters1 clusters2)
                       (documentPairs (length clusters1))).
Proof.
  intros Hn.
  destruct (calculateRandIndex_pairs clusters1 clusters2 Hn) as [Heq Hrange].
  eexists. split; [exact Heq|]. split; [done|]. split; [done|].
  pose proof (documentPairs_length (length clusters1)) as Hpairs.
  assert (1 <= INR (length (documentPairs (length clusters1))))%R as Hpos.
  { apply INR_ge_1. nia. }
  rewrite Rdiv_eq_iff by lra. rewrite Rmult_1_l.
  rewrite <- filter_length_all. unfold agreeingPairs. split.
  - apply INR_eq.
  - by intros ->.
Qed.

Lemma calculateRandIndex_agreement_witness :
  2 ≤ length scenarioAssignment
  ∧ ∃ r, calculateRandIndex scenarioAssignment scenarioLabels = Num r
         ∧ r = (INR (agreeingPairs scenarioAssignment scenarioLabels)
                / INR (length (documentPairs (length scenarioAssignment))))%R
         ∧ (0 <= r <= 1)%R
         ∧ (r = 1%R ↔ Forall (agree scenarioAssignment scenarioLabels)
                         (documentPairs (length scenarioAssignment))).
Proof.
  assert (2 ≤ length scenarioAssignment) as Hn by (simpl; lia).
  split; [exact Hn|].
  exact (calculateRandIndex_agreement scenarioAssignment scenarioLabels Hn).
Defined.

Section JsMapFacts.
Context {K V : Type} `{EqDecision K}.
Implicit Types (m : list (K * V)) (k : K) (v : V).

Lemma map_get_set_eq m k v : map_get (map_set m k v) k = Some v.
Proof.
  induction m as [|[k' v'] m IH]; simpl; [by rewrite decide_True|].
  case_decide as Hk; simpl; [by rewrite decide_True|].
  by rewrite decide_False.
Qed.

Lemma map_get_set_ne m k k' v :
  k' ≠ k → map_get (map_set m k v) k' = map_get m k'.
Proof.
  intros Hne. induction m as [|[k0 v0] m IH]; simpl; [by rewrite decide_False|].
  case_decide as Hk; simpl.
  - subst k0. by rewrite !decide_False by done.
  - case_decide; [done|]. apply IH.
Qed.

Lemma map_get_None m k : k ∉ m.*1 → map_get m k = None.
Proof.
  induction m as [|[k0 v0] m IH]; simpl; [done|].
  intros Hk. apply not_elem_of_cons in Hk as [Hne Hk].
  rewrite decide_False by done. by apply IH.
Qed.

Lemma map_set_fst m k v x : x ∈ (map_set m k v).*1 ↔ x = k ∨ x ∈ m.*1.
Proof.
  induction m as [|[k0 v0] m IH]; simpl.
  - rewrite list_elem_of_singleton, elem_of_nil. tauto.
  - case_decide as Hk; simpl; rewrite !elem_of_cons.
    + subst k0. tauto.
    + rewrite IH. tauto.
Qed.

Lemma map_set_NoDup m k v : NoDup m.*1 → NoDup (map_set m k v).*1.
Proof.
  induction m as [|[k0 v0] m IH]; simpl; intros Hnd.
  - apply NoDup_singleton.
  - apply NoDup_cons in Hnd as [Hk0 Hnd]. case_decide as Hk; simpl.
    + by apply NoDup_cons.
    + apply NoDup_cons. split; [|by apply IH].
      rewrite map_set_fst. intros [->|Hin]; done.
Qed.
End JsMapFacts.

(** Every cluster is mapped to the dominant label of its counts. *)
Lemma clusterToLabel_get (m : list (nat * list (string * nat))) (c : nat) :
  NoDup m.*1 →
  map_get (clusterToLabel m) c = dominantLabel <$> map_get m c.
Proof.
  unfold clusterToLabel.
  assert (∀ acc, NoDup m.*1 →
            map_get (foldl (λ acc '(cluster, labelCounts),
                              map_set acc cluster (dominantLabel labelCounts))
                           acc m) c
            = match map_get m c with
              | Some lc => Some (dominantLabel lc)
              | None => map_get acc c
              end) as Hgen.
  { induction m as [|[c0 lc0] m IH]; intros acc Hnd; [done|].
    apply NoDup_cons in Hnd as [Hc0 Hnd]. cbn [foldl]. rewrite IH by done.
    simpl. case_decide as Hc.
    - subst c0. rewrite map_get_None by done. apply map_get_set_eq.
    - destruct (map_get m c); [done|]. by apply map_get_set_ne. }
  intros Hnd. rewrite Hgen by done. by destruct (map_get m c).
Qed.

(** A loop over a list with its index, with an invariant on the index. *)
Lemma reduce_from_index_invariant {A B} (P : nat → B → Prop)
    (f : B → A → nat → B) (l : list A) (acc : B) :
  P 0 acc →
  (∀ j x acc, l !! j = Some x → P j acc → P (S j) (f acc x j)) →
  P (length l) (reduce_from f 0 acc l).
Proof.
  intros H0 Hstep.
  assert (∀ suf pre acc, l = pre ++ suf → P (length pre) acc →
            P (length l) (reduce_from f (length pre) acc suf)) as Hgen.
  { induction suf as [|x suf IH]; intros pre acc' Hl Hacc; simpl.
    - subst l. by rewrite app_nil_r.
    - specialize (IH (pre ++ [x]) (f acc' x (length pre))).
      rewrite length_app in IH. simpl in IH. rewrite Nat.add_1_r in IH.
      apply IH.
      + by rewrite <- (assoc_L (++)).
      + apply Hstep; [|done]. subst l. by rewrite list_lookup_middle. }
  by apply (Hgen l []).
Qed.

Lemma countLabels_pure (predicted : list nat) (actual : list string) :
  length predicted = length actual → pure_clusters predicted actual →
  pure_counts predicted actual (length predicted) (countLabels predicted actual).
Proof.
  intros Hlen Hpure. unfold countLabels.
  apply (reduce_from_index_invariant (pure_counts predicted actual)).
  - split; [apply NoDup_nil_2|]. intros c p Hp. lia.
  - intros j x m Hj [Hnd Hinv].
    assert (j < length actual) as Hjlt by (apply lookup_lt_Some in Hj; lia).
    destruct (lookup_lt_is_Some_2 actual j Hjlt) as [L' HL'].
    rewrite HL'. cbn [default from_option Datatypes.id].
    pose proof (Hinv x) as Hx.
    destruct (map_get m x) as [lc|] eqn:Hget.
    + destruct Hx as (p & L & cnt & Hp & Hpx & HpL & -> & Hcnt).
      assert (L' = L) as ->.
      { pose proof (Hpure j p x Hj Hpx) as Heq. congruence. }
      rewrite Hget. cbn [default from_option Datatypes.id map_get map_set].
      rewrite !decide_True by done. cbn [default from_option Datatypes.id].
      split; [by apply map_set_NoDup|].
      intros c. destruct (decide (c = x)) as [->|Hne].
      * rewrite map_get_set_eq. exists p, L, (cnt + 1).
        split_and!; try done; lia.
      * rewrite map_get_set_ne by done. specialize (Hinv c).
        destruct (map_get m c) as [lc|].
        -- destruct Hinv as (q & Lq & cq & Hq & ?). exists q, Lq, cq.
           split; [lia|done].
        -- intros q Hq. destruct (decide (q = j)) as [->|Hqj]; [congruence|].
           apply Hinv. lia.
    + rewrite map_get_set_eq. cbn [default from_option Datatypes.id map_get map_set].
      split; [by do 2 apply map_set_NoDup|].
      intros c. destruct (decide (c = x)) as [->|Hne].
      * rewrite map_get_set_eq. exists j, L', 1.
        split_and!; try done; lia.
      * rewrite !map_get_set_ne by done. specialize (Hinv c).
        destruct (map_get m c) as [lc|].
        -- destruct Hinv as (q & Lq & cq & Hq & ?). exists q, Lq, cq.
           split; [lia|done].
        -- intros q Hq. destruct (decide (q = j)) as [->|Hqj]; [congruence|].
           apply Hinv. lia.
Qed.

(** X17.  When the documents of every cluster carry one ground-truth label,
    [calculateAccuracy] returns 1. *)
Theorem calculateAccuracy_pure (predicted : list nat) (actual : list string) :
  length predicted = length actual → predicted ≠ [] →
  pure_clusters predicted actual →
  calculateAccuracy predicted actual = Num 1.
Proof.
  intros Hlen Hne Hpure. unfold calculateAccuracy.
  rewrite decide_False by (intros Hc; by apply Hc).
  destruct (countLabels_pure predicted actual Hlen Hpure) as [Hnd Hcounts].
  set (toLabel := clusterToLabel (countLabels predicted actual)).
  assert (reduce_from
            (λ correct p i,
               if decide (map_get toLabel p = actual !! i) then correct + 1
               else correct) 0 0 predicted = length predicted) as ->.
  { apply (reduce_from_index_invariant (λ j (correct : nat), correct = j));
      [done|].
    intros j c correct Hj ->.
    rewrite decide_True; [lia|].
    unfold toLabel. rewrite clusterToLabel_get by done.
    specialize (Hcounts c).
    destruct (map_get (countLabels predicted actual) c) as [lc|].
    - destruct Hcounts as (p & L & cnt & _ & Hp & HL & -> & Hcnt).
      rewrite (Hpure j p c Hj Hp), HL. simpl.
      unfold dominantLabel. simpl. by rewrite decide_True by lia.
    - exfalso. apply (Hcounts j); [by eapply lookup_lt_Some|done]. }
  assert (1 ≤ length predicted) as Hpos.
  { destruct predicted; [done|simpl; lia]. }
  unfold ofNat. rewrite ndiv_Num by (apply INR_pos_ne; lia).
  f_equal. apply Rdiv_eq_iff; [|lra].
  apply Rlt_le_trans with 1%R; [lra|by apply INR_ge_1].
Qed.

Lemma pureAssignment_pure : pure_clusters pureAssignment scenarioLabels.
Proof.
  unfold pureAssignment, scenarioLabels. intros i j c Hi Hj.
  destruct i as [|[|[|i]]], j as [|[|[|j]]]; simpl in *;
    rewrite ?lookup_nil in *; congruence.
Qed.

Lemma calculateAccuracy_pure_witness :
  length pureAssignment = length scenarioLabels ∧ pureAssignment ≠ []
  ∧ pure_clusters pureAssignment scenarioLabels
  ∧ calculateAccuracy pureAssignment scenarioLabels = Num 1.
Proof.
  assert (length pureAssignment = length scenarioLabels) as Hlen by reflexivity.
  assert (pureAssignment ≠ []) as Hne by discriminate.
  split; [exact Hlen|]. split; [exact Hne|]. split; [exact pureAssignment_pure|].
  exact (calculateAccuracy_pure pureAssignment scenarioLabels Hlen Hne
           pureAssignment_pure).
Defined.

Lemma reduce_count_le {A} (P : A → nat → Prop) `{∀ x i, Decision (P x i)}
    (l : list A) (i acc : nat) :
  reduce_from (λ correct x i, if decide (P x i) then correct + 1 else correct)
    i acc l ≤ acc + length l.
Proof.
  revert i acc. induction l as [|x l IH]; intros i acc; simpl; [lia|].
  etrans; [apply IH|]. case_decide; lia.
Qed.

(** X19.  [formClusters] returns one label per document; the labels are
    0, 1, 2, ... in the order of their first appearance, so each is below
    the number of distinct labels and below [n]. *)
Theorem formClusters_labels (linkage : list ClusterNode) (k : Z) (n : nat) :
  length (formClusters linkage k n) = n
  ∧ new_Set (formClusters linkage k n)
    = seq 0 (length (new_Set (formClusters linkage k n)))
  ∧ Forall (λ c, c < length (new_Set (formClusters linkage k n)) ≤ n)
           (formClusters linkage k n).
Proof.
  pose proof (formClusters_length linkage k n) as Hlen.
  pose proof (formClusters_dense linkage k n) as Hdense.
  split; [done|]. split; [done|].
  apply Forall_forall. intros c Hc.
  apply elem_of_new_Set in Hc. rewrite Hdense in Hc.
  apply elem_of_seq in Hc. split; [lia|].
  rewrite <- Hlen at 2. apply new_Set_length_le.
Qed.

Lemma lower_char_idemp (c : ascii) : lower_char (lower_char c) = lower_char c.
Proof. destruct c as [[] [] [] [] [] [] [] []]; reflexivity. Qed.

Lemma toLowerCase_idemp (s : string) : toLowerCase (toLowerCase s) = toLowerCase s.
Proof.
  induction s as [|c s IH]; simpl; [done|]. by rewrite lower_char_idemp, IH.
Qed.

(** X20.  [dictionaryClassify] does not see the case of the letters of the
    text. *)
Theorem dictionaryClassify_case (positiveWordsFile negativeWordsFile text : string) :
  dictionaryClassify positiveWordsFile negativeWordsFile (toLowerCase text)
  = dictionaryClassify positiveWordsFile negativeWordsFile text.
Proof. unfold dictionaryClassify. by rewrite toLowerCase_idemp. Qed.

Lemma filter_none {A} (P : A → Prop) `{∀ x, Decision (P x)} (l : list A) :
  Forall (λ x, ¬ P x) l → filter P l = [].
Proof.
  induction 1 as [|x l Hx Hl IH]; [done|].
  by rewrite filter_cons_False.
Qed.

Lemma wordList_nonempty (file w : string) :
  w ∈ new_Set (filter (λ w, 0 < String.length w) (split_list (toLowerCase file))) →
  0 < String.length w.
Proof.
  rewrite elem_of_new_Set, list_elem_of_filter. tauto.
Qed.

(** X21.  A text none of whose words is in either word list is "neutral":
    the empty pieces that [split] leaves at the ends of the text are never
    counted, as the word lists hold no empty word. *)
Theorem dictionaryClassify_unlisted (positiveWordsFile negativeWordsFile text : string) :
  Forall (λ w, (w ∉ positiveWords positiveWordsFile)
               ∧ (w ∉ negativeWords negativeWordsFile))
         (tokens (toLowerCase text)) →
  dictionaryClassify positiveWordsFile negativeWordsFile text = "neutral".
Proof.
  intros Hwords. unfold dictionaryClassify.
  assert (∀ file,
            Forall (λ w, w ∉ new_Set (filter (λ w, 0 < String.length w)
                                       (split_list (toLowerCase file))))
                   (tokens (toLowerCase text)) →
            filter (λ w, set_has
                           (new_Set (filter (λ w, 0 < String.length w)
                                       (split_list (toLowerCase file)))) w = true)
                   (split_ws (toLowerCase text)) = []) as Hnone.
  { intros file Hfile. apply filter_none. apply Forall_forall. intros w Hw Hhas.
    unfold set_has in Hhas. apply bool_decide_eq_true in Hhas.
    rewrite Forall_forall in Hfile. apply (Hfile w); [|done].
    unfold tokens. apply list_elem_of_filter. split; [|done].
    by eapply wordList_nonempty. }
  unfold positiveWords, negativeWords in *.
  rewrite !Hnone.
  - done.
  - eapply Forall_impl; [exact Hwords|]. intros w Hw. simpl in Hw. tauto.
  - eapply Forall_impl; [exact Hwords|]. intros w Hw. simpl in Hw. tauto.
Qed.

Lemma dictionaryClassify_unlisted_witness :
  Forall (λ w, (w ∉ positiveWords samplePositiveFile)
               ∧ (w ∉ negativeWords sampleNegativeFile))
         (tokens (toLowerCase plainText))
  ∧ dictionaryClassify samplePositiveFile sampleNegativeFile plainText = "neutral".
Proof.
  assert (Forall (λ w, (w ∉ positiveWords samplePositiveFile)
                       ∧ (w ∉ negativeWords sampleNegativeFile))
                 (tokens (toLowerCase plainText))) as Hwords.
  { apply (bool_decide_unpack _). vm_compute. exact I. }
  split; [exact Hwords|].
  exact (dictionaryClassify_unlisted samplePositiveFile sampleNegativeFile
           plainText Hwords).
Defined.

(* ---------------------------------------------------------------------- *)
(** ** The confusion matrix *)

Section JsMapLift.
Context {K K' V W : Type} `{EqDecision K} `{EqDecision K'}.

Lemma map_get_fmap_value (g : V → W) (m : list (K * V)) (k : K) :
  map_get (prod_map Datatypes.id g <$> m) k = g <$> map_get m k.
Proof.
  induction m as [|[k0 v0] m IH]; simpl; [done|]. by case_decide.
Qed.

Lemma map_set_fmap_value (g : V → W) (m : list (K * V)) (k : K) (v : V) :
  map_set (prod_map Datatypes.id g <$> m) k (g v)
  = prod_map Datatypes.id g <$> map_set m k v.
Proof.
  induction m as [|[k0 v0] m IH]; simpl; [done|].
  case_decide; simpl; [done|]. f_equal. apply IH.
Qed.

Lemma map_get_fmap_key (f : K → K') `{!Inj (=) (=) f} (m : list (K * V)) (k : K) :
  map_get (prod_map f Datatypes.id <$> m) (f k) = map_get m k.
Proof.
  induction m as [|[k0 v0] m IH]; simpl; [done|].
  destruct (decide (k0 = k)) as [->|Hne].
  - by rewrite decide_True.
  - rewrite decide_False; [done|]. intros Hf. by apply Hne, (inj f).
Qed.

Lemma map_set_fmap_key (f : K → K') `{!Inj (=) (=) f} (m : list (K * V)) (k : K)
    (v : V) :
  map_set (prod_map f Datatypes.id <$> m) (f k) v
  = prod_map f Datatypes.id <$> map_set m k v.
Proof.
  induction m as [|[k0 v0] m IH]; simpl; [done|].
  destruct (decide (k0 = k)) as [->|Hne].
  - by rewrite decide_True.
  - rewrite decide_False; [simpl; f_equal; apply IH|].
    intros Hf. by apply Hne, (inj f).
Qed.

Lemma map_set_entries (P : K * V → Prop) (m : list (K * V)) (k : K) (v : V) :
  Forall P m → P (k, v) → Forall P (map_set m k v).
Proof.
  intros Hm Hv. induction m as [|[k0 v0] m IH]; simpl.
  - by constructor.
  - apply Forall_cons in Hm as [Hv0 Hm]. case_decide; subst; constructor; auto.
Qed.

Lemma map_set_not_nil (m : list (K * V)) (k : K) (v : V) : map_set m k v ≠ [].
Proof. destruct m as [|[k0 v0] m]; simpl; [done|]. by case_decide. Qed.
End JsMapLift.

Lemma reduce_from_related {A B C} (R : nat → B → C → Prop)
    (f : B → A → nat → B) (g : C → A → nat → C) (l : list A) (b : B) (c : C) :
  R 0 b c →
  (∀ j x b c, l !! j = Some x → R j b c → R (S j) (f b x j) (g c x j)) →
  R (length l) (reduce_from f 0 b l) (reduce_from g 0 c l).
Proof.
  intros H0 Hstep.
  assert (∀ suf pre b c, l = pre ++ suf → R (length pre) b c →
            R (length l) (reduce_from f (length pre) b suf)
              (reduce_from g (length pre) c suf)) as Hgen.
  { induction suf as [|x suf IH]; intros pre b' c' Hl Hacc; simpl.
    - subst l. by rewrite app_nil_r.
    - specialize (IH (pre ++ [x]) (f b' x (length pre)) (g c' x (length pre))).
      rewrite length_app in IH. simpl in IH. rewrite Nat.add_1_r in IH.
      apply IH.
      + by rewrite <- (assoc_L (++)).
      + apply Hstep; [|done]. subst l. by rewrite list_lookup_middle. }
  by apply (Hgen l []).
Qed.

Section LabelCountFacts.
Context {L : Type} `{EqDecision L}.
Implicit Types (labelAt : nat → L) (m : list (nat * list (L * nat))).

Lemma countLabel_get labelAt m (x j c : nat) :
  map_get (countLabel labelAt m x j) c
  = if decide (c = x)
    then Some (map_set (default [] (map_get m x)) (labelAt j)
                 (default 0 (map_get (default [] (map_get m x)) (labelAt j)) + 1))
    else map_get m c.
Proof.
  unfold countLabel. cbv zeta.
  destruct (map_get m x) as [lc|] eqn:Hget.
  - rewrite Hget. case_decide as Hc.
    + subst c. apply map_get_set_eq.
    + by apply map_get_set_ne.
  - rewrite map_get_set_eq. case_decide as Hc.
    + subst c. apply map_get_set_eq.
    + by rewrite !map_get_set_ne.
Qed.

Lemma countLabel_NoDup labelAt m (x j : nat) :
  NoDup m.*1 → NoDup (countLabel labelAt m x j).*1.
Proof.
  intros Hnd. unfold countLabel. cbv zeta.
  destruct (map_get m x); by repeat apply map_set_NoDup.
Qed.

Lemma countLabelsOf_ok labelAt (predicted : list nat) :
  counts_ok labelAt predicted (length predicted) (countLabelsOf labelAt predicted).
Proof.
  unfold countLabelsOf.
  apply (reduce_from_index_invariant (counts_ok labelAt predicted)).
  - split; [apply NoDup_nil_2|]. split; [intros; lia|done].
  - intros j x m Hj (Hnd & Hkeys & Hcounts).
    split; [by apply countLabel_NoDup|]. split.
    + intros p c Hp Hc. rewrite countLabel_get. case_decide; [done|].
      destruct (decide (p = j)) as [->|Hpj]; [congruence|].
      apply (Hkeys p); [lia|done].
    + intros c lc. rewrite countLabel_get. case_decide as Hc.
      * intros [= <-]. split; [apply map_set_not_nil|].
        apply map_set_entries.
        -- destruct (map_get m x) as [lc0|] eqn:Hget; simpl; [|done].
           destruct (Hcounts x lc0 Hget) as [_ Hall].
           eapply Forall_impl; [exact Hall|].
           intros e (He & p & Hp & Hep). split; [done|]. exists p. split; [lia|done].
        -- simpl. split; [lia|]. exists j. split; [lia|done].
      * intros Hget. destruct (Hcounts c lc Hget) as [Hne Hall].
        split; [done|]. eapply Forall_impl; [exact Hall|].
        intros e (He & p & Hp & Hep). split; [done|]. exists p. split; [lia|done].
Qed.

Lemma dominant_fold_in (lc : list (L * nat)) (acc : nat * L) :
  let res := foldl (λ '(maxCount, maxLabel) '(lbl, cnt),
                      if decide (maxCount < cnt) then (cnt, lbl)
                      else (maxCount, maxLabel)) acc lc in
  res.2 = acc.2 ∨ res.2 ∈ lc.*1.
Proof.
  revert acc. induction lc as [|[l0 c0] lc IH]; intros [mc ml]; [by left|].
  cbn [foldl]. cbv zeta in IH. case_decide.
  - destruct (IH (c0, l0)) as [->|Hin]; right; [left|by right].
  - destruct (IH (mc, ml)) as [->|Hin]; [by left|right; by right].
Qed.

Lemma dominantOf_in (start : L) (lc : list (L * nat)) :
  lc ≠ [] → Forall (λ e, 1 ≤ e.2) lc → dominantOf start lc ∈ lc.*1.
Proof.
  destruct lc as [|[l0 c0] lc]; [done|]. intros _ Hall.
  apply Forall_cons in Hall as [Hc0 _]. simpl in Hc0.
  unfold dominantOf. cbn [foldl]. rewrite decide_True by lia.
  destruct (dominant_fold_in lc (c0, l0)) as [Heq|Hin].
  - cbv zeta in Heq. rewrite Heq. by left.
  - by right.
Qed.

Lemma clusterToLabelOf_get (start : L) m (c : nat) :
  NoDup m.*1 →
  map_get (clusterToLabelOf start m) c = dominantOf start <$> map_get m c.
Proof.
  unfold clusterToLabelOf.
  assert (∀ acc, NoDup m.*1 →
            map_get (foldl (λ acc '(cluster, labelCounts),
                              map_set acc cluster (dominantOf start labelCounts))
                           acc m) c
            = match map_get m c with
              | Some lc => Some (dominantOf start lc)
              | None => map_get acc c
              end) as Hgen.
  { induction m as [|[c0 lc0] m IH]; intros acc Hnd; [done|].
    apply NoDup_cons in Hnd as [Hc0 Hnd]. cbn [foldl]. rewrite IH by done.
    simpl. case_decide as Hc.
    - subst c0. rewrite map_get_None by done. apply map_get_set_eq.
    - destruct (map_get m c); [done|]. by apply map_get_set_ne. }
  intros Hnd. rewrite Hgen by done. by destruct (map_get m c).
Qed.
End LabelCountFacts.

Lemma get_defined_clusters (m : list (nat * list (string * nat))) (x : nat) :
  map_get (defined_clusters m) x = defined_counts <$> map_get m x.
Proof. apply map_get_fmap_value. Qed.

Lemma set_defined_clusters (m : list (nat * list (string * nat))) (x : nat)
    (lc : list (string * nat)) :
  map_set (defined_clusters m) x (defined_counts lc)
  = defined_clusters (map_set m x lc).
Proof. apply map_set_fmap_value. Qed.

Lemma get_defined_counts (lc : list (string * nat)) (a : string) :
  map_get (defined_counts lc) (Some a) = map_get lc a.
Proof. apply (map_get_fmap_key Some). Qed.

Lemma set_defined_counts (lc : list (string * nat)) (a : string) (v : nat) :
  map_set (defined_counts lc) (Some a) v = defined_counts (map_set lc a v).
Proof. apply (map_set_fmap_key Some). Qed.

(** With no more documents than labels, no label is [undefined]: the counts
    of [createConfusionMatrix] are those of [calculateAccuracy]. *)
Lemma countLabelsOf_defined (predicted : list nat) (actual : list string) :
  length predicted ≤ length actual →
  countLabelsOf (λ i, actual !! i) predicted
  = defined_clusters (countLabels predicted actual).
Proof.
  intros Hlen.
  change (countLabels predicted actual)
    with (countLabelsOf (λ i, default EmptyString (actual !! i)) predicted).
  unfold countLabelsOf.
  apply (reduce_from_related (λ _ mU m, mU = defined_clusters m)); [done|].
  intros j x mU m Hj ->.
  assert (j < length actual) as Hjlt by (apply lookup_lt_Some in Hj; lia).
  destruct (lookup_lt_is_Some_2 actual j Hjlt) as [a Ha].
  unfold countLabel. cbv zeta. rewrite Ha. cbn [default from_option Datatypes.id].
  rewrite get_defined_clusters.
  destruct (map_get m x) as [lc|] eqn:Hget; cbn [fmap option_fmap option_map].
  - rewrite get_defined_clusters, Hget.
    cbn [fmap option_fmap option_map default from_option Datatypes.id].
    rewrite get_defined_counts, set_defined_counts.
    apply set_defined_clusters.
  - rewrite !map_get_set_eq.
    cbn [default from_option Datatypes.id map_get map_set].
    rewrite <- !set_defined_clusters. reflexivity.
Qed.

Lemma dominantOf_defined (lc : list (string * nat)) :
  dominantOf (Some EmptyString) (defined_counts lc) = Some (dominantLabel lc).
Proof.
  unfold dominantOf, dominantLabel, defined_counts.
  assert (∀ mc ml,
            foldl (λ '(maxCount, maxLabel) '(lbl, cnt),
                     if decide (maxCount < cnt) then (cnt, lbl)
                     else (maxCount, maxLabel))
                  (mc, Some ml) (prod_map Some Datatypes.id <$> lc)
            = prod_map Datatypes.id Some
                (foldl (λ '(maxCount, maxLabel) '(lbl, cnt),
                          if decide (maxCount < cnt) then (cnt, lbl)
                          else (maxCount, maxLabel))
                       (mc, ml) lc)) as Hgen.
  { induction lc as [|[l0 c0] lc IH]; intros mc ml; [done|].
    simpl. case_decide; apply IH. }
  rewrite Hgen. by destruct (foldl _ _ lc).
Qed.

Lemma clusterToLabelOf_defined (m : list (nat * list (string * nat))) :
  clusterToLabelOf (Some EmptyString) (defined_clusters m)
  = prod_map Datatypes.id Some <$> clusterToLabel m.
Proof.
  unfold clusterToLabelOf, clusterToLabel, defined_clusters.
  assert (∀ acc,
            foldl (λ acc '(cluster, labelCounts),
                     map_set acc cluster (dominantOf (Some EmptyString) labelCounts))
                  (prod_map Datatypes.id Some <$> acc)
                  (prod_map Datatypes.id defined_counts <$> m)
            = prod_map Datatypes.id Some
              <$> foldl (λ acc '(cluster, labelCounts),
                           map_set acc cluster (dominantLabel labelCounts))
                        acc m) as Hgen.
  { induction m as [|[c0 lc0] m IH]; intros acc; [done|].
    simpl. rewrite dominantOf_defined.
    rewrite (map_set_fmap_value Some). apply IH. }
  apply (Hgen []).
Qed.

Section IndexOf.
Context {A : Type} `{EqDecision A}.

Lemma indexOf_lookup (l : list A) (x : A) (i : nat) :
  indexOf l x = Some i → l !! i = Some x.
Proof.
  revert i. induction l as [|y l IH]; intros i; simpl; [done|].
  case_decide as Hy; [by intros [= <-]; subst|].
  destruct (indexOf l x) as [i'|]; simpl; [|done].
  intros [= <-]. by apply IH.
Qed.

Lemma indexOf_elem (l : list A) (x : A) : x ∈ l → is_Some (indexOf l x).
Proof.
  induction l as [|y l IH]; intros Hx; [by apply elem_of_nil in Hx|]. simpl.
  case_decide as Hy; [done|].
  apply elem_of_cons in Hx as [->|Hx]; [done|].
  destruct (IH Hx) as [i ->]. done.
Qed.
End IndexOf.

Lemma sum_list_insert (l : list nat) (i x y : nat) :
  l !! i = Some x → sum_list (<[i := y]> l) + x = sum_list l + y.
Proof.
  revert i. induction l as [|z l IH]; intros i Hi; [done|].
  destruct i as [|i]; simpl in *.
  - inversion Hi; subst. lia.
  - specialize (IH i Hi). lia.
Qed.

Lemma sum_seq_same (f g : nat → nat) (n : nat) :
  (∀ i, i < n → g i = f i) →
  sum_list (g <$> seq 0 n) = sum_list (f <$> seq 0 n).
Proof.
  intros Hfg. f_equal. apply list_fmap_ext. intros i x Hx.
  apply lookup_seq in Hx as [-> Hx]. by apply Hfg.
Qed.

Lemma sum_seq_update (f g : nat → nat) (n t : nat) :
  t < n → g t = f t + 1 → (∀ i, i < n → i ≠ t → g i = f i) →
  sum_list (g <$> seq 0 n) = sum_list (f <$> seq 0 n) + 1.
Proof.
  induction n as [|n IH]; intros Ht Hgt Hother; [lia|].
  rewrite !seq_S, !fmap_app, !sum_list_with_app. simpl.
  destruct (decide (t = n)) as [->|Hne].
  - rewrite (sum_seq_same f g n) by (intros i Hi; apply Hother; lia). lia.
  - rewrite IH by (try done; try lia; intros i Hi ?; apply Hother; lia).
    rewrite (Hother n) by lia. lia.
Qed.

Lemma cell_set_in_range (n : nat) (m : list (list nat)) (t p v : nat) :
  square n m → t < n → p < n →
  ∃ row, m !! t = Some row ∧ length row = n
         ∧ cell_set m t p v = <[t := <[p := v]> row]> m.
Proof.
  intros [Hlen Hrows] Ht Hp.
  destruct (lookup_lt_is_Some_2 m t) as [row Hrow]; [lia|].
  assert (length row = n) as Hr by (eapply Hrows, list_elem_of_lookup_2, Hrow).
  exists row. split; [done|]. split; [done|].
  unfold cell_set, array_set. rewrite Hrow. by rewrite decide_True by lia.
Qed.

Lemma cell_set_square (n : nat) (m : list (list nat)) (t p v : nat) :
  square n m → p < n → square n (cell_set m t p v).
Proof.
  intros Hsq Hp. pose proof Hsq as [Hlen Hrows]. unfold cell_set.
  destruct (m !! t) as [row|] eqn:Hrow; [|done].
  assert (length row = n) as Hr by (eapply Hrows, list_elem_of_lookup_2, Hrow).
  split; [by rewrite length_insert|].
  intros row' Hrow'. apply list_elem_of_lookup in Hrow' as [i Hi].
  destruct (decide (i = t)) as [->|Hne].
  - rewrite list_lookup_insert_eq in Hi by (by eapply lookup_lt_Some).
    inversion Hi. unfold array_set. rewrite decide_True by lia.
    by rewrite length_insert.
  - rewrite list_lookup_insert_ne in Hi by done.
    eapply Hrows, list_elem_of_lookup_2, Hi.
Qed.

Lemma cell_cell_set (n : nat) (m : list (list nat)) (t p v i j : nat) :
  square n m → t < n → p < n →
  cell (cell_set m t p v) i j
  = if decide (i = t ∧ j = p) then v else cell m i j.
Proof.
  intros Hsq Ht Hp.
  destruct (cell_set_in_range n m t p v Hsq Ht Hp) as (row & Hrow & Hr & ->).
  unfold cell. destruct (decide (i = t)) as [->|Hit].
  - rewrite list_lookup_insert_eq by (by eapply lookup_lt_Some).
    rewrite Hrow. simpl. destruct (decide (j = p)) as [->|Hjp].
    + rewrite decide_True by done.
      by rewrite list_lookup_insert_eq by lia.
    + rewrite decide_False by tauto.
      by rewrite list_lookup_insert_ne by done.
  - rewrite decide_False by tauto.
    by rewrite list_lookup_insert_ne by done.
Qed.

Lemma matrixTotal_cell_set (n : nat) (m : list (list nat)) (t p : nat) :
  square n m → t < n → p < n →
  matrixTotal (cell_set m t p (cell m t p + 1)) = matrixTotal m + 1.
Proof.
  intros Hsq Ht Hp.
  destruct (cell_set_in_range n m t p (cell m t p + 1) Hsq Ht Hp)
    as (row & Hrow & Hr & ->).
  destruct (lookup_lt_is_Some_2 row p) as [v Hv]; [lia|].
  assert (cell m t p = v) as -> by (unfold cell; by rewrite Hrow; simpl; rewrite Hv).
  unfold matrixTotal. rewrite list_fmap_insert.
  pose proof (sum_list_insert row p v (v + 1) Hv) as Hin.
  pose proof (sum_list_insert (sum_list <$> m) t (sum_list row)
                (sum_list (<[p := v + 1]> row))) as Hout.
  rewrite list_lookup_fmap, Hrow in Hout. specialize (Hout eq_refl). lia.
Qed.

Lemma matrixTrace_cell_set (n : nat) (m : list (list nat)) (t p : nat) :
  square n m → t < n → p < n →
  matrixTrace (cell_set m t p (cell m t p + 1))
  = matrixTrace m + (if decide (t = p) then 1 else 0).
Proof.
  intros Hsq Ht Hp. unfold matrixTrace.
  pose proof (cell_set_square n m t p (cell m t p + 1) Hsq Hp) as [Hlen' _].
  pose proof Hsq as [Hlen _]. rewrite Hlen', Hlen.
  case_decide as Htp.
  - subst p. apply (sum_seq_update _ _ n t); [done| |].
    + rewrite (cell_cell_set n) by done. by rewrite decide_True.
    + intros i Hi Hne. rewrite (cell_cell_set n) by done.
      by rewrite decide_False by tauto.
  - rewrite Nat.add_0_r. apply sum_seq_same. intros i Hi.
    rewrite (cell_cell_set n) by done.
    rewrite decide_False; [done|]. intros [-> ->]. done.
Qed.

Lemma filled_start (n : nat) : filled n 0 (replicate n (replicate n 0)) 0.
Proof.
  split; [|split].
  - split; [apply length_replicate|].
    intros row Hrow. apply elem_of_replicate in Hrow as [-> _].
    apply length_replicate.
  - unfold matrixTotal. rewrite fmap_replicate.
    rewrite !sum_list_replicate. lia.
  - unfold matrixTrace. rewrite length_replicate.
    rewrite (sum_seq_same (λ _, 0)).
    + rewrite sum_list_fmap_const. lia.
    + intros i Hi. unfold cell.
      rewrite lookup_replicate_2 by done. simpl.
      by rewrite lookup_replicate_2 by done.
Qed.

#[local] Instance string_le_total : Total string_le.
Proof. intros s1 s2. apply String.leb_total. Qed.

Lemma sorted_labels (actual : list string) :
  NoDup (merge_sort string_le (new_Set actual))
  ∧ Sorted string_le (merge_sort string_le (new_Set actual))
  ∧ ∀ s, s ∈ merge_sort string_le (new_Set actual) ↔ s ∈ actual.
Proof.
  split; [|split].
  - rewrite merge_sort_Permutation. apply new_Set_NoDup.
  - apply (Sorted_merge_sort string_le).
  - intros s. rewrite merge_sort_Permutation. apply elem_of_new_Set.
Qed.

Lemma indexOf_label (actual : list string) (s : string) :
  s ∈ actual →
  ∃ i, indexOf (merge_sort string_le (new_Set actual)) s = Some i
       ∧ i < length (merge_sort string_le (new_Set actual)).
Proof.
  intros Hs. destruct (sorted_labels actual) as (_ & _ & Hin).
  destruct (indexOf_elem (merge_sort string_le (new_Set actual)) s) as [i Hi].
  { by apply Hin. }
  exists i. split; [done|].
  apply indexOf_lookup in Hi. by eapply lookup_lt_Some.
Qed.

(** The last loop of [createConfusionMatrix] beside the counter of
    [calculateAccuracy]: every document adds one to an entry of the matrix,
    on the diagonal when [calculateAccuracy] counts the document. *)
Lemma createConfusionMatrix_filled (predicted : list nat) (actual : list string) :
  length predicted ≤ length actual →
  filled (length (labels (createConfusionMatrix predicted actual)))
         (length predicted)
         (matrix (createConfusionMatrix predicted actual))
         (reduce_from
            (λ correct p i,
               if decide (map_get (clusterToLabel (countLabels predicted actual)) p
                          = actual !! i)
               then correct + 1 else correct) 0 0 predicted).
Proof.
  intros Hlen. unfold createConfusionMatrix. cbv zeta. cbn [matrix labels].
  rewrite countLabelsOf_defined, clusterToLabelOf_defined by done.
  pose proof (countLabelsOf_ok (λ i, default EmptyString (actual !! i)) predicted)
    as (Hnd & Hkeys & Hcounts).
  change (countLabelsOf (λ i, default EmptyString (actual !! i)) predicted)
    with (countLabels predicted actual) in Hnd, Hkeys, Hcounts.
  set (counts := countLabels predicted actual) in *.
  set (sorted := merge_sort string_le (new_Set actual)).
  destruct (sorted_labels actual) as (Hdistinct & _ & Hin). fold sorted in Hdistinct, Hin.
  apply (reduce_from_related (filled (length sorted))); [apply filled_start|].
  intros j x m correct Hj (Hsq & Htotal & Htrace).
  assert (j < length predicted) as Hjp by (by eapply lookup_lt_Some).
  destruct (lookup_lt_is_Some_2 actual j) as [a Ha]; [lia|].
  rewrite Ha. cbn [mbind option_bind].
  rewrite map_get_fmap_value.
  destruct (Hkeys j x Hjp Hj) as [lc Hlc].
  rewrite (clusterToLabel_get counts x Hnd), Hlc.
  cbn [fmap option_fmap option_map].
  destruct (Hcounts x lc Hlc) as [Hne Hall].
  assert (dominantLabel lc ∈ actual) as Hdom.
  { pose proof (dominantOf_in EmptyString lc Hne) as Hd.
    change (dominantOf EmptyString lc) with (dominantLabel lc) in Hd.
    apply list_elem_of_fmap in Hd as ([l0 c0] & Hl0 & He).
    - rewrite Forall_forall in Hall. destruct (Hall _ He) as (_ & p & Hp & Hlab).
      simpl in Hl0, Hlab. rewrite Hl0, Hlab.
      destruct (lookup_lt_is_Some_2 actual p) as [b Hb]; [lia|].
      rewrite Hb. simpl. by eapply list_elem_of_lookup_2.
    - eapply Forall_impl; [exact Hall|]. intros e He. apply He. }
  destruct (indexOf_label actual (dominantLabel lc) Hdom) as (pi & Hpi & Hpilt).
  destruct (indexOf_label actual a) as (ti & Hti & Htilt).
  { by eapply list_elem_of_lookup_2. }
  fold sorted in Hpi, Hpilt, Hti, Htilt. rewrite Hpi, Hti.
  split; [by apply cell_set_square|]. split.
  - rewrite (matrixTotal_cell_set (length sorted)) by done. lia.
  - rewrite (matrixTrace_cell_set (length sorted)) by done.
    apply indexOf_lookup in Hpi, Hti.
    destruct (decide (ti = pi)) as [->|Hne'].
    + rewrite decide_True; [lia|]. congruence.
    + rewrite decide_False; [lia|]. intros [= Heq]. apply Hne'.
      eapply NoDup_lookup; [exact Hdistinct|exact Hti|]. by rewrite Hpi, Heq.
Qed.

(** X22.  The labels of the confusion matrix are the distinct ground-truth
    labels in the order of their code units, and the matrix has one row and
    one column for each of them. *)
Theorem createConfusionMatrix_shape (predicted : list nat) (actual : list string) :
  NoDup (labels (createConfusionMatrix predicted actual))
  ∧ Sorted string_le (labels (createConfusionMatrix predicted actual))
  ∧ (∀ s, s ∈ labels (createConfusionMatrix predicted actual) ↔ s ∈ actual)
  ∧ square (length (labels (createConfusionMatrix predicted actual)))
           (matrix (createConfusionMatrix predicted actual)).
Proof.
  unfold createConfusionMatrix. cbv zeta. cbn [matrix labels].
  destruct (sorted_labels actual) as (Hdistinct & Hsorted & Hin).
  split_and!; try done.
  apply (reduce_from_invariant
           (square (length (merge_sort string_le (new_Set actual))))).
  - apply filled_start.
  - intros m p j Hsq.
    destruct (indexOf _ _) as [pi|] eqn:Hpi; [|done].
    destruct (actual !! j ≫= _) as [ti|]; [|done].
    apply cell_set_square; [done|].
    apply indexOf_lookup in Hpi. by eapply lookup_lt_Some.
Qed.

(** X23.  With no more documents than ground-truth labels, every document
    is counted once in the confusion matrix: its entries add up to the
    number of documents. *)
Theorem createConfusionMatrix_total (predicted : list nat) (actual : list string) :
  length predicted ≤ length actual →
  matrixTotal (matrix (createConfusionMatrix predicted actual)) = length predicted.
Proof.
  intros Hlen.
  by destruct (createConfusionMatrix_filled predicted actual Hlen) as (_ & ? & _).
Qed.

Lemma createConfusionMatrix_total_witness :
  length scenarioAssignment ≤ length scenarioLabels
  ∧ matrixTotal (matrix (createConfusionMatrix scenarioAssignment scenarioLabels))
    = length scenarioAssignment.
Proof.
  assert (length scenarioAssignment ≤ length scenarioLabels) as Hlen
    by (simpl; lia).
  split; [exact Hlen|].
  exact (createConfusionMatrix_total scenarioAssignment scenarioLabels Hlen).
Defined.

(** X24.  The accuracy is the diagonal of the confusion matrix over the
    number of documents. *)
Theorem calculateAccuracy_diagonal (predicted : list nat) (actual : list string) :
  length predicted = length actual → predicted ≠ [] →
  calculateAccuracy predicted actual
  = Num (INR (matrixTrace (matrix (createConfusionMatrix predicted actual)))
         / INR (length predicted)).
Proof.
  intros Hlen Hne.
  destruct (createConfusionMatrix_filled predicted actual) as (_ & _ & ->); [lia|].
  unfold calculateAccuracy. rewrite decide_False by (intros Hc; by apply Hc).
  unfold ofNat. apply ndiv_Num, INR_pos_ne.
  destruct predicted; [done|simpl; lia].
Qed.

Lemma calculateAccuracy_diagonal_witness :
  length scenarioAssignment = length scenarioLabels ∧ scenarioAssignment ≠ []
  ∧ calculateAccuracy scenarioAssignment scenarioLabels
    = Num (INR (matrixTrace
                  (matrix (createConfusionMatrix scenarioAssignment scenarioLabels)))
           / INR (length scenarioAssignment)).
Proof.
  assert (length scenarioAssignment = length scenarioLabels) as Hlen by reflexivity.
  assert (scenarioAssignment ≠ []) as Hne by discriminate.
  split; [exact Hlen|]. split; [exact Hne|].
  exact (calculateAccuracy_diagonal scenarioAssignment scenarioLabels Hlen Hne).
Defined.

(** ** The accuracy counts the documents that carry the dominant label of
       their cluster *)

Section KeyedList.
Context {K V : Type} `{EqDecision K}.

Lemma keyed_get (f : K → V) (u : list K) (a : K) :
  map_get ((λ l, (l, f l)) <$> u) a
  = if decide (a ∈ u) then Some (f a) else None.
Proof.
  induction u as [|x u IH]; [done|]. rewrite fmap_cons. cbn [map_get].
  destruct (decide (x = a)) as [->|Hne].
  - by rewrite decide_True by left.
  - rewrite IH. destruct (decide (a ∈ u)) as [Hin|Hnin].
    + by rewrite decide_True by (by right).
    + rewrite decide_False; [done|].
      intros Hc. apply elem_of_cons in Hc as [->|?]; done.
Qed.

Lemma set_add_cons_ne (x a : K) (u : list K) :
  x ≠ a → set_add (x :: u) a = x :: set_add u a.
Proof.
  intros Hne. unfold set_add.
  destruct (decide (a ∈ u)) as [Hin|Hnin].
  - by rewrite decide_True by (by right).
  - rewrite decide_False; [done|].
    intros Hc. apply elem_of_cons in Hc as [->|?]; done.
Qed.

Lemma keyed_set (f g : K → V) (u : list K) (a : K) :
  NoDup u → (∀ l, l ∈ u → l ≠ a → g l = f l) →
  map_set ((λ l, (l, f l)) <$> u) a (g a) = (λ l, (l, g l)) <$> set_add u a.
Proof.
  induction u as [|x u IH]; intros Hnd Hsame.
  - unfold set_add. by rewrite decide_False by apply not_elem_of_nil.
  - apply NoDup_cons in Hnd as [Hx Hnd]. rewrite fmap_cons. cbn [map_set].
    destruct (decide (x = a)) as [->|Hne].
    + unfold set_add. rewrite decide_True by left. rewrite fmap_cons. f_equal.
      apply list_fmap_ext. intros i l Hl. f_equal. symmetry. apply Hsame.
      * right. by eapply list_elem_of_lookup_2.
      * intros ->. apply Hx. by eapply list_elem_of_lookup_2.
    + rewrite set_add_cons_ne by done. rewrite fmap_cons.
      rewrite (Hsame x) by (done || by left). f_equal.
      apply IH; [done|]. intros l Hl. apply Hsame. by right.
Qed.
End KeyedList.

Lemma clusterMembers_S (predicted : list nat) (j c x : nat) :
  predicted !! j = Some x →
  clusterMembers predicted (S j) c
  = clusterMembers predicted j c ++ (if decide (x = c) then [j] else []).
Proof.
  intros Hj. unfold clusterMembers. rewrite seq_S, filter_app. simpl. f_equal.
  case_decide as Hc.
  - subst c. by rewrite filter_cons_True, filter_nil by done.
  - rewrite filter_cons_False, filter_nil; [done|]. congruence.
Qed.

Lemma clusterMembers_lt (predicted : list nat) (j c i : nat) :
  i ∈ clusterMembers predicted j c → i < j ∧ predicted !! i = Some c.
Proof.
  unfold clusterMembers. rewrite list_elem_of_filter, elem_of_seq. intros [? ?].
  split; [lia|done].
Qed.

(** A label that no document of the cluster carries has no vote. *)
Lemma labelVotes_unseen (predicted : list nat) (actual : list string)
    (j c : nat) (l : string) :
  l ∉ clusterLabelsSeen predicted actual j c →
  labelVotes predicted actual j c l = 0.
Proof.
  unfold clusterLabelsSeen, labelVotes. rewrite elem_of_new_Set. intros Hl.
  rewrite filter_none; [done|].
  apply Forall_forall. intros i Hi Hlab. apply Hl.
  apply list_elem_of_omap. by exists i.
Qed.

(** A label of the cluster has a vote. *)
Lemma labelVotes_seen (predicted : list nat) (actual : list string)
    (j c : nat) (l : string) :
  l ∈ clusterLabelsSeen predicted actual j c →
  1 ≤ labelVotes predicted actual j c l.
Proof.
  unfold clusterLabelsSeen, labelVotes. rewrite elem_of_new_Set.
  intros Hl. apply list_elem_of_omap in Hl as (i & Hi & Hlab).
  assert (i ∈ filter (λ i, actual !! i = Some l) (clusterMembers predicted j c))
    as Hin by (by apply list_elem_of_filter).
  destruct (filter _ _); [by apply elem_of_nil in Hin|simpl; lia].
Qed.

Lemma labelVotes_S (predicted : list nat) (actual : list string)
    (j x : nat) (a l : string) :
  predicted !! j = Some x → actual !! j = Some a →
  labelVotes predicted actual (S j) x l
  = labelVotes predicted actual j x l + (if decide (l = a) then 1 else 0).
Proof.
  intros Hj Ha. unfold labelVotes.
  rewrite (clusterMembers_S predicted j x x Hj), decide_True by done.
  rewrite filter_app, length_app. f_equal.
  case_decide as Hl.
  - subst l. by rewrite filter_cons_True, filter_nil by done.
  - rewrite filter_cons_False, filter_nil; [done|]. rewrite Ha. congruence.
Qed.

Lemma clusterLabelsSeen_S (predicted : list nat) (actual : list string)
    (j x : nat) (a : string) :
  predicted !! j = Some x → actual !! j = Some a →
  clusterLabelsSeen predicted actual (S j) x
  = set_add (clusterLabelsSeen predicted actual j x) a.
Proof.
  intros Hj Ha. unfold clusterLabelsSeen.
  rewrite (clusterMembers_S predicted j x x Hj), decide_True by done.
  rewrite omap_app. simpl. rewrite Ha. simpl. apply new_Set_snoc.
Qed.

Lemma countLabels_seen (predicted : list nat) (actual : list string) :
  length predicted ≤ length actual →
  counts_seen predicted actual (length predicted) (countLabels predicted actual).
Proof.
  intros Hlen.
  change (countLabels predicted actual)
    with (countLabelsOf (λ i, default EmptyString (actual !! i)) predicted).
  unfold countLabelsOf.
  apply (reduce_from_index_invariant (counts_seen predicted actual)).
  - split; [apply NoDup_nil_2|]. intros c. by rewrite decide_True.
  - intros j x m Hj [Hnd Hinv].
    assert (j < length actual) as Hjlt by (apply lookup_lt_Some in Hj; lia).
    destruct (lookup_lt_is_Some_2 actual j Hjlt) as [a Ha].
    split; [by apply countLabel_NoDup|].
    intros c. rewrite countLabel_get, (clusterMembers_S predicted j c x Hj).
    destruct (decide (c = x)) as [->|Hne].
    + rewrite (decide_True (P := x = x)) by done.
      rewrite decide_False by (intros Hnil; by apply app_eq_nil in Hnil as [_ ?]).
      f_equal. rewrite Ha. cbn [default from_option Datatypes.id].
      assert (default [] (map_get m x) = countsSeen predicted actual j x) as ->.
      { rewrite Hinv. case_decide as Hnil; [|done].
        unfold countsSeen, clusterLabelsSeen. by rewrite Hnil. }
      unfold countsSeen.
      rewrite (clusterLabelsSeen_S predicted actual j x a Hj Ha).
      assert (default 0 (map_get ((λ l, (l, labelVotes predicted actual j x l))
                                  <$> clusterLabelsSeen predicted actual j x) a) + 1
              = labelVotes predicted actual (S j) x a) as ->.
      { rewrite keyed_get, (labelVotes_S predicted actual j x a a Hj Ha).
        rewrite (decide_True (P := a = a)) by done.
        case_decide as Hin; simpl; [done|]. by rewrite labelVotes_unseen. }
      apply keyed_set; [apply new_Set_NoDup|].
      intros l _ Hl. rewrite (labelVotes_S predicted actual j x a l Hj Ha).
      rewrite decide_False by done. lia.
    + rewrite (decide_False (P := x = c)) by done. rewrite app_nil_r.
      assert (countsSeen predicted actual (S j) c = countsSeen predicted actual j c)
        as ->; [|apply Hinv].
      unfold countsSeen, clusterLabelsSeen, labelVotes.
      rewrite (clusterMembers_S predicted j c x Hj).
      rewrite (decide_False (P := x = c)) by done. by rewrite app_nil_r.
Qed.

(** The loop that picks the dominant label: either no count exceeds the
    one it starts from, or it ends on the first of the largest counts. *)
Lemma dominant_fold (lc : list (string * nat)) (mc : nat) (ml : string) :
  let res := foldl (λ '(maxCount, maxLabel) '(lbl, cnt),
                      if decide (maxCount < cnt) then (cnt, lbl)
                      else (maxCount, maxLabel)) (mc, ml) lc in
  (res = (mc, ml) ∧ Forall (λ e, e.2 ≤ mc) lc)
  ∨ ∃ before d cd after,
      lc = before ++ (d, cd) :: after ∧ res = (cd, d) ∧ mc < cd
      ∧ Forall (λ e, e.2 < cd) before ∧ Forall (λ e, e.2 ≤ cd) after.
Proof.
  revert mc ml. induction lc as [|[l0 c0] lc IH]; intros mc ml; [by left|].
  cbn [foldl]. cbv zeta in IH. case_decide as Hc.
  - right. destruct (IH c0 l0) as [[-> Hall]|(before & d & cd & after & -> & -> & Hlt & Hb & Ha)].
    + exists [], l0, c0, lc. split_and!; try done.
    + exists ((l0, c0) :: before), d, cd, after. split_and!; try done; [lia|].
      constructor; [simpl; lia|done].
  - destruct (IH mc ml) as [[-> Hall]|(before & d & cd & after & -> & -> & Hlt & Hb & Ha)].
    + left. split; [done|]. constructor; [simpl; lia|done].
    + right. exists ((l0, c0) :: before), d, cd, after. split_and!; try done.
      constructor; [simpl; lia|done].
Qed.

(** The label the code keeps for a cluster is its dominant label. *)
Lemma dominantLabel_dominant (predicted : list nat) (actual : list string) (c : nat) :
  clusterMembers predicted (length predicted) c ≠ [] →
  length predicted ≤ length actual →
  dominant_label predicted actual c
    (dominantLabel (countsSeen predicted actual (length predicted) c)).
Proof.
  intros Hmem Hlen. unfold dominant_label, dominantLabel. cbv zeta.
  set (n := length predicted).
  destruct (dominant_fold (countsSeen predicted actual n c) 0 EmptyString)
    as [[_ Hall]|(before & d & cd & after & Hsplit & -> & _ & Hb & Ha)].
  - exfalso. (* a cluster with a document has a label with a vote *)
    destruct (clusterMembers predicted n c) as [|i rest] eqn:Hm; [done|].
    assert (i ∈ clusterMembers predicted n c) as Hi by (rewrite Hm; by left).
    apply clusterMembers_lt in Hi as [Hi _].
    destruct (lookup_lt_is_Some_2 actual i) as [a Hai]; [lia|].
    assert (a ∈ clusterLabelsSeen predicted actual n c) as Hin.
    { unfold clusterLabelsSeen. apply elem_of_new_Set, list_elem_of_omap.
      exists i. split; [rewrite Hm; by left|done]. }
    pose proof (labelVotes_seen predicted actual n c a Hin) as Hvote.
    rewrite Forall_forall in Hall.
    specialize (Hall (a, labelVotes predicted actual n c a)).
    simpl in Hall. unfold countsSeen in Hall.
    rewrite list_elem_of_fmap in Hall.
    assert (labelVotes predicted actual n c a ≤ 0); [|lia].
    apply Hall. by exists a.
  - simpl. unfold countsSeen in Hsplit.
    apply fmap_app_inv in Hsplit as (lb & rest & Hb' & Hrest & Hlabels).
    symmetry in Hrest. apply fmap_cons_inv in Hrest as (d' & la & [= -> ->] & Ha' & ->).
    exists lb, la. split; [done|]. subst before after. split.
    + intros l Hl. rewrite Forall_fmap, Forall_forall in Hb. by apply Hb.
    + intros l Hl. rewrite Forall_fmap, Forall_forall in Ha. by apply Ha.
Qed.

(** A counter that goes up on the documents that pass a test counts
    them. *)
Lemma reduce_count_filter {A} (P : A → nat → Prop) `{∀ x i, Decision (P x i)}
    (Q : nat → Prop) `{∀ i, Decision (Q i)} (l : list A) :
  (∀ i x, l !! i = Some x → P x i ↔ Q i) →
  reduce_from (λ correct x i, if decide (P x i) then correct + 1 else correct)
    0 0 l
  = length (filter Q (seq 0 (length l))).
Proof.
  intros HPQ.
  apply (reduce_from_index_invariant
           (λ j (correct : nat), correct = length (filter Q (seq 0 j)))); [done|].
  intros j x correct Hj ->. rewrite seq_S, filter_app, length_app. simpl.
  destruct (decide (Q j)) as [Hq|Hq].
  - rewrite decide_True by (by eapply HPQ). by rewrite filter_cons_True, filter_nil.
  - rewrite decide_False by (intros Hp; by eapply Hq, HPQ).
    rewrite filter_cons_False, filter_nil by done. simpl. lia.
Qed.

(** X18.  [calculateAccuracy] returns 0 for sequences of different lengths;
    for two empty sequences it divides 0 by 0; otherwise it returns the
    share of the documents whose label is the dominant label of their
    cluster, a real between 0 and 1.  The dominant label of a cluster is the
    first, in the order of appearance, of the labels that most of its
    documents carry. *)
Theorem calculateAccuracy_range (predicted : list nat) (actual : list string) :
  ∃ dominant : nat → string,
    (length predicted = length actual →
     ∀ c, c ∈ predicted → dominant_label predicted actual c (dominant c))
    ∧ let correct :=
        length (filter (λ i, actual !! i = dominant <$> predicted !! i)
                       (seq 0 (length predicted))) in
      calculateAccuracy predicted actual
      = (if decide (length predicted ≠ length actual) then Num 0
         else if decide (predicted = []) then NaN
         else Num (INR correct / INR (length predicted)))
      ∧ (0 <= INR correct <= INR (length predicted))%R.
Proof.
  exists (λ c, dominantLabel (countsSeen predicted actual (length predicted) c)).
  split.
  - intros Hlen c Hc. apply dominantLabel_dominant; [|lia].
    apply list_elem_of_lookup in Hc as [i Hi]. intros Hnil.
    assert (i ∈ clusterMembers predicted (length predicted) c) as Hin.
    { unfold clusterMembers. apply list_elem_of_filter. split; [done|].
      apply elem_of_seq. apply lookup_lt_Some in Hi. lia. }
    rewrite Hnil in Hin. by apply elem_of_nil in Hin.
  - cbv zeta. split.
    + unfold calculateAccuracy. case_decide as Hlen; [done|].
      assert (length predicted = length actual) as Hlen' by lia.
      destruct (countLabels_seen predicted actual) as [Hnd Hcounts]; [lia|].
      rewrite (reduce_count_filter
                 (λ p i, map_get (clusterToLabel (countLabels predicted actual)) p
                         = actual !! i)
                 (λ i, actual !! i
                       = (λ c, dominantLabel
                                 (countsSeen predicted actual (length predicted) c))
                         <$> predicted !! i)).
      * case_decide as Hnil.
        -- subst predicted. apply ndiv_zero_zero.
        -- unfold ofNat. apply ndiv_Num, INR_pos_ne.
           destruct predicted; [done|simpl; lia].
      * intros i p Hi. rewrite Hi. simpl.
        rewrite clusterToLabel_get, Hcounts by done.
        rewrite decide_False; [simpl; split; congruence|].
        intros Hnil.
        assert (i ∈ clusterMembers predicted (length predicted) p) as Hin.
        { unfold clusterMembers. apply list_elem_of_filter. split; [done|].
          apply elem_of_seq. apply lookup_lt_Some in Hi. lia. }
        rewrite Hnil in Hin. by apply elem_of_nil in Hin.
    + split; [apply pos_INR|]. apply le_INR.
      etrans; [apply length_filter|]. by rewrite length_seq.
Qed.

(* ---------------------------------------------------------------------- *)
(** ** The pages *)

Lemma calculateAccuracy_share (predicted : list nat) (actual : list string) :
  length predicted = length actual → predicted ≠ [] →
  ∃ a, calculateAccuracy predicted actual = Num a ∧ (0 <= a <= 1)%R.
Proof.
  intros Hlen Hne. unfold calculateAccuracy.
  rewrite decide_False by (intros Hc; by apply Hc).
  set (toLabel := clusterToLabel (countLabels predicted actual)).
  set (correct := reduce_from _ 0 0 predicted).
  assert (correct ≤ length predicted) as Hle.
  { unfold correct.
    apply (reduce_count_le (λ p i, map_get toLabel p = actual !! i)). }
  assert (1 ≤ length predicted) as Hpos by (destruct predicted; [done|simpl; lia]).
  unfold ofNat. rewrite ndiv_Num by (apply INR_pos_ne; lia).
  eexists. split; [done|].
  pose proof (pos_INR correct). pose proof (le_INR _ _ Hle).
  pose proof (INR_ge_1 _ Hpos).
  apply Rdiv_between; lra.
Qed.

(** X25.  With two tweets or more, all of them cleaned, [handleClustering]
    stores results: one cluster per tweet, a dendrogram of n − 1 records, an
    accuracy between 0 and 1, and a confusion matrix that counts every
    labelled tweet once. *)
Theorem handleClustering_results (tweets : list Tweet) (method : LinkageMethod)
    (clusterCount : Z) :
  2 ≤ length tweets → Forall (λ t, is_Some (cleaned t)) tweets →
  ∃ results,
    handleClustering tweets method clusterCount = clusterResults results
    ∧ length (assignments results) = length tweets
    ∧ length (linkage results) = length tweets - 1
    ∧ (∃ a, accuracy results = Num a ∧ (0 <= a <= 1)%R)
    ∧ matrixTotal (matrix (confusionMatrix results))
      = length (filter (λ t, truthy (label t) = true) tweets).
Proof.
  intros Hn Hcleaned. unfold handleClustering.
  rewrite decide_False by lia.
  destruct (mapM cleaned tweets) as [texts|] eqn:Htexts.
  2:{ exfalso. apply eq_None_not_Some in Htexts. apply Htexts.
      by apply mapM_is_Some. }
  pose proof (length_mapM _ _ _ Htexts) as Hlen.
  destruct (distance_matrix_full_run (createDistanceMatrix texts) method
              (createDistanceMatrix_distance_matrix texts))
    as (st & Hrun & _ & Hrecords).
  assert (length (createDistanceMatrix texts) = length texts) as Hsize.
  { rewrite createDistanceMatrix_distanceTable.
    by destruct (distanceTable_square texts) as [-> _]. }
  unfold hierarchicalClustering. rewrite Hrun. cbn [fmap option_fmap option_map].
  cbv zeta.
  set (labeledTweets := filter (λ t, truthy (label t) = true) tweets).
  set (formed := formClusters (clusters st) clusterCount (length tweets)).
  assert (length formed = length tweets) as Hformed
    by apply formClusters_length.
  assert (length (take (length labeledTweets) formed) = length labeledTweets)
    as Htake.
  { rewrite length_take, Hformed.
    pose proof (length_filter (λ t, truthy (label t) = true) tweets).
    fold labeledTweets in H. lia. }
  case_decide as Hnone.
  - eexists. split; [done|]. cbn [assignments linkage accuracy confusionMatrix matrix].
    split_and!; [done|lia| |by rewrite Hnone].
    exists 0%R. split; [done|lra].
  - eexists. split; [done|]. cbn [assignments linkage accuracy confusionMatrix].
    split_and!; [done|lia| |].
    + apply calculateAccuracy_share; [by rewrite length_fmap|].
      intros Hnil. rewrite Hnil in Htake. simpl in Htake. lia.
    + destruct (createConfusionMatrix_filled
                  (take (length labeledTweets) formed)
                  ((λ t, default EmptyString (label t)) <$> labeledTweets))
        as (_ & -> & _); [|done].
      rewrite length_fmap. lia.
Qed.

Lemma handleClustering_results_witness :
  2 ≤ length scenarioTweets ∧ Forall (λ t, is_Some (cleaned t)) scenarioTweets
  ∧ ∃ results,
      handleClustering scenarioTweets average 2 = clusterResults results
      ∧ length (assignments results) = length scenarioTweets
      ∧ length (linkage results) = length scenarioTweets - 1
      ∧ (∃ a, accuracy results = Num a ∧ (0 <= a <= 1)%R)
      ∧ matrixTotal (matrix (confusionMatrix results))
        = length (filter (λ t, truthy (label t) = true) scenarioTweets).
Proof.
  assert (2 ≤ length scenarioTweets) as Hn by (simpl; lia).
  assert (Forall (λ t, is_Some (cleaned t)) scenarioTweets) as Hcleaned.
  { repeat constructor; simpl; by eexists. }
  split; [exact Hn|]. split; [exact Hcleaned|].
  exact (handleClustering_results scenarioTweets average 2 Hn Hcleaned).
Defined.

Lemma dictionaryClassify_truthy (positiveWordsFile negativeWordsFile text : string) :
  truthy (Some (dictionaryClassify positiveWordsFile negativeWordsFile text)) = true.
Proof. unfold dictionaryClassify. cbv zeta. by repeat case_decide. Qed.

(** X26.  When [handleAutoLabel] sets new training tweets, there are as
    many as before, every one of them is labelled, those that had a label
    are unchanged, and a second run has nothing left to label. *)
Theorem handleAutoLabel_labels_all (positiveWordsFile negativeWordsFile : string)
    (trainingTweets labeled : list Tweet) :
  handleAutoLabel positiveWordsFile negativeWordsFile trainingTweets
  = Some labeled →
  length labeled = length trainingTweets
  ∧ Forall (λ t, truthy (label t) = true) labeled
  ∧ (∀ i t, trainingTweets !! i = Some t → truthy (label t) = true →
            labeled !! i = Some t)
  ∧ handleAutoLabel positiveWordsFile negativeWordsFile labeled = None.
Proof.
  unfold handleAutoLabel at 1. cbv zeta. case_decide; [done|].
  intros [= <-].
  set (relabel := λ tweet : Tweet, if truthy (label tweet) then tweet else _).
  assert (Forall (λ t, truthy (label t) = true) (relabel <$> trainingTweets))
    as Hall.
  { apply Forall_fmap, Forall_forall. intros t _. unfold relabel. simpl.
    destruct (truthy (label t)) eqn:Ht; [done|].
    apply dictionaryClassify_truthy. }
  split_and!.
  - apply length_fmap.
  - exact Hall.
  - intros i t Hi Ht. rewrite list_lookup_fmap, Hi. simpl.
    unfold relabel. by rewrite Ht.
  - unfold handleAutoLabel. cbv zeta. rewrite decide_True; [done|].
    rewrite filter_none; [done|].
    eapply Forall_impl; [exact Hall|]. intros t Ht. simpl in *. congruence.
Qed.

Lemma handleAutoLabel_labels_all_witness :
  handleAutoLabel samplePositiveFile sampleNegativeFile scenarioTweets
  = Some scenarioTweetsLabeled
  ∧ length scenarioTweetsLabeled = length scenarioTweets
  ∧ Forall (λ t, truthy (label t) = true) scenarioTweetsLabeled
  ∧ (∀ i t, scenarioTweets !! i = Some t → truthy (label t) = true →
            scenarioTweetsLabeled !! i = Some t)
  ∧ handleAutoLabel samplePositiveFile sampleNegativeFile scenarioTweetsLabeled
    = None.
Proof.
  assert (handleAutoLabel samplePositiveFile sampleNegativeFile scenarioTweets
          = Some scenarioTweetsLabeled) as Hrun by (vm_compute; reflexivity).
  split; [exact Hrun|].
  exact (handleAutoLabel_labels_all samplePositiveFile sampleNegativeFile
           scenarioTweets scenarioTweetsLabeled Hrun).
Defined.

(* ---------------------------------------------------------------------- *)
(** ** Cleaning a tweet *)

Lemma collapse_spaces_in_run (s : string) :
  starts_with is_space (collapse_spaces true s) = false.
Proof.
  induction s as [|c s IH]; simpl; [done|].
  destruct (is_space c) eqn:Hc; [done|]. simpl. done.
Qed.

Lemma collapse_spaces_start (s : string) :
  starts_with is_space s = false →
  starts_with is_space (collapse_spaces false s) = false.
Proof.
  destruct s as [|c s]; simpl; [done|]. intros Hc. by rewrite Hc.
Qed.

Lemma collapse_spaces_single (in_run : bool) (s : string) :
  double_space (collapse_spaces in_run s) = false.
Proof.
  revert in_run. induction s as [|c s IH]; intros in_run; simpl; [done|].
  destruct (is_space c) eqn:Hc.
  - destruct in_run; [apply IH|].
    destruct (starts_with is_space s) eqn:Hs; simpl.
    + rewrite collapse_spaces_in_run, IH. done.
    + rewrite Hc, collapse_spaces_start, IH by done. done.
  - simpl. rewrite Hc, IH. done.
Qed.

Lemma double_space_tail (c : ascii) (s : string) :
  double_space (String c s) = false → double_space s = false.
Proof. simpl. intros H. apply orb_false_iff in H. tauto. Qed.

Lemma trim_start_single (s : string) :
  double_space s = false → double_space (trim_start s) = false.
Proof.
  induction s as [|c s IH]; [done|]. intros Hs. simpl.
  destruct (is_space c); [|done]. apply IH. by eapply double_space_tail.
Qed.

Lemma trim_start_start (s : string) : starts_with is_space (trim_start s) = false.
Proof.
  induction s as [|c s IH]; [done|]. simpl.
  destruct (is_space c) eqn:Hc; [done|]. simpl. done.
Qed.

Lemma trim_end_start (s : string) :
  starts_with is_space s = false → starts_with is_space (trim_end s) = false.
Proof.
  destruct s as [|c s]; [done|]. simpl. intros Hc. rewrite Hc.
  by destruct (trim_end s).
Qed.

Lemma trim_end_starts (p : ascii → bool) (s : string) :
  starts_with p (trim_end s) = true → starts_with p s = true.
Proof.
  destruct s as [|c s]; [done|]. simpl.
  destruct (trim_end s); [|done]. by destruct (is_space c).
Qed.

Lemma trim_end_single (s : string) :
  double_space s = false → double_space (trim_end s) = false.
Proof.
  induction s as [|c s IH]; [done|]. intros Hs.
  pose proof Hs as Hs'. simpl in Hs'. apply orb_false_iff in Hs' as [Hhead Htail].
  specialize (IH Htail). simpl.
  destruct (trim_end s) as [|d r] eqn:Hr.
  - destruct (is_space c); [done|]. simpl. by rewrite andb_false_r.
  - change (double_space (String c (String d r)))
      with ((is_space c && is_space d) || double_space (String d r)).
    rewrite IH, orb_false_r.
    destruct (is_space c) eqn:Hc; [|done]. simpl in *.
    destruct (is_space d) eqn:Hd; [|done].
    assert (starts_with is_space (trim_end s) = true) as Hstart
      by (by rewrite Hr).
    apply trim_end_starts in Hstart. congruence.
Qed.

Lemma trim_end_end (s : string) : ends_with_space (trim_end s) = false.
Proof.
  induction s as [|c s IH]; [done|]. simpl.
  destruct (trim_end s) as [|d r] eqn:Hr.
  - destruct (is_space c) eqn:Hc; [done|]. simpl. done.
  - exact IH.
Qed.

(** X27.  A cleaned tweet neither starts nor ends with white space, and
    has no two white-space characters in a row. *)
Theorem cleanTweet_spacing (text : string) :
  starts_with is_space (cleanTweet text) = false
  ∧ ends_with_space (cleanTweet text) = false
  ∧ double_space (cleanTweet text) = false.
Proof.
  unfold cleanTweet, trim. cbv zeta. split_and!.
  - apply trim_end_start, trim_start_start.
  - apply trim_end_end.
  - apply trim_end_single, trim_start_single, collapse_spaces_single.
Qed.

Lemma remove_tagged_length (tag : ascii) (in_match : bool) (s : string) :
  String.length (remove_tagged tag in_match s) ≤ String.length s.
Proof.
  revert in_match. induction s as [|c s IH]; intros in_match; simpl; [done|].
  pose proof (IH true). pose proof (IH false). repeat case_match; simpl; lia.
Qed.

Lemma remove_RT_length (skip : nat) (prev_word : bool) (s : string) :
  String.length (remove_RT skip prev_word s) ≤ String.length s.
Proof.
  revert skip prev_word.
  induction s as [|c s IH]; intros skip prev_word; [done|].
  cbn [remove_RT]. destruct skip as [|skip].
  - destruct (RT_match prev_word (String c s)) as [len|].
    + specialize (IH (len - 1) (is_word c)). simpl. lia.
    + specialize (IH 0 (is_word c)). simpl. lia.
  - specialize (IH skip (is_word c)). simpl. lia.
Qed.

Lemma remove_urls_length (in_match : bool) (s : string) :
  String.length (remove_urls in_match s) ≤ String.length s.
Proof.
  revert in_match. induction s as [|c s IH]; intros in_match; [done|].
  cbn [remove_urls].
  destruct (in_match && negb (is_space c)).
  - specialize (IH true). simpl. lia.
  - destruct (url_start (String c s)).
    + specialize (IH true). simpl. lia.
    + specialize (IH false). simpl. lia.
Qed.

Lemma collapse_spaces_length (in_run : bool) (s : string) :
  String.length (collapse_spaces in_run s) ≤ String.length s.
Proof.
  revert in_run. induction s as [|c s IH]; intros in_run; simpl; [done|].
  pose proof (IH true). pose proof (IH false). repeat case_match; simpl; lia.
Qed.

Lemma trim_start_length (s : string) :
  String.length (trim_start s) ≤ String.length s.
Proof.
  induction s as [|c s IH]; simpl; [done|]. case_match; simpl; lia.
Qed.

Lemma trim_end_length (s : string) :
  String.length (trim_end s) ≤ String.length s.
Proof.
  induction s as [|c s IH]; simpl; [done|].
  destruct (trim_end s); [case_match|]; simpl in *; lia.
Qed.

(** X28.  Cleaning only removes: a cleaned tweet is never longer than the
    text. *)
Theorem cleanTweet_length (text : string) :
  String.length (cleanTweet text) ≤ String.length text.
Proof.
  unfold cleanTweet, trim. cbv zeta.
  etrans; [apply trim_end_length|].
  etrans; [apply trim_start_length|].
  etrans; [apply collapse_spaces_length|].
  etrans; [apply remove_urls_length|].
  etrans; [apply remove_RT_length|].
  etrans; [apply remove_tagged_length|].
  apply remove_tagged_length.
Qed.

Lemma remove_tagged_none (tag : ascii) (s : string) :
  occurs tag s = false → remove_tagged tag false s = s.
Proof.
  induction s as [|c s IH]; simpl; [done|]. intros Hs.
  apply orb_false_iff in Hs as [Hc Hs]. rewrite Hc. simpl. by rewrite IH.
Qed.

Lemma strip_prefix_occurs (c : ascii) (p s rest : string) :
  strip_prefix p s = Some rest → occurs c s = false →
  occurs c p = false ∧ occurs c rest = false.
Proof.
  revert s. induction p as [|a p IH]; intros s; simpl.
  - by intros [= ->].
  - destruct s as [|b s]; [done|].
    destruct (Ascii.eqb a b) eqn:Hab; [|done].
    apply Ascii.eqb_eq in Hab as ->. simpl. intros Hrest Hs.
    apply orb_false_iff in Hs as [Hb Hs]. rewrite Hb.
    by apply IH in Hrest.
Qed.

Lemma remove_RT_none (prev_word : bool) (s : string) :
  occurs "R" s = false → remove_RT 0 prev_word s = s.
Proof.
  revert prev_word. induction s as [|c s IH]; intros prev_word; [done|].
  intros Hs. cbn [remove_RT].
  assert (RT_match prev_word (String c s) = None) as ->.
  { unfold RT_match.
    destruct (strip_prefix "RT" (String c s)) as [rest|] eqn:Hrest; [|done].
    by destruct (strip_prefix_occurs "R" _ _ _ Hrest Hs). }
  simpl in Hs. apply orb_false_iff in Hs as [Hc Hs]. by rewrite IH.
Qed.

Lemma url_start_colon (s : string) : occurs ":" s = false → url_start s = false.
Proof.
  assert (∀ r, occurs ":" r = false → after_scheme r = false) as Hafter.
  { intros r Hr. unfold after_scheme.
    destruct (strip_prefix "://" r) as [rest|] eqn:Hrest; [|done].
    by destruct (strip_prefix_occurs ":" _ _ _ Hrest Hr). }
  intros Hs. unfold url_start.
  destruct (strip_prefix "http" s) as [rest|] eqn:Hrest; [|done].
  destruct (strip_prefix_occurs ":" _ _ _ Hrest Hs) as [_ Hr].
  rewrite Hafter by done. cbn [orb].
  destruct (strip_prefix "s" rest) as [rest'|] eqn:Hrest'; [|done].
  destruct (strip_prefix_occurs ":" _ _ _ Hrest' Hr) as [_ Hr'].
  by apply Hafter.
Qed.

Lemma remove_urls_none (s : string) :
  occurs ":" s = false → remove_urls false s = s.
Proof.
  induction s as [|c s IH]; [done|]. intros Hs. cbn [remove_urls].
  rewrite url_start_colon by done. simpl.
  simpl in Hs. apply orb_false_iff in Hs as [_ Hs]. by rewrite IH.
Qed.

Lemma collapse_spaces_none (s : string) :
  double_space s = false → collapse_spaces false s = s.
Proof.
  induction s as [|c s IH]; [done|]. intros Hs. simpl in *.
  apply orb_false_iff in Hs as [Hc Hs]. rewrite IH by done.
  destruct (is_space c); [|done]. simpl in Hc. by rewrite Hc.
Qed.

Lemma trim_start_none (s : string) :
  starts_with is_space s = false → trim_start s = s.
Proof. destruct s as [|c s]; simpl; [done|]. by intros ->. Qed.

Lemma trim_end_none (s : string) :
  ends_with_space s = false → trim_end s = s.
Proof.
  induction s as [|c s IH]; [done|]. intros Hs. simpl.
  destruct s as [|d s].
  - simpl in *. by rewrite Hs.
  - rewrite IH by done. done.
Qed.

(** X29.  A text with none of the characters [@], [#], [R] and [:], with
    no white space at either end and no two white-space characters in a
    row, is its own cleaned text. *)
Theorem cleanTweet_plain (text : string) :
  occurs "@" text = false → occurs "#" text = false →
  occurs "R" text = false → occurs ":" text = false →
  starts_with is_space text = false → ends_with_space text = false →
  double_space text = false →
  cleanTweet text = text.
Proof.
  intros Hat Hhash HR Hcolon Hstart Hend Hdouble. unfold cleanTweet, trim.
  cbv zeta.
  rewrite !remove_tagged_none by (by rewrite ?remove_tagged_none).
  rewrite remove_RT_none, remove_urls_none, collapse_spaces_none by done.
  by rewrite trim_start_none, trim_end_none.
Qed.

Lemma cleanTweet_plain_witness :
  occurs "@" "i love this" = false ∧ occurs "#" "i love this" = false
  ∧ occurs "R" "i love this" = false ∧ occurs ":" "i love this" = false
  ∧ starts_with is_space "i love this" = false
  ∧ ends_with_space "i love this" = false
  ∧ double_space "i love this" = false
  ∧ cleanTweet "i love this" = "i love this".
Proof.
  do 7 (split; [reflexivity|]).
  apply (cleanTweet_plain "i love this"); reflexivity.
Defined.

(* ---------------------------------------------------------------------- *)
(** ** The tree of the dendrogram view *)

Lemma treeNodes_eq (linkage : list ClusterNode) :
  treeNodes linkage
  = ((λ i, {| node_id := i; children := None; node_distance := Num 0 |})
     <$> seq 0 (length linkage + 1))
    ++ imap (λ idx merge, {| node_id := length linkage + 1 + idx;
                             children := Some [left merge; right merge];
                             node_distance := distance merge |}) linkage.
Proof.
  unfold treeNodes. cbv zeta.
  generalize (length linkage + 1) as n. intros n.
  generalize ((λ i, {| node_id := i; children := None; node_distance := Num 0 |})
              <$> seq 0 n) as leaves.
  induction linkage as [|merge linkage IH] using rev_ind; intros leaves.
  - simpl. symmetry. apply app_nil_r.
  - rewrite !imap_app, foldl_app, IH. simpl.
    rewrite Nat.add_0_r. by rewrite <- (assoc_L (++)).
Qed.

Lemma treeLinks_eq (linkage : list ClusterNode) :
  treeLinks linkage
  = mjoin (imap (λ idx merge,
                   let parent := {| node_id := length linkage + 1 + idx;
                                    children := Some [left merge; right merge];
                                    node_distance := distance merge |} in
                   [(parent, left merge ≫= (treeNodes linkage !!.));
                    (parent, right merge ≫= (treeNodes linkage !!.))])
                linkage).
Proof.
  unfold treeLinks. cbv zeta.
  set (nodes := treeNodes linkage).
  assert (length nodes - (length linkage + 1) = length linkage) as ->.
  { unfold nodes. rewrite treeNodes_eq, length_app, length_fmap, length_seq,
      length_imap. lia. }
  assert (∀ idx merge, linkage !! idx = Some merge →
            nodes !! (length linkage + 1 + idx)
            = Some {| node_id := length linkage + 1 + idx;
                      children := Some [left merge; right merge];
                      node_distance := distance merge |}) as Hnode.
  { intros idx merge Hidx. unfold nodes. rewrite treeNodes_eq.
    rewrite lookup_app_r by (rewrite length_fmap, length_seq; lia).
    rewrite length_fmap, length_seq.
    replace (length linkage + 1 + idx - (length linkage + 1)) with idx by lia.
    rewrite list_lookup_imap, Hidx. done. }
  generalize dependent nodes. intros nodes.
  generalize (length linkage + 1) as n. intros n Hnode.
  induction linkage as [|merge linkage IH] using rev_ind; [done|].
  rewrite length_app. simpl. rewrite Nat.add_1_r, seq_S, foldl_app.
  rewrite imap_app, join_app. simpl.
  rewrite IH.
  - rewrite (Hnode (length linkage) merge) by (by rewrite list_lookup_middle).
    simpl. rewrite Nat.add_0_r. by rewrite <- (assoc_L (++)).
  - intros idx merge' Hidx. apply Hnode.
    by rewrite lookup_app_l by (by eapply lookup_lt_Some).
Qed.

(** X30.  The dendrogram of a list of tweets, as the view draws it: every
    record gives two links, and each of them goes from a node numbered [n]
    or more to a leaf, never to the node of an earlier record. *)
Theorem treeLinks_reach_leaves (tweets : list string) (method : LinkageMethod) :
  ∃ cs, hierarchicalClustering (createDistanceMatrix tweets) method = Some cs
        ∧ length (treeLinks cs) = 2 * length cs
        ∧ Forall (λ link, ∃ leaf, link.2 = Some leaf
                            ∧ children leaf = None
                            ∧ node_id leaf < length tweets
                            ∧ length tweets ≤ node_id link.1)
                 (treeLinks cs).
Proof.
  destruct (distance_matrix_full_run (createDistanceMatrix tweets) method
              (createDistanceMatrix_distance_matrix tweets))
    as (st & Hrun & Hreach & Hlen).
  assert (length (createDistanceMatrix tweets) = length tweets) as Hsize.
  { rewrite createDistanceMatrix_distanceTable.
    by destruct (distanceTable_square tweets) as [-> _]. }
  rewrite Hsize in *.
  exists (clusters st). unfold hierarchicalClustering. rewrite Hsize, Hrun.
  split; [done|].
  pose proof (reachable_left_right _ _ _ _ Hreach) as Hchildren.
  rewrite treeLinks_eq. cbv zeta.
  assert (∀ i, i < length tweets →
            treeNodes (clusters st) !! i
            = Some {| node_id := i; children := None; node_distance := Num 0 |})
    as Hleaf.
  { intros i Hi. rewrite treeNodes_eq.
    rewrite lookup_app_l by (rewrite length_fmap, length_seq; lia).
    rewrite list_lookup_fmap, lookup_seq_lt by lia. done. }
  split.
  - rewrite length_join.
    match goal with
    | |- sum_list (length <$> ?l) = _ =>
        assert (length <$> l = (λ _, 2) <$> clusters st) as ->
    end.
    { apply list_eq. intros i. rewrite !list_lookup_fmap, list_lookup_imap.
      by destruct (clusters st !! i). }
    rewrite sum_list_fmap_const. lia.
  - apply Forall_forall. intros link Hlink.
    apply list_elem_of_join in Hlink as (pair & Hlink & Hpair).
    apply list_elem_of_lookup in Hpair as [idx Hidx].
    rewrite list_lookup_imap in Hidx.
    destruct (clusters st !! idx) as [merge|] eqn:Hmerge; [|done].
    simpl in Hidx. inversion Hidx; subst pair. clear Hidx.
    destruct (Hchildren merge) as (i & j & Hl & Hr & Hij & Hj).
    { by eapply list_elem_of_lookup_2. }
    rewrite Hl, Hr in Hlink. simpl in Hlink.
    rewrite !Hleaf in Hlink by lia.
    apply elem_of_cons in Hlink as [->|Hlink];
      [|apply list_elem_of_singleton in Hlink as ->];
      eexists; simpl; (split; [done|]); simpl; split_and!; try done; lia.
Qed.
